(** * Career Compass: the job-listing scraper ([job_scraper.py])

    A shallow embedding of the search adapter, the field extractors, the
    fetch orchestrator and the fit scorer, together with the properties
    that the specification states about them.

    Conventions of the embedding.

    - Python [str] is [text], a list of 8-bit characters.  Values 0..127
      are ASCII and are classified the way Python classifies them
      ([str.isspace], [\s], [\d], [\w], [str.title]).  Values 128..255
      stand for non-ASCII symbols: they have no case and are neither
      whitespace, digits nor word characters.  Value 149 stands for the
      bullet U+2022 that the bullet-point patterns mention.
    - Python [int] is [Z]; list slicing [l[:n]] is [firstn n l].
    - The [re] module is a backtracking matcher in continuation-passing
      style over a small regular-expression syntax ([re_search],
      [re_finditer], [re_findall]); every pattern of the source is
      written out in that syntax next to the function that uses it.
    - The libraries the code calls (requests, BeautifulSoup, html2text,
      the search provider, the language model, [json.loads]) are fields of
      a [World] record or arguments; a call that may raise returns [None]
      or [Raised]. *)

From Stdlib Require Import Ascii String.
From Stdlib Require Import List ZArith Lia Bool Arith.
Import ListNotations.

(** ** Text *)

Definition text := list ascii.

Definition txt (s : string) : text := list_ascii_of_string s.
Arguments txt s%_string.

Definition nl : ascii := ascii_of_nat 10.
Definition dquote : ascii := ascii_of_nat 34.
Definition bullet : ascii := ascii_of_nat 149.

Definition code (c : ascii) : nat := nat_of_ascii c.

Definition in_range (lo hi : nat) (c : ascii) : bool :=
  (lo <=? code c) && (code c <=? hi).

(** [str.isspace] on one character, which is also the class [\s]. *)
Definition is_space (c : ascii) : bool :=
  in_range 9 13 c || in_range 28 32 c.

Definition is_digit (c : ascii) : bool := in_range 48 57 c.
Definition is_upper (c : ascii) : bool := in_range 65 90 c.
Definition is_lower (c : ascii) : bool := in_range 97 122 c.
Definition is_alpha (c : ascii) : bool := is_upper c || is_lower c.

(** The class [\w]. *)
Definition is_word (c : ascii) : bool :=
  is_alpha c || is_digit c || Ascii.eqb c "_"%char.

Definition to_lower (c : ascii) : ascii :=
  if is_upper c then ascii_of_nat (code c + 32) else c.

Definition to_upper (c : ascii) : ascii :=
  if is_lower c then ascii_of_nat (code c - 32) else c.

(** Equality of characters under [re.IGNORECASE]. *)
Definition eq_ci (a b : ascii) : bool := Ascii.eqb (to_lower a) (to_lower b).

Fixpoint text_eqb (a b : text) : bool :=
  match a, b with
  | [], [] => true
  | x :: a', y :: b' => Ascii.eqb x y && text_eqb a' b'
  | _, _ => false
  end.

(** Python truthiness of a string and of a list. *)
Definition truthy {A} (l : list A) : bool :=
  match l with [] => false | _ :: _ => true end.

(** ** String methods *)

Fixpoint starts_with (p s : text) : bool :=
  match p, s with
  | [], _ => true
  | x :: p', y :: s' => Ascii.eqb x y && starts_with p' s'
  | _ :: _, [] => false
  end.

(** [sub in s] and [s.find(sub)]. *)
Fixpoint str_find_from (sub s : text) (i : nat) : option nat :=
  if starts_with sub s then Some i
  else match s with
       | [] => None
       | _ :: s' => str_find_from sub s' (S i)
       end.

Definition str_find (sub s : text) : option nat := str_find_from sub s 0.

Definition str_contains (sub s : text) : bool :=
  match str_find sub s with Some _ => true | None => false end.

(** [s.split(sep)] for a non-empty separator: occurrences are taken from
    left to right and do not overlap.  [skip] counts the characters of a
    separator still to be dropped, [acc] is the current piece, reversed. *)
Fixpoint str_split_go (sep : text) (skip : nat) (acc s : text) : list text :=
  match s with
  | [] => [rev acc]
  | c :: t =>
      match skip with
      | S n => str_split_go sep n acc t
      | 0 => if starts_with sep s
             then rev acc :: str_split_go sep (length sep - 1) [] t
             else str_split_go sep 0 (c :: acc) t
      end
  end.

Definition str_split (sep s : text) : list text := str_split_go sep 0 [] s.

Fixpoint lstrip (s : text) : text :=
  match s with
  | c :: t => if is_space c then lstrip t else s
  | [] => []
  end.

Definition rstrip (s : text) : text := rev (lstrip (rev s)).

(** [s.strip()]. *)
Definition str_strip (s : text) : text := rstrip (lstrip s).

(** [s.replace(a, b)] for single characters. *)
Definition str_replace (a b : ascii) (s : text) : text :=
  map (fun c => if Ascii.eqb c a then b else c) s.

(** [s.title()]: a cased character is upper-cased after an uncased one
    and lower-cased after a cased one. *)
Fixpoint title_go (prev_cased : bool) (s : text) : text :=
  match s with
  | [] => []
  | c :: t =>
      if is_lower c then (if prev_cased then c else to_upper c) :: title_go true t
      else if is_upper c then (if prev_cased then to_lower c else c) :: title_go true t
      else c :: title_go false t
  end.

Definition str_title (s : text) : text := title_go false s.

(** [sep.join(l)]. *)
Fixpoint str_join (sep : text) (l : list text) : text :=
  match l with
  | [] => []
  | [x] => x
  | x :: rest => x ++ sep ++ str_join sep rest
  end.

(** [list(dict.fromkeys(l))]: duplicates are dropped, the first
    occurrence of each entry keeps its place. *)
Fixpoint dedup_go (seen : list text) (l : list text) : list text :=
  match l with
  | [] => []
  | x :: rest =>
      if existsb (text_eqb x) seen then dedup_go seen rest
      else x :: dedup_go (x :: seen) rest
  end.

Definition dedup (l : list text) : list text := dedup_go [] l.

(** ** Regular expressions *)

Inductive re : Type :=
| Eps
| Chr (p : ascii -> bool)
| Seq (a b : re)
| Alt (a b : re)
| Star (greedy : bool) (a : re)
| Group (a : re)
| Bol
| Eol
| WordB.

(** The position of the matcher in the subject: the characters before it
    (reversed) and after it, the characters of the match so far
    (group 0, reversed) and of capture group 1 (reversed), and whether
    group 1 is open.  Every pattern of the source has at most one
    capture group. *)
Record mstate : Type := MState {
  m_pre : text;
  m_rest : text;
  m_g0 : text;
  m_open : bool;
  m_g1 : text
}.

Definition advance (c : ascii) (t : text) (st : mstate) : mstate :=
  MState (c :: m_pre st) t (c :: m_g0 st) (m_open st)
         (if m_open st then c :: m_g1 st else m_g1 st).

Definition open_group (st : mstate) : mstate :=
  MState (m_pre st) (m_rest st) (m_g0 st) true [].

Definition close_group (st : mstate) : mstate :=
  MState (m_pre st) (m_rest st) (m_g0 st) false (m_g1 st).

(** [^] without [re.MULTILINE]. *)
Definition at_start (st : mstate) : bool :=
  match m_pre st with [] => true | _ => false end.

(** [$] without [re.MULTILINE]: the end of the subject, or just before a
    newline that ends it. *)
Definition at_end (st : mstate) : bool :=
  match m_rest st with
  | [] => true
  | [c] => Ascii.eqb c nl
  | _ => false
  end.

(** [\b]. *)
Definition at_boundary (st : mstate) : bool :=
  let before := match m_pre st with c :: _ => is_word c | [] => false end in
  let after := match m_rest st with c :: _ => is_word c | [] => false end in
  xorb before after.

Definition matcher := mstate -> (mstate -> option mstate) -> option mstate.

(** A repetition: the greedy one tries another round first, the lazy one
    tries the continuation first.  A round has to consume a character. *)
Fixpoint star_loop (body : matcher) (greedy : bool) (fuel : nat)
         (st : mstate) (k : mstate -> option mstate) : option mstate :=
  match fuel with
  | 0 => k st
  | S f =>
      let again st' :=
        if length (m_rest st') <? length (m_rest st)
        then star_loop body greedy f st' k else None in
      if greedy then
        match body st again with
        | Some x => Some x
        | None => k st
        end
      else
        match k st with
        | Some x => Some x
        | None => body st again
        end
  end.

Fixpoint rmatch (r : re) (st : mstate) (k : mstate -> option mstate)
  {struct r} : option mstate :=
  match r with
  | Eps => k st
  | Chr p =>
      match m_rest st with
      | c :: t => if p c then k (advance c t st) else None
      | [] => None
      end
  | Seq a b => rmatch a st (fun st' => rmatch b st' k)
  | Alt a b =>
      match rmatch a st k with
      | Some x => Some x
      | None => rmatch b st k
      end
  | Star g a => star_loop (rmatch a) g (S (length (m_rest st))) st k
  | Group a => rmatch a (open_group st) (fun st' => k (close_group st'))
  | Bol => if at_start st then k st else None
  | Eol => if at_end st then k st else None
  | WordB => if at_boundary st then k st else None
  end.

Definition start_state (pre rest : text) : mstate := MState pre rest [] false [].

Definition match_here (r : re) (pre rest : text) : option mstate :=
  rmatch r (start_state pre rest) Some.

(** The leftmost match at or after the current position. *)
Fixpoint search_from (r : re) (pre rest : text) : option mstate :=
  match match_here r pre rest with
  | Some st => Some st
  | None =>
      match rest with
      | [] => None
      | c :: t => search_from r (c :: pre) t
      end
  end.

(** [re.search(r, s)]. *)
Definition re_search (r : re) (s : text) : option mstate := search_from r [] s.

Definition group0 (st : mstate) : text := rev (m_g0 st).
Definition group1 (st : mstate) : text := rev (m_g1 st).

(** [re.finditer(r, s)]: matches do not overlap; after an empty match the
    scan moves on by one character. *)
Fixpoint finditer_from (fuel : nat) (r : re) (pre rest : text) : list mstate :=
  match fuel with
  | 0 => []
  | S f =>
      match search_from r pre rest with
      | None => []
      | Some st =>
          st :: match m_g0 st, m_rest st with
                | [], [] => []
                | [], c :: t => finditer_from f r (c :: m_pre st) t
                | _ :: _, _ => finditer_from f r (m_pre st) (m_rest st)
                end
      end
  end.

Definition re_finditer (r : re) (s : text) : list mstate :=
  finditer_from (S (length s)) r [] s.

(** [re.findall(r, s)] for a pattern with one capture group. *)
Definition re_findall (r : re) (s : text) : list text :=
  map group1 (re_finditer r s).

(** *** Pattern syntax *)

Definition ch (c : ascii) : re := Chr (Ascii.eqb c).
Definition ch_ci (c : ascii) : re := Chr (eq_ci c).
Definition any_char : re := Chr (fun _ => true).

Fixpoint seq_of (f : ascii -> re) (s : text) : re :=
  match s with
  | [] => Eps
  | [c] => f c
  | c :: t => Seq (f c) (seq_of f t)
  end.

(** A literal, and a literal under [re.IGNORECASE]. *)
Definition lit (s : string) : re := seq_of ch (txt s).
Definition lit_ci (s : string) : re := seq_of ch_ci (txt s).
Arguments ch c%_char.
Arguments ch_ci c%_char.
Arguments lit s%_string.
Arguments lit_ci s%_string.

Fixpoint alts (l : list re) : re :=
  match l with
  | [] => Chr (fun _ => false)
  | [r] => r
  | r :: rest => Alt r (alts rest)
  end.

Fixpoint seqs (l : list re) : re :=
  match l with
  | [] => Eps
  | [r] => r
  | r :: rest => Seq r (seqs rest)
  end.

Definition opt (r : re) : re := Alt r Eps.
Definition star (r : re) : re := Star true r.
Definition plus (r : re) : re := Seq r (Star true r).
Definition lazy_star (r : re) : re := Star false r.

Definition space : re := Chr is_space.
Definition digit : re := Chr is_digit.
Definition spaces : re := star space.

(** [[^...]] over a list of excluded characters. *)
Definition none_of (s : text) : re :=
  Chr (fun c => negb (existsb (Ascii.eqb c) s)).

Definition one_of (s : text) : re :=
  Chr (fun c => existsb (Ascii.eqb c) s).

(** ** Outcomes of calls that may raise *)

Inductive outcome (A : Type) : Type :=
| Ok (a : A)
| Raised.

Arguments Ok {A} a.
Arguments Raised {A}.

(** [a or b] on strings, where [None] and the empty string are false. *)
Definition or_else (a : option text) (b : text) : text :=
  match a with
  | Some (c :: t) => c :: t
  | _ => b
  end.

(** [d.get(key, default)] on an entry that may be missing. *)
Definition dict_get (v : option text) (default : text) : text :=
  match v with
  | Some x => x
  | None => default
  end.

(** ** Search adapter: the pure helpers *)

Definition extract_company_from_title (title : text) : text :=
  match str_split (txt " - ") title with
  | _ :: second :: _ => str_strip second
  | _ => txt "Unknown Company"
  end.

(** [https?://(?:www\.)?([^/]+)] *)
Definition domain_pattern : re :=
  seqs [lit "http"; opt (ch "s"); lit "://"; opt (lit "www.");
        Group (plus (none_of (txt "/")))].

Definition extract_domain (url : text) : text :=
  if truthy url then
    match re_findall domain_pattern url with
    | m :: _ => m
    | [] => txt "Unknown Source"
    end
  else txt "Unknown Source".

Definition work_mode : re :=
  alts [lit_ci "remote"; lit_ci "hybrid"; lit_ci "on-site"].

(** The three location patterns, each with whether it has a group:
    [location:?\s*([^\.;]+)],
    [in\s+([A-Za-z\s,]+(?:remote|hybrid|on-site))],
    [(?:remote|hybrid|on-site)], all under [re.IGNORECASE]. *)
Definition location_patterns : list (re * bool) :=
  [ (seqs [lit_ci "location"; opt (ch ":"); spaces;
           Group (plus (none_of (txt ".;")))], true);
    (seqs [lit_ci "in"; plus space;
           Group (Seq (plus (Chr (fun c => is_alpha c || is_space c
                                            || Ascii.eqb c ","%char)))
                      work_mode)], true);
    (work_mode, false) ].

Fixpoint first_location (ps : list (re * bool)) (snippet : text) : option text :=
  match ps with
  | [] => None
  | (p, has_group) :: rest =>
      match re_search p snippet with
      | Some m => Some (str_strip (if has_group then group1 m else group0 m))
      | None => first_location rest snippet
      end
  end.

Definition extract_location (title snippet default_location : text) : text :=
  let title_location :=
    if str_contains (txt " - ") title && str_contains (txt " in ") title then
      match str_split (txt " - ") title with
      | _ :: second :: _ =>
          if str_contains (txt " in ") second then
            match str_split (txt " in ") second with
            | _ :: location_part :: _ => Some (str_strip location_part)
            | _ => None
            end
          else None
      | _ => None
      end
    else None in
  let snippet_location := first_location location_patterns snippet in
  or_else title_location
    (or_else snippet_location
       (or_else (Some default_location) (txt "Not specified"))).

(** ** Field extractors *)

(** [\d{1,3}(?:,\d{3})*(?:\.\d{2})?] *)
Definition amount : re :=
  seqs [digit; opt (Seq digit (opt digit));
        star (seqs [ch ","; digit; digit; digit]);
        opt (seqs [ch "."; digit; digit])].

Definition currency_code : re :=
  alts [lit_ci "USD"; lit_ci "EUR"; lit_ci "GBP"; lit_ci "AUD"; lit_ci "CAD"].

Definition pay_period : re :=
  alts [lit_ci "year"; lit_ci "yr"; lit_ci "month"; lit_ci "mo";
        lit_ci "hour"; lit_ci "hr"; lit_ci "annum"].

(** The three salary patterns of [extract_salary], under
    [re.IGNORECASE]. *)
Definition salary_dollar : re :=
  Group (seqs [ch "$"; amount;
               opt (seqs [spaces; ch "-"; spaces; ch "$"; amount]);
               opt (seqs [spaces; alts [lit_ci "per"; lit_ci "a"; ch "/"];
                          spaces; pay_period])]).

Definition salary_code_first : re :=
  Group (seqs [currency_code; spaces; amount;
               opt (seqs [spaces; ch "-"; spaces; currency_code; spaces; amount])]).

Definition salary_code_last : re :=
  Group (seqs [amount; spaces; currency_code;
               opt (seqs [spaces; ch "-"; spaces; amount; spaces; currency_code])]).

Definition salary_patterns : list re :=
  [salary_dollar; salary_code_first; salary_code_last].

(** The first pattern of a list that matches, with its match. *)
Fixpoint first_search (ps : list re) (s : text) : option mstate :=
  match ps with
  | [] => None
  | p :: rest =>
      match re_search p s with
      | Some m => Some m
      | None => first_search rest s
      end
  end.

Definition extract_salary (text_content : text) : text :=
  match first_search salary_patterns text_content with
  | Some m => group1 m
  | None => txt "Salary not specified"
  end.

(** [(?:Job|Employment) Type:?\s*([^\n\.;]+)] and
    [(Full[- ]Time|Part[- ]Time|Contract|Temporary|Freelance|Permanent|Remote)],
    under [re.IGNORECASE]. *)
Definition job_type_label : re :=
  seqs [Alt (lit_ci "Job") (lit_ci "Employment"); lit_ci " Type"; opt (ch ":");
        spaces; Group (plus (none_of (nl :: txt ".;")))].

Definition job_type_term : re :=
  Group (alts [seqs [lit_ci "Full"; one_of (txt "- "); lit_ci "Time"];
               seqs [lit_ci "Part"; one_of (txt "- "); lit_ci "Time"];
               lit_ci "Contract"; lit_ci "Temporary"; lit_ci "Freelance";
               lit_ci "Permanent"; lit_ci "Remote"]).

Definition job_type_patterns : list re := [job_type_label; job_type_term].

Definition job_type_keywords : list string :=
  ["full-time"; "part-time"; "contract"; "temporary"; "freelance";
   "permanent"; "remote"; "hybrid"]%string.

(** [\bkeyword\b] under [re.IGNORECASE]. *)
Definition whole_word (keyword : string) : re :=
  seqs [WordB; lit_ci keyword; WordB].

Fixpoint first_keyword (keywords : list string) (s : text) : option string :=
  match keywords with
  | [] => None
  | k :: rest =>
      match re_search (whole_word k) s with
      | Some _ => Some k
      | None => first_keyword rest s
      end
  end.

Definition extract_job_type (text_content : text) : text :=
  match first_search job_type_patterns text_content with
  | Some m => str_strip (group1 m)
  | None =>
      match first_keyword job_type_keywords text_content with
      | Some k => str_title (txt k)
      | None => txt "Not specified"
      end
  end.

(** [header[:\n](.*?)(?:stop1|stop2|...)] under [re.DOTALL] and
    [re.IGNORECASE]: the shape of every section pattern. *)
Definition section (header : re) (stops : list string) : re :=
  seqs [header; one_of (":"%char :: [nl]); Group (lazy_star any_char);
        alts (map lit_ci stops)].

Definition section_stops : list string :=
  ["Benefits"; "Apply"; "About Us"; "Company"]%string.

(** [[\*\-\•]\s*([^\n\*\-\•]+)] *)
Definition bullet_pattern : re :=
  seqs [one_of ("*"%char :: "-"%char :: [bullet]); spaces;
        Group (plus (none_of (nl :: "*"%char :: "-"%char :: [bullet])))].

(** The body of a labelled section as a list: its bullet points, or,
    when it has none, its lines longer than [min_len] characters. *)
Definition section_items (min_len : nat) (sec : text) : list text :=
  match re_findall bullet_pattern sec with
  | (_ :: _) as bullet_points =>
      map str_strip (filter (fun point => truthy (str_strip point)) bullet_points)
  | [] =>
      let lines := map str_strip
                     (filter (fun line => truthy (str_strip line))
                             (str_split [nl] sec)) in
      filter (fun line => min_len <? length line) lines
  end.

Definition req_patterns : list re :=
  [ section (Seq (lit_ci "Requirement") (opt (ch_ci "s"))) section_stops;
    section (Seq (lit_ci "Qualification") (opt (ch_ci "s"))) section_stops;
    section (lit_ci "Skills") section_stops ].

Definition skill_keywords : list string :=
  ["experience with"; "proficient in"; "knowledge of"; "degree in";
   "years of experience"; "background in"; "skill"; "ability to"]%string.

(** [keyword[^.]+\.] under [re.IGNORECASE]. *)
Definition sentence_from (keyword : string) : re :=
  seqs [lit_ci keyword; plus (none_of (txt ".")); ch "."].

Definition keyword_sentences (s : text) : list text :=
  flat_map (fun keyword =>
              map (fun m => str_strip (group0 m))
                  (re_finditer (sentence_from keyword) s))
           skill_keywords.

Definition section_text (ps : list re) (s : text) : option text :=
  option_map (fun m => str_strip (group1 m)) (first_search ps s).

Definition extract_job_requirements (text_content : text) : list text :=
  let requirements :=
    match section_text req_patterns text_content with
    | Some ((_ :: _) as req_section) => section_items 15 req_section
    | _ => []
    end in
  let requirements :=
    if truthy requirements then requirements
    else keyword_sentences text_content in
  firstn 10 (dedup requirements).

Definition benefit_patterns : list re :=
  [ section (lit_ci "Benefits") ["Apply"; "About Us"; "Company"]%string;
    section (lit_ci "Perks") ["Apply"; "About Us"; "Company"]%string;
    section (lit_ci "What we offer") ["Apply"; "About Us"; "Company"]%string ].

Definition benefit_keywords : list string :=
  ["health insurance"; "dental insurance"; "vision insurance"; "401k";
   "retirement"; "paid time off"; "pto"; "vacation"; "remote work";
   "flexible"; "bonus"]%string.

Definition keyword_benefits (s : text) : list text :=
  map (fun k => str_title (txt k))
      (filter (fun k => match re_search (whole_word k) s with
                        | Some _ => true
                        | None => false
                        end)
              benefit_keywords).

Definition extract_benefits (text_content : text) : list text :=
  let benefits :=
    match section_text benefit_patterns text_content with
    | Some ((_ :: _) as benefit_section) => section_items 10 benefit_section
    | _ => []
    end in
  let benefits :=
    if truthy benefits then benefits
    else keyword_benefits text_content in
  firstn 8 (dedup benefits).

(** ** Parsed markup

    What the code asks of a [BeautifulSoup] object.  A tag offers
    [get_text(strip=True)], [.text] and [.get('href')]; a tag object is
    always true in a condition.  [select_one] may raise (the selector
    [a:contains('Apply')] is not standard CSS). *)

Record tag : Type := Tag {
  get_text_strip : text;
  tag_text : text;
  tag_href : option text
}.

Record soup : Type := Soup {
  select_one : text -> outcome (option tag);
  find_title : option tag
}.

Definition description_selectors : list string :=
  ["div.job-description"; "div.description"; "#job-description";
   ".jobSectionHeader"; "[data-testid='jobDescriptionText']";
   ".description__text"]%string.

(** The text of the first selector that selects a tag. *)
Fixpoint first_selected (s : soup) (selectors : list string)
  : outcome (option text) :=
  match selectors with
  | [] => Ok None
  | selector :: rest =>
      match select_one s (txt selector) with
      | Raised => Raised
      | Ok (Some section) => Ok (Some (get_text_strip section))
      | Ok None => first_selected s rest
      end
  end.

Definition description_stops : list string :=
  ["Requirements"; "Qualifications"; "Responsibilities"]%string.

Definition description_patterns : list re :=
  [ section (Seq (Alt (lit_ci "Job") (lit_ci "Position")) (lit_ci " Description"))
            (description_stops ++ ["About"%string]);
    section (lit_ci "About the job") description_stops;
    section (lit_ci "Overview") description_stops ].

(** [description_section] starts as [None]; [None] and the empty string
    are both false, so both are the empty text here. *)
Definition extract_job_description (s : soup) (text_content : text)
  : outcome text :=
  match first_selected s description_selectors with
  | Raised => Raised
  | Ok found =>
      let description_section := dict_get found [] in
      let description_section :=
        if truthy description_section then description_section
        else dict_get (section_text description_patterns text_content)
                      description_section in
      let description_section :=
        if truthy description_section then description_section
        else firstn 500 text_content ++ txt "..." in
      Ok description_section
  end.

Definition apply_selectors : list string :=
  ["a.apply-button"; "a.job-apply"; "a[data-automation='job-detail-apply']";
   "a:contains('Apply')"; "a.btn-apply"; ".jobsearch-IndeedApplyButton"]%string.

Fixpoint first_apply_link (s : soup) (selectors : list string) : option text :=
  match selectors with
  | [] => None
  | selector :: rest =>
      match select_one s (txt selector) with
      | Ok (Some apply_button) =>
          match tag_href apply_button with
          | Some ((_ :: _) as href) => Some href
          | _ => first_apply_link s rest
          end
      | _ => first_apply_link s rest
      end
  end.

Definition extract_application_link (s : soup) (default_url : text) : text :=
  dict_get (first_apply_link s apply_selectors) default_url.

(** ** The outside world *)

Record response : Type := Response {
  status_code : Z;
  response_text : text
}.

(** One search result: a dictionary whose keys may be missing. *)
Record hit : Type := Hit {
  hit_title : option text;
  hit_href : option text;
  hit_body : option text
}.

#[local] Set Warnings "-register-all".

Inductive json : Type :=
| JNull
| JBool (b : bool)
| JInt (n : Z)
| JFloat (mantissa exponent : Z)
| JStr (s : text)
| JArr (items : list json)
| JObj (fields : list (text * json)).

Record World : Type := MkWorld {
  (** [requests.get(url, headers=..., timeout=...)] *)
  requests_get : text -> list (text * text) -> Z -> outcome response;
  (** [DDGS().text(query, max_results=...)] *)
  ddgs_text : text -> Z -> outcome (list hit);
  (** [BeautifulSoup(html, 'html.parser')] *)
  BeautifulSoup : text -> soup;
  (** [h2t.handle(html)] *)
  h2t_handle : text -> text;
  json_loads : text -> outcome json
}.

Record JobRecord : Type := MkJob {
  description : text;
  requirements : list text;
  salary : text;
  job_type : text;
  benefits : list text;
  application_link : text;
  full_text : text
}.

(** ** Search adapter *)

Record ListingStub : Type := MkListing {
  ls_title : text;
  ls_company : text;
  ls_url : text;
  ls_snippet : text;
  ls_source : text;
  ls_location : text;
  ls_full_details : option JobRecord
}.

Definition listing_of (location : text) (result : hit) : ListingStub :=
  let title := dict_get (hit_title result) [] in
  let href := dict_get (hit_href result) [] in
  let body := dict_get (hit_body result) [] in
  MkListing
    (str_strip (hd [] (str_split (txt " - ") title)))
    (extract_company_from_title title)
    href
    body
    (extract_domain href)
    (extract_location title body location)
    None.

(** The query sent to the provider. *)
Definition jobs_query (query location : text) : text :=
  let search_query := query ++ txt " jobs" in
  if truthy location then search_query ++ txt " in " ++ location
  else search_query.

(** [search_jobs]: the whole body is inside [try]; an exception of the
    provider makes the result the empty list. *)
Definition search_jobs (W : World) (query location : text) (num_results : Z)
  : list ListingStub :=
  match ddgs_text W (jobs_query query location) num_results with
  | Ok results => map (listing_of location) results
  | Raised => []
  end.

(** ** Effects of the fetch orchestrator

    A computation yields the external calls it made, in order, and either
    a value or an exception. *)

Inductive event : Type :=
| Requested (url : text) (headers : list (text * text)) (timeout : Z)
| Searched (query : text) (max_results : Z).

Definition M (A : Type) : Type := (list event * outcome A)%type.

Definition ret {A} (a : A) : M A := ([], Ok a).

Definition bind {A B} (m : M A) (f : A -> M B) : M B :=
  match m with
  | (tr, Ok a) => let (tr', r) := f a in (tr ++ tr', r)
  | (tr, Raised) => (tr, Raised)
  end.

Definition lift {A} (o : outcome A) : M A := ([], o).

(** [try: m except Exception: h] *)
Definition catch {A} (m : M A) (h : M A) : M A :=
  match m with
  | (tr, Ok a) => (tr, Ok a)
  | (tr, Raised) => let (tr', r) := h in (tr ++ tr', r)
  end.

Notation "x <- m ;; k" := (bind m (fun x => k))
  (at level 61, m at next level, right associativity).
Notation "' p <- m ;; k" := (bind m (fun x => let p := x in k))
  (at level 61, p pattern, m at next level, right associativity).

Definition http_get (W : World) (url : text) (headers : list (text * text))
           (timeout : Z) : M response :=
  ([Requested url headers timeout], requests_get W url headers timeout).

Definition search (W : World) (query : text) (max_results : Z) : M (list hit) :=
  ([Searched query max_results], ddgs_text W query max_results).

(** ** Fetch orchestrator *)

Definition user_agents : list string :=
  ["Mozilla/5.0 (Windows NT 10.0; Win64; x64) AppleWebKit/537.36 (KHTML, like Gecko) Chrome/91.0.4472.124 Safari/537.36";
   "Mozilla/5.0 (Macintosh; Intel Mac OS X 10_15_7) AppleWebKit/605.1.15 (KHTML, like Gecko) Version/15.0 Safari/605.1.15";
   "Mozilla/5.0 (X11; Linux x86_64) AppleWebKit/537.36 (KHTML, like Gecko) Chrome/92.0.4515.107 Safari/537.36";
   "Mozilla/5.0 (Windows NT 10.0; Win64; x64; rv:90.0) Gecko/20100101 Firefox/90.0"]%string.

Definition browser_headers (agent : string) : list (text * text) :=
  [ (txt "User-Agent", txt agent);
    (txt "Accept",
     txt "text/html,application/xhtml+xml,application/xml;q=0.9,image/webp,*/*;q=0.8");
    (txt "Accept-Language", txt "en-US,en;q=0.5");
    (txt "Referer", txt "https://www.google.com/");
    (txt "DNT", txt "1");
    (txt "Connection", txt "keep-alive");
    (txt "Upgrade-Insecure-Requests", txt "1");
    (txt "Cache-Control", txt "max-age=0") ].

(** The loop over [user_agents[1:]]: each identity is tried in turn and
    the loop stops at the first status 200. *)
Fixpoint rotate_agents (W : World) (url : text) (agents : list string)
         (current : response) : M response :=
  match agents with
  | [] => ret current
  | agent :: rest =>
      r <- http_get W url (browser_headers agent) 15 ;;
      if (status_code r =? 200)%Z then ret r
      else rotate_agents W url rest r
  end.

(** [response.raise_for_status()] *)
Definition raise_for_status (r : response) : M unit :=
  if (400 <=? status_code r)%Z && (status_code r <? 600)%Z
  then lift Raised else ret tt.

Definition fetch_page (W : World) (url : text) : M response :=
  first <- http_get W url (browser_headers (hd ""%string user_agents)) 15 ;;
  r <- (if (status_code first =? 200)%Z then ret first
        else rotate_agents W url (tl user_agents) first) ;;
  _ <- raise_for_status r ;;
  ret r.

(** The job title and company read off the page's [<title>]. *)
Definition page_title_parts (s : soup) : text * text :=
  match find_title s with
  | Some title_tag =>
      if truthy (tag_text title_tag) then
        match str_split (txt " - ") (tag_text title_tag) with
        | [] => ([], [])
        | [first] => (str_strip first, [])
        | first :: second :: _ => (str_strip first, str_strip second)
        end
      else ([], [])
  | None => ([], [])
  end.

(** The body of the loop over the alternate results, up to its [break]:
    the new description and requirements, and whether the loop breaks.
    An exception can only occur before either variable is assigned. *)
Definition try_alternate (W : World) (result : hit)
           (description : text) (requirements : list text)
  : M (text * list text * bool) :=
  let alt_url := dict_get (hit_href result) [] in
  let alt_headers := [(txt "User-Agent", txt (nth 2 user_agents ""%string))] in
  alt_response <- http_get W alt_url alt_headers 10 ;;
  if (status_code alt_response =? 200)%Z then
    let alt_soup := BeautifulSoup W (response_text alt_response) in
    let alt_text := h2t_handle W (response_text alt_response) in
    description <- (if truthy description then ret description
                    else lift (extract_job_description alt_soup alt_text)) ;;
    let requirements :=
      if truthy requirements then requirements
      else extract_job_requirements alt_text in
    ret (description, requirements, truthy description && truthy requirements)
  else ret (description, requirements, false).

(** [for result in alt_results: try: ... except Exception: continue] *)
Fixpoint alternate_sources (W : World) (alt_results : list hit)
         (description : text) (requirements : list text)
  : M (text * list text) :=
  match alt_results with
  | [] => ret (description, requirements)
  | result :: rest =>
      match try_alternate W result description requirements with
      | (tr, Ok (d, q, true)) => (tr, Ok (d, q))
      | (tr, Ok (d, q, false)) =>
          let (tr', r) := alternate_sources W rest d q in (tr ++ tr', r)
      | (tr, Raised) =>
          let (tr', r) := alternate_sources W rest description requirements in
          (tr ++ tr', r)
      end
  end.

(** Lines 174-226: the secondary recovery. *)
Definition secondary_recovery (W : World) (s : soup)
           (description : text) (requirements : list text)
  : M (text * list text) :=
  if negb (truthy description) || negb (truthy requirements) then
    let (title, company) := page_title_parts s in
    if truthy title then
      let search_query := title ++ txt " job description" in
      let search_query :=
        if truthy company then search_query ++ txt " " ++ company
        else search_query in
      catch (alt_results <- search W search_query 3 ;;
             alternate_sources W alt_results description requirements)
            (ret (description, requirements))
    else ret (description, requirements)
  else ret (description, requirements).

(** [url.split('/')[-1].replace('-', ' ').title()] *)
Definition title_of_url (url : text) : text :=
  str_title (str_replace "-"%char " "%char (last (str_split (txt "/") url) [])).

Definition synthesized_description (url : text) : text :=
  txt "This job listing is for a " ++ title_of_url url
  ++ txt " position. The full job details and requirements can be accessed on the original job posting.".

Definition requirement_keywords : list string :=
  ["required"; "qualification"; "skill"; "experience"; "knowledge";
   "proficiency"; "ability"; "competency"; "education"; "degree"]%string.

(** [(?:^|\n|\s)(keyword[^\.;:]*(?:\.|\n|$))] under [re.IGNORECASE]. *)
Definition requirement_pattern (keyword : string) : re :=
  seqs [alts [Bol; Chr (Ascii.eqb nl); space];
        Group (seqs [lit_ci keyword; star (none_of (txt ".;:"));
                     alts [ch "."; Chr (Ascii.eqb nl); Eol]])].

Definition potential_requirements (text_content : text) : list text :=
  flat_map (fun keyword =>
              filter (fun req => 10 <? length req)
                     (map (fun m => str_strip (group1 m))
                          (re_finditer (requirement_pattern keyword) text_content)))
           requirement_keywords.

Definition generic_requirements (url : text) : list text :=
  [ txt "Relevant experience in " ++ title_of_url url ++ txt " or related field";
    txt "Strong communication skills";
    txt "Problem-solving abilities";
    txt "Ability to work effectively in a team" ].

(** Lines 233-260: the requirements used when none were extracted. *)
Definition fallback_requirements (url text_content : text) : list text :=
  match potential_requirements text_content with
  | (_ :: _) as potential => firstn 10 potential
  | [] => generic_requirements url
  end.

(** The description and the requirements as they stand after the
    secondary recovery, before the last fallbacks. *)
Definition extract_and_recover (W : World) (s : soup) (text_content : text)
  : M (text * list text) :=
  description <- lift (extract_job_description s text_content) ;;
  secondary_recovery W s description (extract_job_requirements text_content).

(** The body of the [try] of [get_job_details]. *)
Definition get_job_details_try (W : World) (url : text) : M JobRecord :=
  r <- fetch_page W url ;;
  let s := BeautifulSoup W (response_text r) in
  let text_content := h2t_handle W (response_text r) in
  dr <- extract_and_recover W s text_content ;;
  let description :=
    if truthy (fst dr) then fst dr else synthesized_description url in
  let requirements :=
    if truthy (snd dr) then snd dr else fallback_requirements url text_content in
  ret (MkJob description requirements
             (extract_salary text_content)
             (extract_job_type text_content)
             (extract_benefits text_content)
             (extract_application_link s url)
             (firstn 5000 text_content)).

(** The record of the [except] branch. *)
Definition placeholder_record (url : text) : JobRecord :=
  let job_title := title_of_url url in
  MkJob
    (txt "This is a job listing for a " ++ job_title
     ++ txt " position. The original job posting contains more detailed information.")
    [ txt "Experience with " ++ job_title ++ txt " or similar roles";
      txt "Relevant skills and qualifications";
      txt "Education requirements as specified in the job posting";
      txt "Communication and teamwork skills" ]
    (txt "Please refer to the original job listing for salary information")
    (txt "Full-time (refer to original listing for confirmation)")
    [ txt "Visit the original job listing for complete benefits information" ]
    url
    (txt "This is a simplified version of the job listing. Please visit the original posting at "
     ++ url ++ txt " for complete details.").

(** [get_job_details]: the external calls made, and the record returned.
    The function has no other result: an exception of the [try] body is
    turned into the placeholder record. *)
Definition get_job_details (W : World) (url : text) : list event * JobRecord :=
  match get_job_details_try W url with
  | (tr, Ok job_details) => (tr, job_details)
  | (tr, Raised) => (tr, placeholder_record url)
  end.

(** ** Fit scorer *)

Definition quoted (s : string) : text := dquote :: txt s ++ [dquote].

Definition prompt_indent : text := txt "        ".

(** The f-string of [analyze_job_fit]. *)
Definition build_prompt (job_description requirements_text resume_text : text)
  : text :=
  let lines :=
    [ txt "You are an expert career advisor and job match analyzer. Compare the candidate's resume with the job details below.";
      [];
      txt "JOB DESCRIPTION:";
      job_description;
      [];
      txt "JOB REQUIREMENTS:";
      requirements_text;
      [];
      txt "CANDIDATE RESUME:";
      resume_text;
      [];
      txt "Please analyze how well the candidate's resume matches this job and provide:";
      txt "1. A match percentage (0-100%)";
      txt "2. Key matching qualifications the candidate has";
      txt "3. Important missing qualifications or experience";
      txt "4. Suggestions for how the candidate could improve their resume for this specific role";
      txt "5. 3-5 specific skills the candidate should develop to be a stronger match";
      [];
      txt "Format your response as a JSON object with the following keys:";
      txt "- " ++ quoted "match_percentage" ++ txt ": a number from 0-100";
      txt "- " ++ quoted "matching_qualifications" ++ txt ": a list of strings";
      txt "- " ++ quoted "missing_qualifications" ++ txt ": a list of strings";
      txt "- " ++ quoted "resume_improvement_tips" ++ txt ": a list of strings";
      txt "- " ++ quoted "skills_to_develop" ++ txt ": a list of strings";
      [] ] in
  nl :: str_join [nl] (map (app prompt_indent) lines).

(** [```json\s*(.*?)\s*```] under [re.DOTALL]. *)
Definition fenced_json : re :=
  seqs [lit "```json"; spaces; Group (lazy_star any_char); spaces; lit "```"].

(** [{[\s\S]*}] *)
Definition braces : re := seqs [ch "{"; star any_char; ch "}"].

Definition analysis (percentage : Z) (a b c d : string) : json :=
  JObj [ (txt "match_percentage", JInt percentage);
         (txt "matching_qualifications", JArr [JStr (txt a)]);
         (txt "missing_qualifications", JArr [JStr (txt b)]);
         (txt "resume_improvement_tips", JArr [JStr (txt c)]);
         (txt "skills_to_develop", JArr [JStr (txt d)]) ].

(** The object used when the reply holds nothing to parse. *)
Definition parse_fallback : json :=
  analysis 50 "Unable to parse LLM response" "Unable to parse LLM response"
           "Unable to parse LLM response" "Unable to parse LLM response".

(** The object of the [except] branch. *)
Definition error_fallback : json :=
  analysis 0 "Error in analysis" "Error in analysis"
           "Unable to complete analysis" "Unable to complete analysis".

(** The text handed to [json.loads], if the reply has any. *)
Definition json_candidate (content : text) : option text :=
  match re_search fenced_json content with
  | Some json_match => Some (group1 json_match)
  | None =>
      match re_search braces content with
      | Some json_match => Some (group0 json_match)
      | None => None
      end
  end.

(** The prompt of [analyze_job_fit]. *)
Definition fit_prompt (job_details : JobRecord) (resume_text : text) : text :=
  let job_description := description job_details in
  let job_requirements := requirements job_details in
  let requirements_text :=
    str_join [nl] (map (fun req => txt "- " ++ req) job_requirements) in
  build_prompt job_description requirements_text resume_text.

(** The body of the [try] of [analyze_job_fit]; [llm] maps a prompt to
    the content of the reply, or raises. *)
Definition analyze_job_fit_try (W : World) (job_details : JobRecord)
           (resume_text : text) (llm : text -> outcome text) : outcome json :=
  match llm (fit_prompt job_details resume_text) with
  | Raised => Raised
  | Ok content =>
      match json_candidate content with
      | Some candidate => json_loads W candidate
      | None => Ok parse_fallback
      end
  end.

Definition analyze_job_fit (W : World) (job_details : JobRecord)
           (resume_text : text) (llm : text -> outcome text) : json :=
  match analyze_job_fit_try W job_details resume_text llm with
  | Ok analysis_json => analysis_json
  | Raised => error_fallback
  end.

(** [d[key]] on a parsed object, whose fields are the items of the
    dictionary. *)
Fixpoint assoc (key : text) (fields : list (text * json)) : option json :=
  match fields with
  | [] => None
  | (k, v) :: rest => if text_eqb k key then Some v else assoc key rest
  end.

Definition field (key : string) (v : json) : option json :=
  match v with
  | JObj fields => assoc (txt key) fields
  | _ => None
  end.

Definition match_percentage (v : json) : option json := field "match_percentage" v.

(** ** Course suggestions *)

(** The f-string of [suggest_courses_for_skills]. *)
Definition course_prompt (skills_to_develop : list text) : text :=
  let skills_text :=
    str_join [nl] (map (fun skill => txt "- " ++ skill) skills_to_develop) in
  let lines :=
    [ txt "You are an expert in career development and education. Based on the skills below that a job candidate needs to develop,";
      txt "suggest specific courses, certifications, or resources for each skill.";
      [];
      txt "SKILLS TO DEVELOP:";
      skills_text;
      [];
      txt "For each skill, provide:";
      txt "1. A specific course, certification, or resource name";
      txt "2. The platform or provider (e.g., Coursera, Udemy, LinkedIn Learning, etc.)";
      txt "3. Why this resource is good for developing this skill";
      [];
      txt "Format your response as a JSON array with objects containing:";
      txt "- " ++ quoted "skill" ++ txt ": the skill name";
      txt "- " ++ quoted "course_name" ++ txt ": name of recommended course/certification";
      txt "- " ++ quoted "platform" ++ txt ": where to find the course";
      txt "- " ++ quoted "reason" ++ txt ": brief explanation of why this is recommended";
      [];
      txt "Return ONLY a valid JSON response.";
      [] ] in
  nl :: str_join [nl] (map (app prompt_indent) lines).

(** [\[\s*{[\s\S]*}\s*\]] *)
Definition json_array : re :=
  seqs [ch "["; spaces; ch "{"; star any_char; ch "}"; spaces; ch "]"].

Definition suggestion (skill : text) (course_name platform reason : string) : json :=
  JArr [ JObj [ (txt "skill", JStr skill);
                (txt "course_name", JStr (txt course_name));
                (txt "platform", JStr (txt platform));
                (txt "reason", JStr (txt reason)) ] ].

(** The list used when the reply holds nothing to parse; its skill is
    [skills_to_develop[0] if skills_to_develop else "Professional Skills"]. *)
Definition course_parse_fallback (skills_to_develop : list text) : json :=
  suggestion (match skills_to_develop with
              | first :: _ => first
              | [] => txt "Professional Skills"
              end)
             "Error retrieving course suggestions"
             "Multiple platforms available"
             "Please try again or search for courses related to these skills online".

(** The list of the [except] branch. *)
Definition course_error_fallback : json :=
  suggestion (txt "Error Analysis") "Error retrieving course suggestions"
             "N/A" "An error occurred during analysis".

(** The text handed to [json.loads] by [suggest_courses_for_skills]. *)
Definition course_candidate (content : text) : option text :=
  match re_search fenced_json content with
  | Some json_match => Some (group1 json_match)
  | None =>
      match re_search json_array content with
      | Some json_match => Some (group0 json_match)
      | None => None
      end
  end.

Definition suggest_courses_for_skills (W : World) (skills_to_develop : list text)
           (llm : text -> outcome text) : json :=
  match llm (course_prompt skills_to_develop) with
  | Raised => course_error_fallback
  | Ok content =>
      match course_candidate content with
      | Some candidate =>
          match json_loads W candidate with
          | Ok suggestions => suggestions
          | Raised => course_error_fallback
          end
      | None => course_parse_fallback skills_to_develop
      end
  end.

(** * Vocabulary of the properties *)

Fixpoint starts_with_ci (p s : text) : bool :=
  match p, s with
  | [], _ => true
  | x :: p', y :: s' => eq_ci x y && starts_with_ci p' s'
  | _ :: _, [] => false
  end.

(** [sub] occurs in [s], letter case ignored. *)
Fixpoint contains_ci (sub s : text) : bool :=
  starts_with_ci sub s
  || match s with
     | [] => false
     | _ :: t => contains_ci sub t
     end.

(** One of the words occurs in [s], letter case ignored. *)
Definition mentions (words : list string) (s : text) : bool :=
  existsb (fun w => contains_ci (txt w) s) words.

Inductive star_lang (L : text -> Prop) : text -> Prop :=
| star_nil : star_lang L []
| star_more u v : L u -> star_lang L v -> star_lang L (u ++ v).

(** The words a pattern can match; the anchors match the empty word. *)
Fixpoint denote (r : re) (w : text) : Prop :=
  match r with
  | Eps | Bol | Eol | WordB => w = []
  | Chr p => exists c, w = [c] /\ p c = true
  | Seq a b => exists u v, w = u ++ v /\ denote a u /\ denote b v
  | Alt a b => denote a w \/ denote b w
  | Star _ a => star_lang (denote a) w
  | Group a => denote a w
  end.

Fixpoint nogroup (r : re) : bool :=
  match r with
  | Seq a b | Alt a b => nogroup a && nogroup b
  | Star _ a => nogroup a
  | Group _ => false
  | _ => true
  end.

(** [st'] is [st] moved forward over the word [w]. *)
Definition moved (w : text) (st st' : mstate) : Prop :=
  m_rest st = w ++ m_rest st'
  /\ m_pre st' = rev w ++ m_pre st
  /\ m_g0 st' = rev w ++ m_g0 st.

(** ... and the capture group was left as it was, open or closed. *)
Definition kept (w : text) (st st' : mstate) : Prop :=
  m_open st' = m_open st
  /\ m_g1 st' = if m_open st then rev w ++ m_g1 st else m_g1 st.

Definition sound (m : matcher) (L : text -> Prop) (captures : bool) : Prop :=
  forall st k x, m st k = Some x ->
    exists w st', L w /\ moved w st st'
                  /\ (captures = false -> kept w st st')
                  /\ k st' = Some x.

Definition currency_codes : list string := ["USD"; "EUR"; "GBP"; "AUD"; "CAD"]%string.

(** The currency markers of the salary patterns: the dollar sign and the
    five currency codes, in any letter case. *)
Definition currency_markers : list string := "$"%string :: currency_codes.

(** The labels that [job_type_label] looks for, and the job-type terms
    of [job_type_term], spelled out. *)
Definition job_type_labels : list string := ["job type"; "employment type"]%string.

Definition job_type_terms : list string :=
  ["full-time"; "full time"; "part-time"; "part time"; "contract";
   "temporary"; "freelance"; "permanent"; "remote"]%string.

(** Every word that [extract_job_type] reacts to when there is no
    label. *)
Definition job_type_words : list string := job_type_terms ++ ["hybrid"%string].

(** One of the words starts at the head of [s], letter case ignored. *)
Definition starts_any (words : list string) (s : text) : bool :=
  existsb (fun w => starts_with_ci (txt w) s) words.

(** The first position of [s] at which one of the words starts. *)
Fixpoint first_mention_from (words : list string) (s : text) (i : nat)
  : option nat :=
  if starts_any words s then Some i
  else match s with
       | [] => None
       | _ :: t => first_mention_from words t (S i)
       end.

Definition first_mention (words : list string) (s : text) : option nat :=
  first_mention_from words s 0.

(** [w] occurs in [s] as a word of its own: no word character touches
    it on either side. *)
Fixpoint has_word_from (w : text) (after_word_char : bool) (s : text) : bool :=
  (negb after_word_char && starts_with w s
   && negb (match skipn (length w) s with c :: _ => is_word c | [] => false end))
  || match s with
     | [] => false
     | c :: t => has_word_from w (is_word c) t
     end.

Definition has_word (w s : text) : bool := has_word_from w false s.

(** The separator of titles. *)
Definition title_sep : text := txt " - ".

(** The segment of a title between its first [" - "] and the next one
    (or the end), if the title has a [" - "] at all. *)
Definition second_segment (title : text) : option text :=
  match str_find title_sep title with
  | None => None
  | Some i =>
      let after := skipn (i + 3) title in
      Some (match str_find title_sep after with
            | Some j => firstn j after
            | None => after
            end)
  end.

(** Following the specification's words: the trailing segment of a
    title, which is what comes after its last [" - "]. *)
Fixpoint trailing_segment_go (s best : text) : text :=
  match s with
  | [] => best
  | _ :: t =>
      trailing_segment_go t (if starts_with title_sep s then skipn 3 s else best)
  end.

Definition trailing_segment (title : text) : text :=
  trailing_segment_go title title.

(** The provider keeps to the limit it is given. *)
Definition provider_respects_limit (W : World) : Prop :=
  forall query limit results,
    (0 <= limit)%Z ->
    ddgs_text W query limit = Ok results ->
    (Z.of_nat (length results) <= limit)%Z.

(** A provider with two results on record, which hands out as many of
    them as the limit allows and fails on an empty query. *)
Definition sample_provider (query : text) (limit : Z) : outcome (list hit) :=
  if truthy query then
    Ok (firstn (Z.to_nat limit)
          [ Hit (Some (txt "Data Scientist - Acme Corp - LinkedIn"))
                (Some (txt "https://www.linkedin.com/jobs/view/1"))
                (Some (txt "Acme Corp is hiring. Location: Berlin. Apply now"));
            Hit (Some (txt "Data Scientist")) None None ])
  else Raised.

Definition no_soup : soup := Soup (fun _ => Ok None) None.

Definition sample_world : World :=
  MkWorld (fun _ _ _ => Raised) sample_provider (fun _ => no_soup)
          (fun html => html) (fun _ => Raised).

(** A site that answers every request with status 200 and one page:
    [page_text] is what html2text makes of the page, [page_title] the
    text of its [<title>], if it has one; no selector selects anything,
    and the search provider finds nothing. *)
Definition static_site (html page_text : text) (page_title : option text) : World :=
  MkWorld (fun _ _ _ => Ok (Response 200 html))
          (fun _ _ => Ok [])
          (fun _ => Soup (fun _ => Ok None)
                         (option_map (fun t => Tag t t None) page_title))
          (fun _ => page_text)
          (fun _ => Raised).

(** Every field of the record holds something, and the text snapshot has
    at most 5000 characters. *)
Definition all_fields_populated (r : JobRecord) : bool :=
  truthy (description r) && truthy (requirements r) && truthy (salary r)
  && truthy (job_type r) && truthy (benefits r)
  && truthy (application_link r) && truthy (full_text r)
  && (length (full_text r) <=? 5000).

(** A search was issued. *)
Definition searched (tr : list event) : bool :=
  existsb (fun e => match e with Searched _ _ => true | _ => false end) tr.

(** The number of pages requested. *)
Definition requests (tr : list event) : nat :=
  length (filter (fun e => match e with Requested _ _ _ => true | _ => false end) tr).

(** The query of the secondary recovery. *)
Definition recovery_query (s : soup) : text :=
  let (title, company) := page_title_parts s in
  title ++ txt " job description"
  ++ (if truthy company then txt " " ++ company else []).

(** The page text of a posting that states one requirement twice. *)
Definition repeated_requirement_text : text :=
  txt "Python required for this role." ++ [nl; nl]
  ++ txt "Python required for this role." ++ [nl; nl].

Definition repeated_requirement_site : World :=
  static_site
    (txt "<p>Python required for this role.</p><p>Python required for this role.</p>")
    repeated_requirement_text None.

(** A page with a title and no requirement in its text. *)
Definition titled_site : World :=
  static_site
    (txt "<html><head><title>Data Engineer - Acme</title></head><body><p>We are hiring.</p></body></html>")
    (txt "We are hiring.") (Some (txt "Data Engineer - Acme")).

(** [st] moved forward over the word [w], which has to be a prefix of
    what lies ahead. *)
Fixpoint consume (w : text) (st : mstate) : mstate :=
  match w with
  | [] => st
  | c :: w' => consume w' (advance c (tl (m_rest st)) st)
  end.

(** A greedy repetition of one character class followed by [k]: the
    longest run first. *)
Fixpoint greedy_from (p : ascii -> bool) (k : mstate -> option mstate)
         (rest : text) (st : mstate) : option mstate :=
  match rest with
  | c :: t =>
      if p c then
        match greedy_from p k t (advance c t st) with
        | Some x => Some x
        | None => k st
        end
      else k st
  | [] => k st
  end.

(** A lazy repetition of any character followed by [k]: the shortest run
    first. *)
Fixpoint lazy_from (k : mstate -> option mstate) (rest : text) (st : mstate)
  : option mstate :=
  match k st with
  | Some x => Some x
  | None =>
      match rest with
      | c :: t => lazy_from k t (advance c t st)
      | [] => None
      end
  end.

(** The leading whitespace of a text. *)
Fixpoint leading_space (s : text) : text :=
  match s with
  | c :: t => if is_space c then c :: leading_space t else []
  | [] => []
  end.

Definition fence_open : text := txt "```json".
Definition fence_close : text := txt "```".

(** The contents of the first fenced JSON block of a reply: what stands
    between the first [```json] and the next [```], stripped. *)
Definition fenced_contents (content : text) : option text :=
  match str_find fence_open content with
  | None => None
  | Some i =>
      let after := skipn (i + 7) content in
      match str_find fence_close after with
      | None => None
      | Some j => Some (str_strip (firstn j after))
      end
  end.

(** The shortest prefix of [s] after which only whitespace separates
    from a closing fence. *)
Fixpoint before_close (s : text) : option text :=
  if starts_with fence_close (lstrip s) then Some []
  else match s with
       | c :: t => option_map (cons c) (before_close t)
       | [] => None
       end.

(** The reply has an opening brace with a closing brace after it. *)
Definition has_braces (content : text) : bool :=
  match str_find (txt "{") content with
  | Some i => str_contains (txt "}") (skipn (i + 1) content)
  | None => false
  end.

(** A [json.loads] given by a table: the listed texts parse to the
    listed values, surrounding whitespace ignored; everything else
    raises. *)
Definition json_loads_of (table : list (text * json)) (s : text) : outcome json :=
  match assoc (str_strip s) table with
  | Some v => Ok v
  | None => Raised
  end.

(** A world for the fit scorer, in which only [json.loads] matters. *)
Definition scorer_world (table : list (text * json)) : World :=
  MkWorld (fun _ _ _ => Raised) (fun _ _ => Raised) (fun _ => no_soup)
          (fun html => html) (json_loads_of table).

(** A reply that is one fenced block; its JSON holds three backquotes
    inside a string. *)
Definition tip_body : text :=
  txt "{" ++ quoted "match_percentage" ++ txt ": 70, "
  ++ quoted "resume_improvement_tips" ++ txt ": ["
  ++ quoted "Wrap code samples in ``` fences" ++ txt "]}".

Definition tip_reply : text := fence_open ++ [nl] ++ tip_body ++ [nl] ++ fence_close.

Definition tip_analysis : json :=
  JObj [ (txt "match_percentage", JInt 70);
         (txt "resume_improvement_tips",
          JArr [JStr (txt "Wrap code samples in ``` fences")]) ].

(** A well-formed fenced reply and its value. *)
Definition good_body : text := txt "{" ++ quoted "match_percentage" ++ txt ": 85}".
Definition good_reply : text :=
  txt "Here is the analysis:" ++ [nl] ++ fence_open ++ [nl] ++ good_body
  ++ [nl] ++ fence_close ++ [nl].
Definition good_analysis : json := JObj [(txt "match_percentage", JInt 85)].

(** A bare JSON reply with a percentage beyond 100. *)
Definition eager_body : text := txt "{" ++ quoted "match_percentage" ++ txt ": 150}".
Definition eager_analysis : json := JObj [(txt "match_percentage", JInt 150)].

(** The percentage of an analysis is an integer from 0 to 100. *)
Definition percentage_in_range (v : json) : bool :=
  match match_percentage v with
  | Some (JInt n) => (0 <=? n)%Z && (n <=? 100)%Z
  | _ => false
  end.

(** The request of the page at [url] under one browser identity. *)
Definition page_request (url : text) (agent : string) : event :=
  Requested url (browser_headers agent) 15.

(** The number of searches issued. *)
Definition searches (tr : list event) : nat :=
  length (filter (fun e => match e with Searched _ _ => true | _ => false end) tr).

(** An HTTP status on which [raise_for_status] raises. *)
Definition error_status (status : Z) : bool :=
  (400 <=? status)%Z && (status <? 600)%Z.

(** A site that answers every request with status 403. *)
Definition forbidden_site : World :=
  MkWorld (fun _ _ _ => Ok (Response 403 (txt "Forbidden")))
          (fun _ _ => Ok []) (fun _ => no_soup) (fun html => html)
          (fun _ => Raised).

(** The non-empty [href] that the result of a selection offers, if
    any: nothing when the selection raised, selected no tag, or selected
    a tag without [href] or with an empty one. *)
Definition usable_href (selection : outcome (option tag)) : option text :=
  match selection with
  | Ok (Some apply_button) =>
      match tag_href apply_button with
      | Some ((_ :: _) as href) => Some href
      | _ => None
      end
  | _ => None
  end.

(** A page with an apply button under the second selector only. *)
Definition apply_soup : soup :=
  Soup (fun selector =>
          if text_eqb selector (txt "a.job-apply")
          then Ok (Some (Tag (txt "Apply now") (txt "Apply now")
                             (Some (txt "https://example.com/apply/42"))))
          else if text_eqb selector (txt "a:contains('Apply')") then Raised
          else Ok None)
       None.

(** The words the snippet patterns of [extract_location] look for. *)
Definition location_words : list string :=
  ["location"; "remote"; "hybrid"; "on-site"]%string.

(** The body of the capture group of a pattern that ends with its
    group, nothing before the group capturing. *)
Fixpoint final_group (r : re) : option re :=
  match r with
  | Group b => if nogroup b then Some b else None
  | Seq a r' => if nogroup a then final_group r' else None
  | _ => None
  end.

(** A URL with or without the [s] of [https] and with or without a
    leading [www.]. *)
Definition url_of (secure www : bool) (host rest : text) : text :=
  txt "http" ++ (if secure then txt "s" else []) ++ txt "://"
  ++ (if www then txt "www." else []) ++ host ++ rest.

Definition not_slash (c : ascii) : bool := negb (Ascii.eqb c "/"%char).

(** The longest prefix of [s] whose characters satisfy [p]. *)
Fixpoint leading (p : ascii -> bool) (s : text) : text :=
  match s with
  | c :: t => if p c then c :: leading p t else []
  | [] => []
  end.

(** The headers that open a benefits section, and those that open a
    description in the page text. *)
Definition benefit_headers : list string :=
  ["Benefits"; "Perks"; "What we offer"]%string.

Definition description_headers : list string :=
  [" Description"; "About the job"; "Overview"]%string.

(** The longest prefix of [s] that ends with the character [c]. *)
Fixpoint upto_last (c : ascii) (s : text) : option text :=
  match s with
  | [] => None
  | x :: t =>
      match upto_last c t with
      | Some u => Some (x :: u)
      | None => if Ascii.eqb x c then Some [x] else None
      end
  end.

(** The span of a reply from its first ["{"] to its last ["}"]. *)
Definition brace_span (content : text) : option text :=
  match str_find (txt "{") content with
  | None => None
  | Some i =>
      option_map (cons "{"%char) (upto_last "}"%char (skipn (i + 1) content))
  end.

(** The headers that open a requirements section. *)
Definition requirement_headers : list string :=
  ["Requirement"; "Qualification"; "Skills"]%string.

(** A sentence that opens with [keyword], letter case ignored: the
    keyword, then at least one character and no full stop, then a full
    stop. *)
Definition keyword_sentence (keyword : string) (w : text) : Prop :=
  exists head body,
    w = head ++ body ++ txt "."
    /\ length head = length (txt keyword)
    /\ starts_with_ci (txt keyword) head = true
    /\ body <> []
    /\ forallb (fun c => negb (Ascii.eqb c "."%char)) body = true.

(** The request for the page of an alternate source: the third browser
    identity as its only header, and a 10-second timeout. *)
Definition alternate_request (result : hit) : event :=
  Requested (dict_get (hit_href result) [])
            [(txt "User-Agent", txt (nth 2 user_agents ""%string))] 10.

(** The calls of a secondary recovery: none, or a search limited to
    three results that fails, or such a search followed by requests for
    a leading part of its results, in their order. *)
Inductive recovery_calls (W : World) : list event -> Prop :=
| no_recovery : recovery_calls W []
| failed_search query :
    ddgs_text W query 3 = Raised -> recovery_calls W [Searched query 3]
| alternates query results m :
    ddgs_text W query 3 = Ok results ->
    recovery_calls W (Searched query 3
                      :: map alternate_request (firstn m results)).

(** The characters that end a bullet point. *)
Definition bullet_stops : text := nl :: "*"%char :: "-"%char :: [bullet].

Definition free_of (stops : text) (s : text) : bool :=
  forallb (fun c => negb (existsb (Ascii.eqb c) stops)) s.

(** [w] occurs in [s] as a word of its own, letter case ignored. *)
Fixpoint has_word_ci_from (w : text) (after_word_char : bool) (s : text) : bool :=
  (negb after_word_char && starts_with_ci w s
   && negb (match skipn (length w) s with c :: _ => is_word c | [] => false end))
  || match s with
     | [] => false
     | c :: t => has_word_ci_from w (is_word c) t
     end.

Definition has_word_ci (w s : text) : bool := has_word_ci_from w false s.

(** The text shows a currency marker to a reader: a dollar sign, or one
    of the currency codes as a word of its own, in any letter case. *)
Definition shows_currency (s : text) : bool :=
  str_contains (txt "$") s
  || existsb (fun code => has_word_ci (txt code) s) currency_codes.

(** The text shows a job-type word to a reader: one of the words that
    [extract_job_type] reacts to, as a word of its own, in any letter
    case. *)
Definition shows_job_type (s : text) : bool :=
  existsb (fun w => has_word_ci (txt w) s) job_type_words.

(** A provider that answers every query with the same three results,
    whatever limit it is given. *)
Definition three_hits : list hit :=
  [ Hit (Some (txt "Data Scientist - Acme Corp"))
        (Some (txt "https://www.linkedin.com/jobs/view/1")) (Some (txt "Berlin"));
    Hit (Some (txt "Data Scientist - Initech"))
        (Some (txt "https://www.indeed.com/viewjob?jk=2")) (Some (txt "Remote"));
    Hit (Some (txt "Data Scientist - Globex"))
        (Some (txt "https://www.glassdoor.com/job/3")) (Some (txt "Hybrid")) ].

Definition generous_world : World :=
  MkWorld (fun _ _ _ => Raised) (fun _ _ => Ok three_hits) (fun _ => no_soup)
          (fun html => html) (fun _ => Raised).

(** * Properties *)

(** ** Characters and text *)

Lemma contains_ci_app sub a b :
  starts_with_ci sub b = true -> contains_ci sub (a ++ b) = true.
Proof.
  intros H. induction a as [|c a IH]; simpl.
  - destruct b; simpl in *; rewrite H; reflexivity.
  - rewrite IH. apply orb_true_r.
Qed.

Lemma starts_with_ci_app p s t :
  starts_with_ci p s = true -> starts_with_ci p (s ++ t) = true.
Proof.
  revert s. induction p as [|x p IH]; intros [|y s]; simpl; auto; try discriminate.
  intros H. apply andb_true_iff in H as [H1 H2]. rewrite H1. simpl. auto.
Qed.

Lemma mentions_false words w s :
  mentions words s = false -> In w words -> contains_ci (txt w) s = false.
Proof.
  unfold mentions. intros H Hin.
  destruct (contains_ci (txt w) s) eqn:E; [|reflexivity].
  assert (existsb (fun w => contains_ci (txt w) s) words = true)
    by (apply existsb_exists; exists w; auto).
  congruence.
Qed.

Lemma truthy_true {A} (l : list A) : truthy l = true <-> l <> [].
Proof. destruct l; simpl; split; intros; congruence. Qed.

Lemma truthy_false {A} (l : list A) : truthy l = false <-> l = [].
Proof. destruct l; simpl; split; intros; congruence. Qed.

(** ** The matcher is sound for the language of the pattern *)

Lemma moved_nil st : moved [] st st.
Proof. repeat split. Qed.

Lemma kept_nil st : kept [] st st.
Proof. split; [reflexivity|]. destruct (m_open st); reflexivity. Qed.

Lemma moved_trans u v st1 st2 st3 :
  moved u st1 st2 -> moved v st2 st3 -> moved (u ++ v) st1 st3.
Proof.
  intros (A1 & A2 & A3) (B1 & B2 & B3). repeat split.
  - rewrite A1, B1, app_assoc. reflexivity.
  - rewrite B2, A2, rev_app_distr, app_assoc. reflexivity.
  - rewrite B3, A3, rev_app_distr, app_assoc. reflexivity.
Qed.

Lemma kept_trans u v st1 st2 st3 :
  kept u st1 st2 -> kept v st2 st3 -> kept (u ++ v) st1 st3.
Proof.
  intros (A1 & A2) (B1 & B2). split.
  - congruence.
  - rewrite B2, A1, A2. destruct (m_open st1); [|reflexivity].
    rewrite rev_app_distr, app_assoc. reflexivity.
Qed.

Lemma moved_advance c t st :
  m_rest st = c :: t -> moved [c] st (advance c t st).
Proof. intros H. repeat split. simpl. exact H. Qed.

Lemma kept_advance c t st : kept [c] st (advance c t st).
Proof. split; simpl; [reflexivity|]. destruct (m_open st); reflexivity. Qed.

Lemma star_loop_sound m L cap g fuel :
  sound m L cap -> sound (star_loop m g fuel) (star_lang L) cap.
Proof.
  intros Hm. induction fuel as [|f IH]; intros st k x H; simpl in H.
  - exists [], st. auto using star_nil, moved_nil, kept_nil.
  - assert (Hmore : forall y,
              m st (fun st' =>
                if length (m_rest st') <? length (m_rest st)
                then star_loop m g f st' k else None) = Some y ->
              exists w st', star_lang L w /\ moved w st st'
                            /\ (cap = false -> kept w st st') /\ k st' = Some y).
    { intros y H1. apply Hm in H1 as (u & st1 & Lu & M1 & K1 & H1).
      destruct (length (m_rest st1) <? length (m_rest st)); [|discriminate].
      apply IH in H1 as (v & st2 & Lv & M2 & K2 & H2).
      exists (u ++ v), st2. split; [|split; [|split]].
      - apply star_more; assumption.
      - eapply moved_trans; eassumption.
      - intros E. eapply kept_trans; eauto.
      - assumption. }
    assert (Hstop : forall y, k st = Some y ->
              exists w st', star_lang L w /\ moved w st st'
                            /\ (cap = false -> kept w st st') /\ k st' = Some y).
    { intros y H1. exists [], st. auto using star_nil, moved_nil, kept_nil. }
    destruct g.
    + destruct (m st _) eqn:E in H.
      * inversion H; subst. apply Hmore. exact E.
      * apply Hstop. exact H.
    + destruct (k st) eqn:E in H.
      * inversion H; subst. apply Hstop. exact E.
      * apply Hmore. exact H.
Qed.

Lemma rmatch_sound r : sound (rmatch r) (denote r) (negb (nogroup r)).
Proof.
  induction r as [|p|a IHa b IHb|a IHa b IHb|g a IHa|a IHa| | |];
    intros st k x H; cbn [rmatch] in H; cbn [denote nogroup].
  - exists [], st. auto using moved_nil, kept_nil.
  - destruct (m_rest st) as [|c t] eqn:E; [discriminate|].
    destruct (p c) eqn:Ep; [|discriminate].
    exists [c], (advance c t st).
    split; [exists c; auto|].
    auto using moved_advance, kept_advance.
  - apply IHa in H as (u & st1 & Du & M1 & K1 & H).
    apply IHb in H as (v & st2 & Dv & M2 & K2 & H).
    exists (u ++ v), st2. split; [exists u, v; auto|].
    split; [eapply moved_trans; eassumption|]. split; [|assumption].
    intros E. apply negb_false_iff, andb_true_iff in E as [E1 E2].
    eapply kept_trans; [apply K1|apply K2]; apply negb_false_iff; assumption.
  - assert (Hab : negb (nogroup a && nogroup b) = false ->
                   negb (nogroup a) = false /\ negb (nogroup b) = false).
    { intros E. apply negb_false_iff, andb_true_iff in E as [E1 E2].
      rewrite E1, E2. auto. }
    destruct (rmatch a st k) eqn:E.
    + inversion H; subst. apply IHa in E as (w & st1 & D & M1 & K1 & E).
      exists w, st1. split; [left; assumption|].
      split; [assumption|]. split; [|assumption].
      intros F. apply K1, Hab, F.
    + apply IHb in H as (w & st1 & D & M1 & K1 & H).
      exists w, st1. split; [right; assumption|].
      split; [assumption|]. split; [|assumption].
      intros F. apply K1, Hab, F.
  - eapply star_loop_sound in H; [|exact IHa]. exact H.
  - apply IHa in H as (w & st1 & D & (M1 & M2 & M3) & _ & H).
    exists w, (close_group st1). split; [assumption|].
    split; [repeat split; assumption|]. split; [discriminate|assumption].
  - destruct (at_start st); [|discriminate].
    exists [], st. auto using moved_nil, kept_nil.
  - destruct (at_end st); [|discriminate].
    exists [], st. auto using moved_nil, kept_nil.
  - destruct (at_boundary st); [|discriminate].
    exists [], st. auto using moved_nil, kept_nil.
Qed.

Lemma match_here_sound r pre rest st :
  match_here r pre rest = Some st ->
  exists w, denote r w /\ rest = w ++ m_rest st /\ group0 st = w.
Proof.
  unfold match_here. intros H.
  apply rmatch_sound in H as (w & st' & D & (M1 & M2 & M3) & _ & H).
  inversion H; subst st'. exists w. split; [assumption|]. split; [exact M1|].
  unfold group0. rewrite M3. simpl. rewrite app_nil_r. apply rev_involutive.
Qed.

(** A pattern that is one capture group around a group-free body
    captures the whole match. *)
Lemma match_here_group a pre rest st :
  nogroup a = true ->
  match_here (Group a) pre rest = Some st ->
  exists w, denote a w /\ rest = w ++ m_rest st /\ group1 st = w.
Proof.
  unfold match_here. cbn [rmatch]. intros Hg H.
  apply rmatch_sound in H as (w & st' & D & (M1 & M2 & M3) & K & H).
  inversion H; subst st. exists w. split; [assumption|]. split; [exact M1|].
  rewrite Hg in K. destruct (K eq_refl) as [_ K2]. simpl in K2.
  unfold group1. simpl. rewrite K2, app_nil_r. apply rev_involutive.
Qed.

Lemma search_from_sound r pre rest st :
  search_from r pre rest = Some st ->
  exists a w, denote r w /\ rest = a ++ w ++ m_rest st /\ group0 st = w.
Proof.
  revert pre. induction rest as [|c t IH]; intros pre H; simpl in H.
  - destruct (match_here r pre []) eqn:E; [|discriminate].
    inversion H; subst. apply match_here_sound in E as (w & D & E1 & E2).
    exists [], w. auto.
  - destruct (match_here r pre (c :: t)) eqn:E.
    + inversion H; subst. apply match_here_sound in E as (w & D & E1 & E2).
      exists [], w. auto.
    + apply IH in H as (a & w & D & E1 & E2).
      exists (c :: a), w. split; [assumption|]. split; [|assumption].
      simpl. rewrite E1. reflexivity.
Qed.

Lemma search_from_group a pre rest st :
  nogroup a = true ->
  search_from (Group a) pre rest = Some st ->
  exists b w, denote a w /\ rest = b ++ w ++ m_rest st /\ group1 st = w.
Proof.
  intros Hg. revert pre. induction rest as [|c t IH]; intros pre H; simpl in H.
  - destruct (match_here (Group a) pre []) eqn:E; [|discriminate].
    inversion H; subst. apply match_here_group in E as (w & D & E1 & E2); auto.
    exists [], w. auto.
  - destruct (match_here (Group a) pre (c :: t)) eqn:E.
    + inversion H; subst. apply match_here_group in E as (w & D & E1 & E2); auto.
      exists [], w. auto.
    + apply IH in H as (b & w & D & E1 & E2).
      exists (c :: b), w. split; [assumption|]. split; [|assumption].
      simpl. rewrite E1. reflexivity.
Qed.

Lemma first_search_some ps s m :
  first_search ps s = Some m -> exists p, In p ps /\ re_search p s = Some m.
Proof.
  induction ps as [|p ps IH]; simpl; [discriminate|].
  destruct (re_search p s) eqn:E.
  - intros H. inversion H; subst. exists p. auto.
  - intros H. apply IH in H as (q & Hq & H). exists q. auto.
Qed.

Lemma first_search_none ps s :
  (forall p, In p ps -> re_search p s = None) -> first_search ps s = None.
Proof.
  induction ps as [|p ps IH]; simpl; intros H; [reflexivity|].
  rewrite (H p) by auto. apply IH. intros q Hq. apply H. auto.
Qed.

(** *** Words of the pattern syntax *)

Lemma denote_ch c w : denote (ch c) w -> w = [c].
Proof.
  intros (x & -> & H). apply Ascii.eqb_eq in H. subst. reflexivity.
Qed.

Lemma denote_seq_of_ci l w b :
  denote (seq_of ch_ci l) w ->
  starts_with_ci l (w ++ b) = true /\ length w = length l.
Proof.
  revert w. induction l as [|c l IH]; intros w H.
  - simpl in H. subst. auto.
  - destruct l as [|d l].
    + destruct H as (x & -> & H). simpl. unfold ch_ci in H. rewrite H. auto.
    + cbn [seq_of denote] in H. destruct H as (u & v & -> & (x & -> & Hx) & Hv).
      apply IH in Hv as [Hv Hl]. unfold ch_ci in Hx.
      change (([x] ++ v) ++ b) with (x :: v ++ b).
      change (starts_with_ci (c :: d :: l) (x :: v ++ b))
        with (eq_ci c x && starts_with_ci (d :: l) (v ++ b)).
      rewrite Hx, Hv. simpl. rewrite Hl. auto.
Qed.

Lemma denote_lit_ci s w b :
  denote (lit_ci s) w -> starts_with_ci (txt s) (w ++ b) = true.
Proof. intros H. eapply denote_seq_of_ci in H as [H _]. exact H. Qed.

Lemma denote_seq_of l w : denote (seq_of ch l) w -> w = l.
Proof.
  revert w. induction l as [|c l IH]; intros w H.
  - exact H.
  - destruct l as [|d l].
    + apply denote_ch in H. exact H.
    + cbn [seq_of denote] in H. destruct H as (u & v & -> & Hu & Hv).
      apply denote_ch in Hu. apply IH in Hv. subst. reflexivity.
Qed.

Lemma denote_lit s w : denote (lit s) w -> w = txt s.
Proof. apply denote_seq_of. Qed.

Lemma denote_alts rs w :
  denote (alts rs) w -> exists r, In r rs /\ denote r w.
Proof.
  induction rs as [|r rs IH]; intros H.
  - destruct H as (c & _ & H). discriminate.
  - destruct rs as [|r' rs].
    + exists r. simpl. auto.
    + cbn [alts denote] in H. destruct H as [H|H].
      * exists r. simpl. auto.
      * apply IH in H as (q & Hq & H). exists q. split; [right; exact Hq|exact H].
Qed.

(** A word of an alternation of case-insensitive literals, followed by
    anything, mentions one of the literals. *)
Lemma denote_words words w a b :
  denote (alts (map lit_ci words)) w -> mentions words (a ++ w ++ b) = true.
Proof.
  intros H. apply denote_alts in H as (r & Hr & H).
  apply in_map_iff in Hr as (s & <- & Hs).
  unfold mentions. apply existsb_exists. exists s. split; [assumption|].
  apply contains_ci_app. apply denote_lit_ci. exact H.
Qed.

(** ** Salary *)

Lemma mentions_cons w words s :
  mentions (w :: words) s = contains_ci (txt w) s || mentions words s.
Proof. reflexivity. Qed.

Lemma salary_dollar_marker w a b :
  denote salary_dollar w -> mentions currency_markers (a ++ w ++ b) = true.
Proof.
  unfold salary_dollar. cbn [seqs denote].
  intros (u & v & -> & Hu & _). apply denote_ch in Hu. subst u.
  unfold currency_markers. rewrite mentions_cons.
  rewrite contains_ci_app; reflexivity.
Qed.

Lemma salary_code_first_marker w a b :
  denote salary_code_first w -> mentions currency_markers (a ++ w ++ b) = true.
Proof.
  unfold salary_code_first. cbn [seqs denote].
  intros (u & v & -> & Hu & _).
  unfold currency_markers. rewrite mentions_cons.
  rewrite <- app_assoc.
  rewrite (denote_words currency_codes u a (v ++ b) Hu). apply orb_true_r.
Qed.

Lemma salary_code_last_marker w a b :
  denote salary_code_last w -> mentions currency_markers (a ++ w ++ b) = true.
Proof.
  unfold salary_code_last. cbn [seqs denote].
  intros (u1 & v1 & -> & _ & u2 & v2 & -> & _ & u3 & v3 & -> & Hu & _).
  unfold currency_markers. rewrite mentions_cons.
  replace (a ++ (u1 ++ u2 ++ u3 ++ v3) ++ b)
    with ((a ++ u1 ++ u2) ++ u3 ++ (v3 ++ b))
    by (repeat rewrite <- app_assoc; reflexivity).
  rewrite (denote_words currency_codes u3 _ _ Hu). apply orb_true_r.
Qed.

Lemma salary_pattern_marker p s m :
  In p salary_patterns -> re_search p s = Some m ->
  mentions currency_markers s = true.
Proof.
  unfold re_search. intros Hp H.
  apply search_from_sound in H as (a & w & D & -> & _).
  destruct Hp as [<-|[<-|[<-|[]]]];
    eauto using salary_dollar_marker, salary_code_first_marker,
                salary_code_last_marker.
Qed.

Lemma extract_salary_no_marker s :
  mentions currency_markers s = false ->
  extract_salary s = txt "Salary not specified".
Proof.
  intros H. unfold extract_salary. rewrite first_search_none; [reflexivity|].
  intros p Hp. destruct (re_search p s) eqn:E; [|reflexivity].
  apply salary_pattern_marker in E; [congruence|assumption].
Qed.

(** C7 (as amended).  The salary extractor returns
    ["$80,000 - $95,000 per year"] unchanged, and returns the sentinel
    ["Salary not specified"] on every text in which neither a dollar
    sign nor the letters of one of the codes USD, EUR, GBP, AUD, CAD
    occur anywhere, in any letter case and not even inside a longer
    word. *)
Theorem C7_extract_salary :
  extract_salary (txt "$80,000 - $95,000 per year")
  = txt "$80,000 - $95,000 per year"
  /\ forall s, mentions currency_markers s = false ->
               extract_salary s = txt "Salary not specified".
Proof.
  split; [vm_compute; reflexivity|]. apply extract_salary_no_marker.
Qed.

Lemma C7_extract_salary_witness :
  mentions currency_markers (txt "Competitive pay and a friendly team.") = false
  /\ extract_salary (txt "Competitive pay and a friendly team.")
     = txt "Salary not specified".
Proof.
  split.
  - reflexivity.
  - apply (proj2 C7_extract_salary). reflexivity.
Defined.

(** C7 as stated fails: a text that shows no currency marker, neither a
    dollar sign nor a currency code as a word, has the letters of a code
    inside a word after a number; the third salary pattern has no word
    boundary and takes them for a salary. *)
Lemma C7_code_inside_word :
  shows_currency (txt "We have 12 European offices.") = false
  /\ extract_salary (txt "We have 12 European offices.") = txt "12 Eur"
  /\ extract_salary (txt "We have 12 European offices.")
     <> txt "Salary not specified".
Proof.
  split; [reflexivity|]. split; [reflexivity|].
  intros H. vm_compute in H. discriminate.
Qed.

(** ** Job type *)

Lemma starts_any_mentions words a b :
  starts_any words b = true -> mentions words (a ++ b) = true.
Proof.
  unfold starts_any, mentions. intros H.
  apply existsb_exists in H as (w & Hw & H).
  apply existsb_exists. exists w. auto using contains_ci_app.
Qed.

Lemma starts_any_intro w words s :
  In w words -> starts_with_ci (txt w) s = true -> starts_any words s = true.
Proof.
  intros Hw H. unfold starts_any. apply existsb_exists. exists w. auto.
Qed.

Lemma starts_with_ci_join l1 l2 u v b :
  denote (seq_of ch_ci l1) u -> starts_with_ci l2 (v ++ b) = true ->
  starts_with_ci (l1 ++ l2) (u ++ v ++ b) = true.
Proof.
  revert u. induction l1 as [|c l1 IH]; intros u Hu Hv.
  - simpl in Hu. subst. exact Hv.
  - destruct l1 as [|d l1].
    + destruct Hu as (x & -> & Hx). unfold ch_ci in Hx.
      simpl. rewrite Hx. exact Hv.
    + cbn [seq_of denote] in Hu.
      destruct Hu as (u1 & u2 & -> & (x & -> & Hx) & Hu2).
      unfold ch_ci in Hx. specialize (IH u2 Hu2 Hv).
      change (([x] ++ u2) ++ v ++ b) with (x :: u2 ++ v ++ b).
      change ((c :: d :: l1) ++ l2) with (c :: (d :: l1) ++ l2).
      cbn [starts_with_ci]. rewrite Hx. exact IH.
Qed.

Lemma one_of_cases s c : existsb (Ascii.eqb c) s = true -> In c s.
Proof.
  intros H. apply existsb_exists in H as (x & Hx & H).
  apply Ascii.eqb_eq in H. subst. exact Hx.
Qed.

(** A word of [Full[- ]Time] or [Part[- ]Time]. *)
Lemma denote_hyphenated first w b :
  denote (seqs [lit_ci first; one_of (txt "- "); lit_ci "Time"]) w ->
  starts_with_ci (txt first ++ txt "-time") (w ++ b) = true
  \/ starts_with_ci (txt first ++ txt " time") (w ++ b) = true.
Proof.
  cbn [seqs denote].
  intros (u1 & v1 & -> & H1 & u2 & u3 & -> & (c & -> & Hc) & H3).
  apply one_of_cases in Hc.
  assert (H3' := denote_lit_ci "Time" u3 b H3).
  repeat rewrite <- app_assoc.
  destruct Hc as [<-|[<-|[]]]; [left|right];
    apply starts_with_ci_join; try assumption; simpl; exact H3'.
Qed.

Lemma job_type_term_starts w b :
  denote job_type_term w -> starts_any job_type_terms (w ++ b) = true.
Proof.
  unfold job_type_term. cbn [denote]. intros H.
  apply denote_alts in H as (r & Hr & H).
  destruct Hr as [<-|[<-|Hr]].
  - apply (denote_hyphenated "Full" w b) in H as [H|H].
    + eapply (starts_any_intro "full-time"); [simpl; auto|exact H].
    + eapply (starts_any_intro "full time"); [simpl; auto|exact H].
  - apply (denote_hyphenated "Part" w b) in H as [H|H].
    + eapply (starts_any_intro "part-time"); [simpl; auto|exact H].
    + eapply (starts_any_intro "part time"); [simpl; auto|exact H].
  - destruct Hr as [<-|[<-|[<-|[<-|[<-|[]]]]]];
      apply (denote_lit_ci _ w b) in H.
    + eapply (starts_any_intro "contract"); [simpl; auto 10|exact H].
    + eapply (starts_any_intro "temporary"); [simpl; auto 10|exact H].
    + eapply (starts_any_intro "freelance"); [simpl; auto 10|exact H].
    + eapply (starts_any_intro "permanent"); [simpl; auto 10|exact H].
    + eapply (starts_any_intro "remote"); [simpl; auto 10|exact H].
Qed.

Lemma match_here_term_starts pre s st :
  match_here job_type_term pre s = Some st ->
  starts_any job_type_terms s = true.
Proof.
  intros H. apply match_here_sound in H as (w & D & -> & _).
  apply job_type_term_starts. exact D.
Qed.

Lemma job_type_label_mentioned w a b :
  denote job_type_label w -> mentions job_type_labels (a ++ w ++ b) = true.
Proof.
  unfold job_type_label. cbn [seqs denote].
  intros (u & v & -> & Hu & u2 & v2 & -> & H2 & _).
  repeat rewrite <- app_assoc.
  assert (H2' := denote_lit_ci " Type" u2 (v2 ++ b) H2).
  apply starts_any_mentions.
  destruct Hu as [Hu|Hu].
  - apply (starts_any_intro "job type"); [simpl; auto|].
    apply (starts_with_ci_join (txt "Job") (txt " Type")); assumption.
  - apply (starts_any_intro "employment type"); [simpl; auto|].
    apply (starts_with_ci_join (txt "Employment") (txt " Type")); assumption.
Qed.

Lemma job_type_label_absent s :
  mentions job_type_labels s = false -> re_search job_type_label s = None.
Proof.
  intros H. destruct (re_search job_type_label s) eqn:E; [|reflexivity].
  apply search_from_sound in E as (a & w & D & -> & _).
  rewrite job_type_label_mentioned in H by assumption. discriminate.
Qed.

Lemma whole_word_mentioned k s m :
  re_search (whole_word k) s = Some m -> contains_ci (txt k) s = true.
Proof.
  intros H. apply search_from_sound in H as (a & w & D & -> & _).
  unfold whole_word in D. cbn [seqs denote] in D.
  destruct D as (u & v & -> & -> & u2 & v2 & -> & D & ->).
  simpl. rewrite app_nil_r. apply contains_ci_app. apply denote_lit_ci. exact D.
Qed.

Lemma first_keyword_none keywords s :
  mentions keywords s = false -> first_keyword keywords s = None.
Proof.
  induction keywords as [|k ks IH]; intros H; [reflexivity|].
  rewrite mentions_cons in H. apply orb_false_iff in H as [H1 H2].
  cbn [first_keyword].
  destruct (re_search (whole_word k) s) eqn:E.
  - apply whole_word_mentioned in E. congruence.
  - apply IH. exact H2.
Qed.

Lemma mentions_app w1 w2 s :
  mentions (w1 ++ w2) s = mentions w1 s || mentions w2 s.
Proof. unfold mentions. apply existsb_app. Qed.

Lemma job_type_term_absent s :
  mentions job_type_terms s = false -> re_search job_type_term s = None.
Proof.
  intros H. destruct (re_search job_type_term s) eqn:E; [|reflexivity].
  apply search_from_sound in E as (a & w & D & -> & _).
  rewrite starts_any_mentions in H; [discriminate|].
  apply job_type_term_starts. exact D.
Qed.

Lemma extract_job_type_nothing s :
  mentions job_type_labels s = false ->
  mentions job_type_words s = false ->
  extract_job_type s = txt "Not specified".
Proof.
  intros Hl Hw. unfold job_type_words in Hw. rewrite mentions_app in Hw.
  apply orb_false_iff in Hw as [Ht Hh].
  unfold extract_job_type, job_type_patterns. cbn [first_search].
  rewrite job_type_label_absent, job_type_term_absent by assumption.
  rewrite first_keyword_none; [reflexivity|].
  change job_type_keywords
    with (["full-time"; "part-time"; "contract"; "temporary"; "freelance";
           "permanent"; "remote"]%string ++ ["hybrid"%string]).
  rewrite mentions_app, Hh, orb_false_r.
  unfold mentions at 1. cbn [existsb].
  rewrite !(fun w => mentions_false job_type_terms w s Ht) by (simpl; auto 12).
  reflexivity.
Qed.

(** The search skips every position at which no job-type term starts. *)
Lemma search_job_type_term_skip pre acc rest i st :
  first_mention_from job_type_terms (pre ++ rest) i = Some (i + length pre) ->
  match_here job_type_term (rev pre ++ acc) rest = Some st ->
  search_from job_type_term acc (pre ++ rest) = Some st.
Proof.
  revert acc i. induction pre as [|c pre IH]; intros acc i Hf Hm.
  - cbn [rev app] in *. destruct rest; cbn [search_from]; rewrite Hm; reflexivity.
  - cbn [app first_mention_from] in Hf.
    destruct (starts_any job_type_terms (c :: pre ++ rest)) eqn:E.
    + inversion Hf. simpl in *. lia.
    + cbn [app search_from].
      destruct (match_here job_type_term acc (c :: pre ++ rest)) eqn:E2.
      * apply match_here_term_starts in E2. congruence.
      * apply (IH (c :: acc) (S i)).
        -- rewrite Hf. f_equal. simpl. lia.
        -- simpl in Hm. rewrite <- app_assoc in Hm. exact Hm.
Qed.

Lemma extract_job_type_remote pre post :
  mentions job_type_labels (pre ++ txt "Remote" ++ post) = false ->
  first_mention job_type_terms (pre ++ txt "Remote" ++ post) = Some (length pre) ->
  extract_job_type (pre ++ txt "Remote" ++ post) = txt "Remote".
Proof.
  intros Hl Hf. unfold extract_job_type, job_type_patterns. cbn [first_search].
  rewrite job_type_label_absent by assumption.
  assert (Hm : exists st,
             match_here job_type_term (rev pre ++ []) (txt "Remote" ++ post)
             = Some st /\ group1 st = txt "Remote").
  { eexists. split; reflexivity. }
  destruct Hm as (st & Hm & Hg).
  unfold re_search.
  rewrite (search_job_type_term_skip pre [] (txt "Remote" ++ post) 0 st Hf Hm).
  rewrite Hg. reflexivity.
Qed.

(** C8 (as amended).  On a text with no "Job Type"/"Employment Type"
    label in which the first job-type term is the word ["Remote"], the
    job-type extractor returns ["Remote"] as it stands in the text.  On
    a text in which neither the letters of a label nor those of a
    job-type word occur anywhere, in any letter case and not even inside
    a longer word, it returns ["Not specified"].  The letters of a term
    inside a longer word do count: a text that shows no job-type word
    and no label to a reader yields ["temporary"] out of
    "contemporary". *)
Theorem C8_extract_job_type :
  (forall pre post,
      mentions job_type_labels (pre ++ txt "Remote" ++ post) = false ->
      first_mention job_type_terms (pre ++ txt "Remote" ++ post)
      = Some (length pre) ->
      extract_job_type (pre ++ txt "Remote" ++ post) = txt "Remote")
  /\ (forall s,
         mentions job_type_labels s = false ->
         mentions job_type_words s = false ->
         extract_job_type s = txt "Not specified")
  /\ (shows_job_type (txt "A contemporary workplace.") = false
      /\ mentions job_type_labels (txt "A contemporary workplace.") = false
      /\ extract_job_type (txt "A contemporary workplace.") = txt "temporary").
Proof.
  split; [apply extract_job_type_remote|].
  split; [apply extract_job_type_nothing|].
  repeat split.
Qed.

Lemma C8_extract_job_type_witness :
  extract_job_type (txt "This role is " ++ txt "Remote" ++ txt " within the EU.")
  = txt "Remote"
  /\ extract_job_type (txt "Join our growing team.") = txt "Not specified".
Proof.
  split.
  - apply (proj1 C8_extract_job_type); reflexivity.
  - apply (proj1 (proj2 C8_extract_job_type)); reflexivity.
Defined.

(** C8 as stated fails: a text with the word ["Remote"] of its own and
    no label, in which another job-type term comes first, yields that
    term. *)
Lemma C8_remote_not_returned :
  has_word (txt "Remote") (txt "Full-time, Remote") = true
  /\ mentions job_type_labels (txt "Full-time, Remote") = false
  /\ extract_job_type (txt "Full-time, Remote") = txt "Full-time"
  /\ extract_job_type (txt "Full-time, Remote") <> txt "Remote".
Proof.
  repeat split; try reflexivity. vm_compute. discriminate.
Qed.

(** ** Company of a search-result title *)

Lemma str_find_from_shift sub s i :
  str_find_from sub s i = option_map (fun j => i + j) (str_find_from sub s 0).
Proof.
  revert i. induction s as [|c t IH]; intros i; simpl.
  - destruct (starts_with sub []); simpl; f_equal; lia.
  - destruct (starts_with sub (c :: t)); simpl; [f_equal; lia|].
    rewrite (IH (S i)), (IH 1).
    destruct (str_find_from sub t 0); simpl; f_equal; lia.
Qed.

Lemma str_split_go_skip sep n acc s :
  n <= length s ->
  str_split_go sep n acc s = str_split_go sep 0 acc (skipn n s).
Proof.
  revert s. induction n as [|n IH]; intros s H; [reflexivity|].
  destruct s as [|c t]; simpl in H; [lia|].
  simpl. apply IH. lia.
Qed.

Lemma starts_with_length p s : starts_with p s = true -> length p <= length s.
Proof.
  revert s. induction p as [|x p IH]; intros [|y s]; simpl; try lia; try discriminate.
  intros H. apply andb_true_iff in H as [_ H]. apply IH in H. lia.
Qed.

(** [split] cuts at the first occurrence of the separator and goes on
    after it. *)
Lemma str_split_go_find sep acc s :
  sep <> [] ->
  str_split_go sep 0 acc s =
    match str_find sep s with
    | None => [rev acc ++ s]
    | Some i => (rev acc ++ firstn i s)
                :: str_split_go sep 0 [] (skipn (i + length sep) s)
    end.
Proof.
  intros Hsep. unfold str_find. revert acc.
  induction s as [|c t IH]; intros acc.
  - destruct sep; [congruence|]. simpl. rewrite app_nil_r. reflexivity.
  - cbn [str_split_go str_find_from].
    destruct (starts_with sep (c :: t)) eqn:E.
    + rewrite app_nil_r. f_equal.
      apply starts_with_length in E. simpl in E.
      rewrite str_split_go_skip by lia.
      destruct sep; [congruence|]. simpl. rewrite Nat.sub_0_r. reflexivity.
    + rewrite IH, (str_find_from_shift sep t 1).
      destruct (str_find_from sep t 0) as [j|]; simpl.
      * rewrite <- app_assoc. reflexivity.
      * rewrite <- app_assoc. reflexivity.
Qed.

Lemma extract_company_second_segment title :
  extract_company_from_title title =
    match second_segment title with
    | Some segment => str_strip segment
    | None => txt "Unknown Company"
    end.
Proof.
  assert (Hsep : title_sep <> []) by discriminate.
  unfold extract_company_from_title, second_segment, str_split.
  fold title_sep. rewrite (str_split_go_find title_sep [] title Hsep).
  destruct (str_find title_sep title) as [i|]; [|reflexivity].
  rewrite (str_split_go_find title_sep [] _ Hsep).
  change (length title_sep) with 3.
  destruct (str_find title_sep (skipn (i + 3) title)); reflexivity.
Qed.

(** C6 (as amended).  The company of a listing is the second
    [" - "]-delimited segment of the title (what stands between the
    first [" - "] and the next one, or the end), stripped of surrounding
    whitespace, when the title contains [" - "], and the sentinel
    ["Unknown Company"] otherwise. *)
Theorem C6_company_from_title (title : text) :
  extract_company_from_title title =
    match second_segment title with
    | Some segment => str_strip segment
    | None => txt "Unknown Company"
    end
  /\ (str_contains title_sep title = false <-> second_segment title = None).
Proof.
  split; [apply extract_company_second_segment|].
  unfold str_contains, second_segment.
  destruct (str_find title_sep title); split; intros; congruence.
Qed.

(** C6 as stated fails on a title with two separators: the company is
    the middle segment, not the trailing one. *)
Lemma C6_company_not_trailing :
  str_contains title_sep (txt "Data Scientist - Acme Corp - LinkedIn") = true
  /\ trailing_segment (txt "Data Scientist - Acme Corp - LinkedIn") = txt "LinkedIn"
  /\ extract_company_from_title (txt "Data Scientist - Acme Corp - LinkedIn")
     = txt "Acme Corp"
  /\ extract_company_from_title (txt "Data Scientist - Acme Corp - LinkedIn")
     <> trailing_segment (txt "Data Scientist - Acme Corp - LinkedIn").
Proof.
  repeat split; try reflexivity. vm_compute. discriminate.
Qed.

(** ** Search adapter *)

(** C5 (as amended).  [search_jobs] always returns a list: when the
    provider raises, and when it finds nothing, the list is empty;
    otherwise there is exactly one listing per provider result, in the
    provider's order.  The list is never cut: it is as long as the
    provider's answer, and so it keeps to the requested limit exactly
    when the provider's answer does. *)
Theorem C5_search_jobs (W : World) (query location : text) (limit : Z) :
  let listings := search_jobs W query location limit in
  (ddgs_text W (jobs_query query location) limit = Raised -> listings = [])
  /\ (ddgs_text W (jobs_query query location) limit = Ok [] -> listings = [])
  /\ (forall results,
         ddgs_text W (jobs_query query location) limit = Ok results ->
         listings = map (listing_of location) results
         /\ map ls_url listings = map (fun r => dict_get (hit_href r) []) results
         /\ length listings = length results
         /\ ((Z.of_nat (length listings) <= limit)%Z
             <-> (Z.of_nat (length results) <= limit)%Z)).
Proof.
  intros listings. subst listings. unfold search_jobs.
  destruct (ddgs_text W (jobs_query query location) limit) as [results|] eqn:E.
  - split; [discriminate|]. split.
    + intros H. inversion H. reflexivity.
    + intros results' H. inversion H. subst results'.
      split; [reflexivity|]. split; [rewrite map_map; reflexivity|].
      rewrite length_map. split; [reflexivity|tauto].
  - split; [reflexivity|]. split; discriminate.
Qed.

Lemma sample_provider_respects_limit : provider_respects_limit sample_world.
Proof.
  intros query limit results Hlimit. simpl. unfold sample_provider.
  destruct (truthy query); [|discriminate].
  intros H. inversion H. rewrite length_firstn. simpl. lia.
Qed.

Lemma C5_search_jobs_witness :
  (Z.of_nat (length (search_jobs sample_world (txt "Data Scientist") (txt "Berlin") 5))
   <= 5)%Z
  /\ map ls_url (search_jobs sample_world (txt "Data Scientist") (txt "Berlin") 5)
     = [txt "https://www.linkedin.com/jobs/view/1"; []].
Proof.
  pose proof (C5_search_jobs sample_world (txt "Data Scientist") (txt "Berlin") 5)
    as (_ & _ & H).
  destruct (H _ eq_refl) as (_ & Hurl & _ & Hiff).
  split; [|exact Hurl]. apply Hiff. vm_compute. discriminate.
Defined.

(** C5 as stated fails: the provider is asked for two results and
    answers with three; [search_jobs] hands out three listings, one more
    than the requested limit. *)
Lemma C5_limit_not_enforced :
  ddgs_text generous_world (jobs_query (txt "Data Scientist") (txt "Berlin")) 2
  = Ok three_hits
  /\ length (search_jobs generous_world (txt "Data Scientist") (txt "Berlin") 2) = 3
  /\ ~ (Z.of_nat (length (search_jobs generous_world (txt "Data Scientist")
                                      (txt "Berlin") 2)) <= 2)%Z.
Proof.
  split; [reflexivity|]. split; [reflexivity|].
  intros H. vm_compute in H. apply H. reflexivity.
Qed.

(** ** Effects *)

Lemma bind_ok {A B} (m : M A) (f : A -> M B) tr b :
  bind m f = (tr, Ok b) ->
  exists tr1 a tr2, m = (tr1, Ok a) /\ f a = (tr2, Ok b) /\ tr = tr1 ++ tr2.
Proof.
  unfold bind. destruct m as [tr1 [a|]]; [|discriminate].
  destruct (f a) as [tr2 r] eqn:E. intros H. inversion H; subst.
  exists tr1, a, tr2. auto.
Qed.

Lemma searched_app tr1 tr2 : searched (tr1 ++ tr2) = searched tr1 || searched tr2.
Proof. apply existsb_app. Qed.

Lemma requests_app tr1 tr2 : requests (tr1 ++ tr2) = requests tr1 + requests tr2.
Proof. unfold requests. rewrite filter_app, length_app. reflexivity. Qed.

(** ** Description *)

Lemma first_selected_raised s selectors :
  first_selected s selectors = Raised ->
  exists selector, In selector selectors /\ select_one s (txt selector) = Raised.
Proof.
  induction selectors as [|x rest IH]; simpl; [discriminate|].
  destruct (select_one s (txt x)) as [[section|]|] eqn:E.
  - discriminate.
  - intros H. apply IH in H as (y & Hy & H). exists y. auto.
  - intros _. exists x. auto.
Qed.

Lemma app_nonempty {A} (l1 l2 : list A) : l2 <> [] -> l1 ++ l2 <> [].
Proof. destruct l1; simpl; [auto|discriminate]. Qed.

Lemma extract_job_description_nonempty s text_content d :
  extract_job_description s text_content = Ok d -> d <> [].
Proof.
  unfold extract_job_description.
  destruct (first_selected s description_selectors) as [found|]; [|discriminate].
  intros H. inversion H as [H1]. clear H H1.
  match goal with
  | |- (if truthy ?x then _ else _) <> [] => destruct (truthy x) eqn:E
  end.
  - apply truthy_true. exact E.
  - apply app_nonempty. discriminate.
Qed.

Lemma extract_job_description_outcome s text_content :
  match extract_job_description s text_content with
  | Ok d => d <> []
  | Raised => exists selector, In selector description_selectors
                               /\ select_one s (txt selector) = Raised
  end.
Proof.
  destruct (extract_job_description s text_content) as [d|] eqn:E.
  - eapply extract_job_description_nonempty. exact E.
  - unfold extract_job_description in E.
    destruct (first_selected s description_selectors) eqn:F; [discriminate|].
    apply first_selected_raised. exact F.
Qed.

(** A description that is not empty goes through the loop over the
    alternate results unchanged. *)
Lemma try_alternate_description W result d q tr d' q' b :
  d <> [] -> try_alternate W result d q = (tr, Ok (d', q', b)) -> d' = d.
Proof.
  intros Hd. unfold try_alternate, http_get, bind.
  destruct (requests_get W _ _ _) as [resp|]; [|discriminate].
  destruct (status_code resp =? 200)%Z.
  - apply truthy_true in Hd. rewrite Hd. simpl. intros H. inversion H. reflexivity.
  - simpl. intros H. inversion H. reflexivity.
Qed.

Lemma alternate_sources_description W results d q tr d' q' :
  d <> [] -> alternate_sources W results d q = (tr, Ok (d', q')) -> d' = d.
Proof.
  intros Hd. revert q tr. induction results as [|result rest IH]; intros q tr; simpl.
  - intros H. inversion H. reflexivity.
  - destruct (try_alternate W result d q) as [tr1 [[[d1 q1] b]|]] eqn:E.
    + apply try_alternate_description in E; [|assumption]. subst d1.
      destruct b.
      * intros H. inversion H. reflexivity.
      * destruct (alternate_sources W rest d q1) as [tr2 r] eqn:E2.
        intros H. inversion H; subst. eapply IH. exact E2.
    + destruct (alternate_sources W rest d q) as [tr2 r] eqn:E2.
      intros H. inversion H; subst. eapply IH. exact E2.
Qed.

Lemma secondary_recovery_description W s d q tr d' q' :
  d <> [] -> secondary_recovery W s d q = (tr, Ok (d', q')) -> d' = d.
Proof.
  intros Hd. unfold secondary_recovery.
  destruct (negb (truthy d) || negb (truthy q)).
  2:{ intros H. inversion H. reflexivity. }
  destruct (page_title_parts s) as [title company].
  destruct (truthy title).
  2:{ intros H. inversion H. reflexivity. }
  unfold catch, bind, search.
  destruct (ddgs_text W _ 3) as [alt_results|].
  - destruct (alternate_sources W alt_results d q) as [tr2 [[d2 q2]|]] eqn:E.
    + apply alternate_sources_description in E; [|assumption]. subst.
      intros H. inversion H. reflexivity.
    + simpl. intros H. inversion H. reflexivity.
  - simpl. intros H. inversion H. reflexivity.
Qed.

Lemma extract_and_recover_description W s text_content tr dr :
  extract_and_recover W s text_content = (tr, Ok dr) ->
  extract_job_description s text_content = Ok (fst dr) /\ fst dr <> [].
Proof.
  unfold extract_and_recover. intros H.
  apply bind_ok in H as (tr1 & d & tr2 & H1 & H2 & _).
  unfold lift in H1. inversion H1 as [[Ht Hd]].
  pose proof (extract_job_description_nonempty _ _ _ Hd) as Hne.
  destruct dr as [d' q']. apply secondary_recovery_description in H2; [|assumption].
  simpl. subst. auto.
Qed.

(** What a successful run of the [try] body is made of. *)
Lemma get_job_details_try_ok W url tr r :
  get_job_details_try W url = (tr, Ok r) ->
  exists tr1 resp tr2 dr,
    fetch_page W url = (tr1, Ok resp)
    /\ extract_and_recover W (BeautifulSoup W (response_text resp))
                           (h2t_handle W (response_text resp)) = (tr2, Ok dr)
    /\ tr = tr1 ++ tr2
    /\ r = MkJob
             (if truthy (fst dr) then fst dr else synthesized_description url)
             (if truthy (snd dr) then snd dr
              else fallback_requirements url (h2t_handle W (response_text resp)))
             (extract_salary (h2t_handle W (response_text resp)))
             (extract_job_type (h2t_handle W (response_text resp)))
             (extract_benefits (h2t_handle W (response_text resp)))
             (extract_application_link (BeautifulSoup W (response_text resp)) url)
             (firstn 5000 (h2t_handle W (response_text resp))).
Proof.
  unfold get_job_details_try. intros H.
  apply bind_ok in H as (tr1 & resp & tr' & H1 & H2 & Ht).
  apply bind_ok in H2 as (tr2 & dr & tr3 & H2 & H3 & Ht').
  unfold ret in H3. inversion H3; subst.
  exists tr1, resp, tr2, dr. rewrite app_nil_r. auto.
Qed.

(** C10.  [extract_job_description] returns a non-empty string on every
    parsed markup and every text, the empty text included (it can only
    fail to return if the markup library raises on one of the six
    selectors); hence the description is still the extracted one, and
    not empty, when [get_job_details] tests whether to synthesize one
    from the URL: that branch is never taken. *)
Theorem C10_description_never_empty :
  (forall s text_content,
      match extract_job_description s text_content with
      | Ok d => d <> []
      | Raised => exists selector, In selector description_selectors
                                   /\ select_one s (txt selector) = Raised
      end)
  /\ extract_job_description no_soup [] = Ok (txt "...")
  /\ (forall W s text_content tr dr,
         extract_and_recover W s text_content = (tr, Ok dr) ->
         truthy (fst dr) = true)
  /\ (forall W url tr r,
         get_job_details_try W url = (tr, Ok r) ->
         exists tr1 resp,
           fetch_page W url = (tr1, Ok resp)
           /\ extract_job_description (BeautifulSoup W (response_text resp))
                                      (h2t_handle W (response_text resp))
              = Ok (description r)).
Proof.
  split; [apply extract_job_description_outcome|].
  split; [reflexivity|]. split.
  - intros W s text_content tr dr H.
    apply extract_and_recover_description in H as [_ H].
    apply truthy_true. exact H.
  - intros W url tr r H.
    apply get_job_details_try_ok in H as (tr1 & resp & tr2 & dr & F & H & _ & ->).
    apply extract_and_recover_description in H as [H Hne].
    exists tr1, resp. split; [exact F|].
    simpl. apply truthy_true in Hne. rewrite Hne. exact H.
Qed.

Lemma C10_description_never_empty_witness :
  exists tr1 resp,
    fetch_page (static_site (txt "<p>We are hiring.</p>") (txt "We are hiring.") None)
               (txt "https://example.com/jobs/data-analyst")
    = (tr1, Ok resp)
    /\ extract_job_description
         (BeautifulSoup (static_site (txt "<p>We are hiring.</p>")
                                     (txt "We are hiring.") None)
                        (response_text resp))
         (txt "We are hiring.")
       = Ok (txt "We are hiring....").
Proof.
  destruct C10_description_never_empty as (_ & _ & _ & H).
  exact (H (static_site (txt "<p>We are hiring.</p>") (txt "We are hiring.") None)
           (txt "https://example.com/jobs/data-analyst") _ _ eq_refl).
Defined.

(** ** The record of [get_job_details] *)

Lemma denote_amount_nonempty w : denote amount w -> w <> [].
Proof.
  unfold amount. cbn [seqs denote].
  intros (u & v & -> & (c & -> & _) & _). discriminate.
Qed.

Lemma salary_pattern_nonempty p s m :
  In p salary_patterns -> re_search p s = Some m -> group1 m <> [].
Proof.
  unfold re_search. intros Hp H.
  destruct Hp as [<-|[<-|[<-|[]]]];
    apply search_from_group in H as (b & w & D & _ & ->); try reflexivity;
    cbn [seqs denote] in D; destruct D as (u & v & -> & D & _).
  - apply denote_ch in D. subst. discriminate.
  - apply denote_alts in D as (r & Hr & D).
    assert (length u = 3).
    { destruct Hr as [<-|[<-|[<-|[<-|[<-|[]]]]]];
        apply (denote_seq_of_ci _ _ []) in D as [_ D]; exact D. }
    destruct u; [discriminate|discriminate].
  - apply denote_amount_nonempty in D. destruct u; [congruence|discriminate].
Qed.

Lemma extract_salary_nonempty s : extract_salary s <> [].
Proof.
  unfold extract_salary. destruct (first_search salary_patterns s) eqn:E.
  - apply first_search_some in E as (p & Hp & E).
    eapply salary_pattern_nonempty; eassumption.
  - discriminate.
Qed.

Lemma firstn_nonempty {A} n (l : list A) : l <> [] -> firstn (S n) l <> [].
Proof. destruct l; [congruence|discriminate]. Qed.

Lemma fallback_requirements_nonempty url text_content :
  fallback_requirements url text_content <> [].
Proof.
  unfold fallback_requirements.
  destruct (potential_requirements text_content); discriminate.
Qed.

Lemma first_apply_link_nonempty s selectors href :
  first_apply_link s selectors = Some href -> href <> [].
Proof.
  induction selectors as [|x rest IH]; simpl; [discriminate|].
  destruct (select_one s (txt x)) as [[apply_button|]|]; try exact IH.
  destruct (tag_href apply_button) as [[|c t]|]; try exact IH.
  intros H. inversion H. discriminate.
Qed.

Lemma extract_application_link_nonempty s url :
  url <> [] -> extract_application_link s url <> [].
Proof.
  unfold extract_application_link. intros Hurl.
  destruct (first_apply_link s apply_selectors) eqn:E; simpl; [|exact Hurl].
  eapply first_apply_link_nonempty. exact E.
Qed.

Lemma get_job_details_placeholder W url :
  snd (get_job_details_try W url) = Raised ->
  snd (get_job_details W url) = placeholder_record url.
Proof.
  unfold get_job_details. destruct (get_job_details_try W url) as [tr [r|]]; simpl.
  - discriminate.
  - reflexivity.
Qed.

(** C1 (as amended).  [get_job_details] returns a record for every URL
    and every world.  Its description, requirements and salary are never
    empty, and its application link is not empty unless the URL is.
    When the page was fetched and processed, the text snapshot is the
    first 5000 characters of the text that html2text makes of the
    fetched page (all of it when it is shorter), hence at most 5000
    characters long; when an exception made the function fall back, the
    record is the placeholder record, whose job type, benefits and text
    snapshot are not empty either. *)
Theorem C1_get_job_details_record (W : World) (url : text) :
  let r := snd (get_job_details W url) in
  description r <> [] /\ requirements r <> [] /\ salary r <> []
  /\ (url <> [] -> application_link r <> [])
  /\ match snd (get_job_details_try W url) with
     | Ok _ =>
         (exists tr1 resp,
             fetch_page W url = (tr1, Ok resp)
             /\ full_text r = firstn 5000 (h2t_handle W (response_text resp)))
         /\ length (full_text r) <= 5000
     | Raised => r = placeholder_record url
                 /\ job_type r <> [] /\ benefits r <> [] /\ full_text r <> []
     end.
Proof.
  intros r. subst r. unfold get_job_details.
  destruct (get_job_details_try W url) as [tr [r|]] eqn:E; cbn [snd].
  - apply get_job_details_try_ok in E as (tr1 & resp & tr2 & dr & F & H & _ & ->).
    apply extract_and_recover_description in H as [_ Hne].
    cbn [description requirements salary application_link full_text].
    split; [|split; [|split; [|split; [|split]]]].
    + apply truthy_true in Hne. rewrite Hne. apply truthy_true. exact Hne.
    + destruct (truthy (snd dr)) eqn:T.
      * apply truthy_true. exact T.
      * apply fallback_requirements_nonempty.
    + apply extract_salary_nonempty.
    + apply extract_application_link_nonempty.
    + exists tr1, resp. split; [exact F|reflexivity].
    + apply firstn_le_length.
  - repeat split; try discriminate; auto.
Qed.

Lemma C1_get_job_details_record_witness :
  application_link
    (snd (get_job_details
            (static_site (txt "<p>We are hiring.</p>") (txt "We are hiring.") None)
            (txt "https://example.com/jobs/data-analyst"))) <> []
  /\ application_link
       (snd (get_job_details sample_world (txt "https://example.com/jobs/data-analyst")))
     <> [].
Proof.
  pose proof (C1_get_job_details_record
                (static_site (txt "<p>We are hiring.</p>") (txt "We are hiring.") None)
                (txt "https://example.com/jobs/data-analyst")) as H1.
  pose proof (C1_get_job_details_record sample_world
                (txt "https://example.com/jobs/data-analyst")) as H2.
  cbv zeta in H1, H2.
  destruct H1 as (_ & _ & _ & H1 & _). destruct H2 as (_ & _ & _ & H2 & _).
  split; [apply H1|apply H2]; discriminate.
Defined.

(** C1 as stated fails: a page that names no benefit is fetched and
    processed without any exception, and the record's list of benefits
    is empty. *)
Lemma C1_benefits_left_empty :
  let W := static_site (txt "<html><body><p>We are hiring.</p></body></html>")
                       (txt "We are hiring.") None in
  let r := snd (get_job_details W (txt "https://example.com/jobs/data-analyst")) in
  snd (get_job_details_try W (txt "https://example.com/jobs/data-analyst")) = Ok r
  /\ benefits r = []
  /\ all_fields_populated r = false.
Proof. vm_compute. repeat split. Qed.

(** The job type can be left empty as well: after the label
    ["Job Type:"] the capture group takes the blank that precedes a full
    stop, and [strip] leaves nothing of it. *)
Lemma job_type_left_empty :
  let W := static_site (txt "<p>Job Type: .</p>") (txt "Job Type: .") None in
  job_type (snd (get_job_details W (txt "https://example.com/jobs/data-analyst")))
  = [].
Proof. vm_compute. reflexivity. Qed.

(** ** Requirements and benefits *)

Lemma text_eqb_eq a b : text_eqb a b = true <-> a = b.
Proof.
  revert b. induction a as [|x a IH]; intros [|y b]; simpl;
    try (split; [discriminate|congruence]); [tauto|].
  rewrite andb_true_iff, Ascii.eqb_eq, IH. split.
  - intros [-> ->]. reflexivity.
  - intros H. inversion H. auto.
Qed.

Lemma dedup_go_spec seen l :
  NoDup (dedup_go seen l) /\ forall x, In x (dedup_go seen l) -> ~ In x seen.
Proof.
  revert seen. induction l as [|x rest IH]; intros seen; simpl.
  - split; [constructor|tauto].
  - destruct (existsb (text_eqb x) seen) eqn:E.
    + apply IH.
    + destruct (IH (x :: seen)) as [N S]. split.
      * constructor; [|exact N]. intros H. apply S in H. apply H. left. reflexivity.
      * intros y [<-|H].
        -- intros Hin. assert (existsb (text_eqb x) seen = true); [|congruence].
           apply existsb_exists. exists x. split; [exact Hin|].
           apply text_eqb_eq. reflexivity.
        -- intros Hin. apply S in H. apply H. right. exact Hin.
Qed.

Lemma dedup_nodup l : NoDup (dedup l).
Proof. apply dedup_go_spec. Qed.

Lemma firstn_in {A} n (l : list A) x : In x (firstn n l) -> In x l.
Proof.
  revert l. induction n as [|n IH]; intros [|y l]; simpl; try tauto.
  intros [H|H]; auto.
Qed.

Lemma firstn_nodup {A} n (l : list A) : NoDup l -> NoDup (firstn n l).
Proof.
  revert l. induction n as [|n IH]; intros [|y l] H; simpl; try constructor.
  - inversion H; subst. intros Hin. apply firstn_in in Hin. contradiction.
  - inversion H; subst. apply IH. assumption.
Qed.

(** The two extractors deliver lists without duplicates, of at most 10
    and at most 8 entries. *)
Lemma extractors_deduplicate text_content :
  NoDup (extract_job_requirements text_content)
  /\ length (extract_job_requirements text_content) <= 10
  /\ NoDup (extract_benefits text_content)
  /\ length (extract_benefits text_content) <= 8.
Proof.
  unfold extract_job_requirements, extract_benefits.
  repeat split; auto using firstn_nodup, dedup_nodup, firstn_le_length.
Qed.

(** The fallback of [get_job_details] keeps to 10 entries as well. *)
Lemma fallback_requirements_length url text_content :
  length (fallback_requirements url text_content) <= 10.
Proof.
  unfold fallback_requirements.
  destruct (potential_requirements text_content) eqn:E.
  - simpl. lia.
  - apply firstn_le_length.
Qed.

(** C3, the failing input.  A page whose text states one requirement in
    two paragraphs has no labelled section and none of the skill
    phrases, so the requirements come from the keyword fallback inside
    [get_job_details]; that path cuts the list at 10 entries and does
    not remove duplicates, and the record lists the sentence twice. *)
Theorem C3_fallback_keeps_duplicates :
  let r := snd (get_job_details repeated_requirement_site
                                (txt "https://example.com/jobs/python-developer")) in
  extract_job_requirements repeated_requirement_text = []
  /\ requirements r = [txt "required for this role."; txt "required for this role."]
  /\ ~ NoDup (requirements r).
Proof.
  assert (H : requirements
                (snd (get_job_details repeated_requirement_site
                        (txt "https://example.com/jobs/python-developer")))
              = [txt "required for this role."; txt "required for this role."])
    by (vm_compute; reflexivity).
  cbv zeta. rewrite H. split; [vm_compute; reflexivity|]. split; [reflexivity|].
  intros N. inversion N as [|x l Hin _]; subst. apply Hin. left. reflexivity.
Qed.

(** ** Secondary recovery *)

Lemma try_alternate_trace W result d q :
  fst (try_alternate W result d q)
  = [Requested (dict_get (hit_href result) [])
               [(txt "User-Agent", txt (nth 2 user_agents ""%string))] 10].
Proof.
  unfold try_alternate, http_get, bind.
  destruct (requests_get W _ _ _) as [resp|]; [|reflexivity].
  destruct (status_code resp =? 200)%Z; [|reflexivity].
  destruct (truthy d); [reflexivity|].
  unfold lift. destruct (extract_job_description _ _); reflexivity.
Qed.

Lemma requests_cons_requested url headers timeout tr :
  requests (Requested url headers timeout :: tr) = S (requests tr).
Proof. reflexivity. Qed.

Lemma alternate_sources_trace W results d q :
  searched (fst (alternate_sources W results d q)) = false
  /\ requests (fst (alternate_sources W results d q)) <= length results.
Proof.
  revert d q. induction results as [|result rest IH]; intros d q;
    cbn [alternate_sources].
  - split; [reflexivity|]. cbv. lia.
  - pose proof (try_alternate_trace W result d q) as T.
    destruct (try_alternate W result d q) as [tr [[[d1 q1] b]|]];
      cbn [fst] in T; subst tr.
    + destruct b.
      * cbn [fst]. split; [reflexivity|].
        rewrite requests_cons_requested. cbn [length]. cbv. lia.
      * destruct (IH d1 q1) as [S R].
        destruct (alternate_sources W rest d1 q1) as [tr' r].
        cbn [fst app] in *. split; [exact S|].
        rewrite requests_cons_requested. cbn [length]. lia.
    + destruct (IH d q) as [S R].
      destruct (alternate_sources W rest d q) as [tr' r].
      cbn [fst app] in *. split; [exact S|].
      rewrite requests_cons_requested. cbn [length]. lia.
Qed.

(** The trace of the secondary recovery: nothing when it is not
    attempted, and otherwise the search followed by the requests of the
    loop. *)
Lemma secondary_recovery_trace W s d q :
  fst (secondary_recovery W s d q) =
    if (negb (truthy d) || negb (truthy q)) && truthy (fst (page_title_parts s))
    then Searched (recovery_query s) 3
         :: match ddgs_text W (recovery_query s) 3 with
            | Ok alt_results => fst (alternate_sources W alt_results d q)
            | Raised => []
            end
    else [].
Proof.
  unfold secondary_recovery, recovery_query.
  destruct (negb (truthy d) || negb (truthy q)); [|reflexivity].
  destruct (page_title_parts s) as [title company]. cbn [fst andb].
  destruct (truthy title); [|reflexivity].
  assert (E : (if truthy company
               then (title ++ txt " job description") ++ txt " " ++ company
               else title ++ txt " job description")
              = title ++ txt " job description"
                ++ (if truthy company then txt " " ++ company else [])).
  { destruct (truthy company).
    - rewrite <- app_assoc. reflexivity.
    - rewrite app_nil_r. reflexivity. }
  rewrite E. unfold catch, bind, search.
  destruct (ddgs_text W _ 3) as [alt_results|]; [|reflexivity].
  destruct (alternate_sources W alt_results d q) as [tr [r|]]; simpl.
  - reflexivity.
  - rewrite app_nil_r. reflexivity.
Qed.





(** ** The matcher on literals and on repetitions of one class *)

Lemma consume_rest w st t : m_rest st = w ++ t -> m_rest (consume w st) = t.
Proof.
  revert st. induction w as [|c w IH]; intros st H; simpl in *; [exact H|].
  apply IH. simpl. rewrite H. reflexivity.
Qed.

Lemma consume_open w st : m_open (consume w st) = m_open st.
Proof.
  revert st. induction w as [|c w IH]; intros st; simpl; [reflexivity|].
  rewrite IH. reflexivity.
Qed.

Lemma consume_g1 w st :
  m_g1 (consume w st) = if m_open st then rev w ++ m_g1 st else m_g1 st.
Proof.
  revert st. induction w as [|c w IH]; intros st; simpl.
  - destruct (m_open st); reflexivity.
  - rewrite IH. simpl. destruct (m_open st); [|reflexivity].
    rewrite <- app_assoc. reflexivity.
Qed.

Lemma starts_with_split p s : starts_with p s = true -> s = p ++ skipn (length p) s.
Proof.
  revert s. induction p as [|x p IH]; intros [|y s]; simpl; try discriminate; auto.
  intros H. apply andb_true_iff in H as [H1 H2].
  apply Ascii.eqb_eq in H1. subst. f_equal. apply IH. exact H2.
Qed.

Lemma starts_with_app p t : starts_with p (p ++ t) = true.
Proof.
  induction p as [|x p IH]; simpl; [reflexivity|].
  rewrite Ascii.eqb_refl. exact IH.
Qed.

Lemma rmatch_seq_of_ch l st k :
  rmatch (seq_of ch l) st k
  = if starts_with l (m_rest st) then k (consume l st) else None.
Proof.
  revert st. induction l as [|c l IH]; intros st; [reflexivity|].
  destruct l as [|d l].
  - cbn [seq_of ch rmatch starts_with consume].
    destruct (m_rest st) as [|x t]; [reflexivity|].
    destruct (Ascii.eqb_spec c x) as [->|]; reflexivity.
  - change (seq_of ch (c :: d :: l)) with (Seq (ch c) (seq_of ch (d :: l))).
    cbn [rmatch ch].
    destruct (m_rest st) as [|x t] eqn:E; [reflexivity|].
    cbn [starts_with].
    destruct (Ascii.eqb_spec c x) as [->|]; [|reflexivity].
    rewrite IH. cbn [andb consume]. rewrite E. reflexivity.
Qed.

Lemma rmatch_lit s st k :
  rmatch (lit s) st k
  = if starts_with (txt s) (m_rest st) then k (consume (txt s) st) else None.
Proof. apply rmatch_seq_of_ch. Qed.

Lemma star_loop_greedy_chr p fuel st k :
  length (m_rest st) < fuel ->
  star_loop (rmatch (Chr p)) true fuel st k = greedy_from p k (m_rest st) st.
Proof.
  revert st. induction fuel as [|f IH]; intros st H; [lia|].
  cbn [star_loop rmatch].
  destruct (m_rest st) as [|c t] eqn:E; [reflexivity|].
  cbn [greedy_from]. destruct (p c); [|reflexivity].
  cbn [advance m_rest length].
  destruct (Nat.ltb_spec (length t) (S (length t))) as [_|]; [|lia].
  rewrite IH by (simpl in *; lia). reflexivity.
Qed.

Lemma rmatch_spaces st k :
  rmatch spaces st k = greedy_from is_space k (m_rest st) st.
Proof.
  unfold spaces, star, space. cbn [rmatch]. apply star_loop_greedy_chr. lia.
Qed.

Lemma star_loop_lazy_any fuel st k :
  length (m_rest st) < fuel ->
  star_loop (rmatch any_char) false fuel st k = lazy_from k (m_rest st) st.
Proof.
  revert st. induction fuel as [|f IH]; intros st H; [lia|].
  cbn [star_loop]. unfold any_char at 1. cbn [rmatch].
  destruct (m_rest st) as [|c t] eqn:E.
  - cbn [lazy_from]. reflexivity.
  - cbn [lazy_from advance m_rest length].
    destruct (Nat.ltb_spec (length t) (S (length t))) as [_|]; [|lia].
    rewrite IH by (simpl in *; lia). reflexivity.
Qed.

Lemma rmatch_lazy_any st k :
  rmatch (lazy_star any_char) st k = lazy_from k (m_rest st) st.
Proof.
  unfold lazy_star. cbn [rmatch]. apply star_loop_lazy_any. lia.
Qed.

Lemma leading_space_lstrip s : s = leading_space s ++ lstrip s.
Proof.
  induction s as [|c t IH]; simpl; [reflexivity|].
  destruct (is_space c); simpl; [f_equal; exact IH|reflexivity].
Qed.

(** The greedy run of whitespace goes to its end when the continuation
    accepts there. *)
Lemma greedy_space_longest k rest st x :
  m_rest st = rest ->
  k (consume (leading_space rest) st) = Some x ->
  greedy_from is_space k rest st = Some x.
Proof.
  revert st. induction rest as [|c t IH]; intros st E H;
    cbn [leading_space greedy_from] in *; [exact H|].
  destruct (is_space c); [|exact H].
  cbn [consume] in H. rewrite E in H. cbn [tl] in H.
  rewrite (IH (advance c t st) eq_refl H). reflexivity.
Qed.

(** When the continuation rejects every position that starts with
    whitespace, only the end of the run counts. *)
Lemma greedy_space_only_end k rest st :
  (forall st' c t, m_rest st' = c :: t -> is_space c = true -> k st' = None) ->
  m_rest st = rest ->
  greedy_from is_space k rest st = k (consume (leading_space rest) st).
Proof.
  intros Hk. revert st. induction rest as [|c t IH]; intros st E;
    cbn [leading_space greedy_from]; [reflexivity|].
  destruct (is_space c) eqn:Ec; [|reflexivity].
  cbn [consume]. rewrite E. cbn [tl].
  rewrite (IH (advance c t st)) by reflexivity.
  destruct (k (consume (leading_space t) (advance c t st))) eqn:K; [reflexivity|].
  eapply Hk; eassumption.
Qed.

(** ** The fenced block of a reply *)

Lemma space_not_backtick c : is_space c = true -> Ascii.eqb "`"%char c = false.
Proof.
  intros H. destruct (Ascii.eqb_spec "`"%char c) as [<-|]; [|reflexivity].
  vm_compute in H. discriminate.
Qed.

Lemma fence_close_not_at_space c t :
  is_space c = true -> starts_with fence_close (c :: t) = false.
Proof.
  intros H.
  change (starts_with fence_close (c :: t))
    with (Ascii.eqb "`"%char c && starts_with (txt "``") t).
  rewrite space_not_backtick by exact H. reflexivity.
Qed.

Lemma fence_close_lstrip s :
  starts_with fence_close s = true -> lstrip s = s.
Proof.
  destruct s as [|c t]; [reflexivity|]. intros H. simpl.
  destruct (is_space c) eqn:E; [|reflexivity].
  rewrite fence_close_not_at_space in H by exact E. discriminate.
Qed.

(** Optional whitespace and then the closing fence. *)
Lemma rmatch_close_fence st k :
  rmatch spaces st (fun st' => rmatch (lit "```") st' k)
  = if starts_with fence_close (lstrip (m_rest st))
    then k (consume fence_close (consume (leading_space (m_rest st)) st))
    else None.
Proof.
  rewrite rmatch_spaces, greedy_space_only_end; [| |reflexivity].
  - rewrite rmatch_lit.
    rewrite (consume_rest (leading_space (m_rest st)) st (lstrip (m_rest st)))
      by apply leading_space_lstrip.
    reflexivity.
  - intros st' c t E Hc. rewrite rmatch_lit, E.
    change (txt "```") with fence_close.
    rewrite fence_close_not_at_space by exact Hc. reflexivity.
Qed.

(** The lazy scan for the closing fence captures [before_close]. *)
Lemma lazy_scan_close body st :
  m_rest st = body -> m_open st = true ->
  option_map m_g1
    (lazy_from (fun st' => rmatch spaces (close_group st')
                             (fun st4 => rmatch (lit "```") st4 Some))
               body st)
  = option_map (fun u => rev u ++ m_g1 st) (before_close body).
Proof.
  revert st. induction body as [|c t IH]; intros st E Ho.
  - cbn [lazy_from before_close]. rewrite rmatch_close_fence.
    cbn [close_group m_rest]. rewrite E. reflexivity.
  - cbn [lazy_from before_close]. rewrite rmatch_close_fence.
    cbn [close_group m_rest]. rewrite E.
    destruct (starts_with fence_close (lstrip (c :: t))) eqn:F.
    + cbn [option_map]. rewrite !consume_g1, !consume_open. reflexivity.
    + rewrite (IH (advance c t st)) by (simpl; auto).
      destruct (before_close t) as [u|]; [|reflexivity].
      cbn [option_map advance m_g1 rev]. rewrite Ho, <- app_assoc. reflexivity.
Qed.

Lemma rmatch_fenced_json st k :
  rmatch fenced_json st k
  = rmatch (lit "```json") st (fun st1 =>
      rmatch spaces st1 (fun st2 =>
        rmatch (lazy_star any_char) (open_group st2) (fun st3 =>
          rmatch spaces (close_group st3) (fun st4 =>
            rmatch (lit "```") st4 k)))).
Proof. reflexivity. Qed.

Lemma match_here_fenced pre after u :
  before_close (lstrip after) = Some u ->
  option_map group1 (match_here fenced_json pre (fence_open ++ after)) = Some u.
Proof.
  intros Hu. unfold match_here. rewrite rmatch_fenced_json.
  rewrite rmatch_lit.
  replace (m_rest (start_state pre (fence_open ++ after))) with (fence_open ++ after)
    by reflexivity.
  replace (txt "```json") with fence_open by reflexivity.
  rewrite starts_with_app.
  remember (consume fence_open (start_state pre (fence_open ++ after))) as st1 eqn:D1.
  assert (E1 : m_rest st1 = after) by (subst st1; apply consume_rest; reflexivity).
  rewrite rmatch_spaces, E1.
  remember (consume (leading_space after) st1) as st2 eqn:D2.
  assert (E2 : m_rest st2 = lstrip after)
    by (subst st2; apply consume_rest; rewrite E1; apply leading_space_lstrip).
  pose proof (lazy_scan_close (lstrip after) (open_group st2) E2 eq_refl) as L.
  rewrite Hu in L.
  match type of L with
  | option_map _ ?scan = _ => destruct scan as [x|] eqn:S; [|discriminate]
  end.
  rewrite (greedy_space_longest _ after st1 x E1).
  - cbn [option_map] in *. inversion L as [L1]. unfold group1.
    rewrite L1. cbn [open_group m_g1]. rewrite app_nil_r, rev_involutive. reflexivity.
  - rewrite <- D2. rewrite rmatch_lazy_any.
    replace (m_rest (open_group st2)) with (m_rest st2) by reflexivity.
    rewrite E2. exact S.
Qed.

Lemma lstrip_spaces u v : forallb is_space u = true -> lstrip (u ++ v) = lstrip v.
Proof.
  induction u as [|c u IH]; simpl; [reflexivity|].
  intros H. apply andb_true_iff in H as [H1 H2]. rewrite H1. auto.
Qed.

Lemma lstrip_snoc l c :
  lstrip (l ++ [c])
  = if forallb is_space l then (if is_space c then [] else [c])
    else lstrip l ++ [c].
Proof.
  induction l as [|x l IH]; simpl; [destruct (is_space c); reflexivity|].
  destruct (is_space x); simpl; [exact IH|reflexivity].
Qed.

Lemma forallb_rev {A} (f : A -> bool) l : forallb f (rev l) = forallb f l.
Proof.
  induction l as [|x l IH]; simpl; [reflexivity|].
  rewrite forallb_app, IH. simpl. rewrite andb_true_r. apply andb_comm.
Qed.

Lemma lstrip_all_space l : forallb is_space l = true -> lstrip l = [].
Proof.
  induction l as [|x l IH]; simpl; [reflexivity|].
  intros H. apply andb_true_iff in H as [H1 H2]. rewrite H1. auto.
Qed.

Lemma rstrip_cons c u :
  rstrip (c :: u)
  = if is_space c && forallb is_space u then [] else c :: rstrip u.
Proof.
  unfold rstrip. cbn [rev]. rewrite lstrip_snoc, forallb_rev.
  destruct (forallb is_space u) eqn:E.
  - rewrite andb_true_r. destruct (is_space c); [reflexivity|].
    rewrite lstrip_all_space by (rewrite forallb_rev; exact E). reflexivity.
  - rewrite andb_false_r, rev_app_distr. reflexivity.
Qed.

Lemma str_find_cons sub c t :
  starts_with sub (c :: t) = false ->
  str_find sub (c :: t) = option_map S (str_find sub t).
Proof.
  intros H. unfold str_find. cbn [str_find_from]. rewrite H.
  rewrite str_find_from_shift. destruct (str_find_from sub t 0); reflexivity.
Qed.

Lemma str_find_here sub s : starts_with sub s = true -> str_find sub s = Some 0.
Proof.
  intros H. unfold str_find. destruct s; simpl; rewrite H; reflexivity.
Qed.

Lemma str_find_starts sub s j :
  str_find sub s = Some j -> starts_with sub (skipn j s) = true.
Proof.
  revert j. induction s as [|c t IH]; intros j.
  - unfold str_find. simpl. destruct (starts_with sub []) eqn:E; [|discriminate].
    intros H. inversion H. exact E.
  - destruct (starts_with sub (c :: t)) eqn:E.
    + rewrite str_find_here by exact E. intros H. inversion H. exact E.
    + rewrite str_find_cons by exact E.
      destruct (str_find sub t) as [j'|]; [|discriminate].
      intros H. inversion H. simpl. apply IH. reflexivity.
Qed.

(** When only whitespace separates the head of [u] from a closing
    fence, that fence is the first one of [u]. *)
Lemma fence_after_spaces u k :
  starts_with fence_close (lstrip u) = true ->
  str_find fence_close u = Some k ->
  forallb is_space (firstn k u) = true.
Proof.
  revert k. induction u as [|x u IH]; intros k H1 H2.
  - destruct k; reflexivity.
  - destruct (starts_with fence_close (x :: u)) eqn:E.
    + rewrite str_find_here in H2 by exact E. inversion H2. reflexivity.
    + rewrite str_find_cons in H2 by exact E.
      destruct (str_find fence_close u) as [k'|] eqn:Fu; [|discriminate].
      inversion H2; subst k. cbn [lstrip] in H1. cbn [firstn forallb].
      destruct (is_space x) eqn:Ex.
      * cbn [andb]. apply IH; auto.
      * rewrite H1 in E. discriminate.
Qed.

(** With the closing fence first found at [j], the scan captures the
    text before it without its trailing whitespace. *)
Lemma before_close_find s j :
  str_find fence_close s = Some j -> before_close s = Some (rstrip (firstn j s)).
Proof.
  revert j. induction s as [|c t IH]; intros j Hj.
  - unfold str_find in Hj. simpl in Hj. discriminate.
  - cbn [before_close].
    destruct (starts_with fence_close (c :: t)) eqn:E0.
    + rewrite (fence_close_lstrip _ E0), E0.
      rewrite str_find_here in Hj by exact E0. inversion Hj. reflexivity.
    + rewrite str_find_cons in Hj by exact E0.
      destruct (str_find fence_close t) as [j'|] eqn:Ft; [|discriminate].
      inversion Hj; subst j. clear Hj.
      rewrite (IH j' eq_refl). cbn [firstn option_map].
      pose proof (str_find_starts _ _ _ Ft) as St.
      rewrite rstrip_cons.
      destruct (is_space c && forallb is_space (firstn j' t)) eqn:A.
      * apply andb_true_iff in A as [A1 A2].
        assert (L : lstrip (c :: t) = skipn j' t).
        { cbn [lstrip]. rewrite A1. rewrite <- (firstn_skipn j' t) at 1.
          rewrite lstrip_spaces by exact A2. apply fence_close_lstrip. exact St. }
        rewrite L, St. reflexivity.
      * destruct (starts_with fence_close (lstrip (c :: t))) eqn:F; [|reflexivity].
        exfalso. cbn [lstrip] in F. destruct (is_space c) eqn:Ec.
        -- cbn [andb] in A. rewrite (fence_after_spaces t j' F Ft) in A.
           discriminate.
        -- rewrite F in E0. discriminate.
Qed.

Lemma lstrip_find after j :
  str_find fence_close after = Some j ->
  exists j', str_find fence_close (lstrip after) = Some j'
             /\ firstn j' (lstrip after) = lstrip (firstn j after).
Proof.
  revert j. induction after as [|c t IH]; intros j Hj.
  - unfold str_find in Hj. simpl in Hj. discriminate.
  - simpl. destruct (is_space c) eqn:Ec.
    + rewrite str_find_cons in Hj by (apply fence_close_not_at_space; exact Ec).
      destruct (str_find fence_close t) as [j0|] eqn:Ft; [|discriminate].
      inversion Hj; subst j. destruct (IH j0 eq_refl) as (j' & H1 & H2).
      exists j'. split; [exact H1|]. simpl. rewrite Ec. exact H2.
    + exists j. split; [exact Hj|]. destruct j; simpl; [reflexivity|].
      rewrite Ec. reflexivity.
Qed.

Lemma before_close_strip after j :
  str_find fence_close after = Some j ->
  before_close (lstrip after) = Some (str_strip (firstn j after)).
Proof.
  intros Hj. destruct (lstrip_find _ _ Hj) as (j' & H1 & H2).
  rewrite (before_close_find _ _ H1), H2. reflexivity.
Qed.

Lemma str_find_app_some sub x y : str_find sub (x ++ sub ++ y) <> None.
Proof.
  induction x as [|c x IH].
  - cbn [app]. rewrite str_find_here by apply starts_with_app. discriminate.
  - cbn [app]. destruct (starts_with sub (c :: x ++ sub ++ y)) eqn:E.
    + rewrite str_find_here by exact E. discriminate.
    + rewrite str_find_cons by exact E.
      destruct (str_find sub (x ++ sub ++ y)); [discriminate|congruence].
Qed.

Lemma str_find_app_le sub x y i :
  str_find sub (x ++ sub ++ y) = Some i -> i <= length x.
Proof.
  revert i. induction x as [|c x IH]; intros i.
  - cbn [app]. rewrite str_find_here by apply starts_with_app.
    intros H. inversion H. simpl. lia.
  - cbn [app]. destruct (starts_with sub (c :: x ++ sub ++ y)) eqn:E.
    + rewrite str_find_here by exact E. intros H. inversion H. lia.
    + rewrite str_find_cons by exact E.
      destruct (str_find sub (x ++ sub ++ y)) as [i'|]; [|discriminate].
      intros H. inversion H. specialize (IH i' eq_refl). simpl. lia.
Qed.

(** A second text that follows an occurrence of a first one is still
    there after the first occurrence of the first. *)
Lemma later_occurrence sub1 sub2 a mid b i :
  str_find sub1 (a ++ sub1 ++ mid ++ sub2 ++ b) = Some i ->
  str_find sub2 (skipn (i + length sub1) (a ++ sub1 ++ mid ++ sub2 ++ b)) <> None.
Proof.
  intros H. apply str_find_app_le in H.
  replace (a ++ sub1 ++ mid ++ sub2 ++ b)
    with ((a ++ sub1) ++ mid ++ sub2 ++ b) by (rewrite <- app_assoc; reflexivity).
  rewrite skipn_app.
  replace (i + length sub1 - length (a ++ sub1)) with 0
    by (rewrite length_app; lia).
  cbn [skipn]. rewrite app_assoc. apply str_find_app_some.
Qed.

Lemma denote_fenced w :
  denote fenced_json w ->
  exists mid, w = fence_open ++ mid ++ fence_close.
Proof.
  unfold fenced_json. cbn [seqs denote].
  intros (u1 & v1 & -> & H1 & u2 & v2 & -> & _ & u3 & v3 & -> & _
          & u4 & u5 & -> & _ & H5).
  apply denote_lit in H1. apply denote_lit in H5. subst.
  exists (u2 ++ u3 ++ u4). unfold fence_open, fence_close.
  repeat rewrite <- app_assoc. reflexivity.
Qed.

Lemma match_here_fenced_open pre s st :
  match_here fenced_json pre s = Some st -> starts_with fence_open s = true.
Proof.
  unfold match_here. rewrite rmatch_fenced_json, rmatch_lit.
  replace (m_rest (start_state pre s)) with s by reflexivity.
  replace (txt "```json") with fence_open by reflexivity.
  destruct (starts_with fence_open s); [reflexivity|discriminate].
Qed.

Lemma search_fenced_close acc s st :
  search_from fenced_json acc s = Some st ->
  exists a mid b, s = a ++ fence_open ++ mid ++ fence_close ++ b.
Proof.
  intros H. apply search_from_sound in H as (a & w & D & -> & _).
  apply denote_fenced in D as (mid & ->).
  exists a, mid, (m_rest st). repeat rewrite <- app_assoc. reflexivity.
Qed.

(** The fenced pattern finds the first [```json], and captures what
    stands between it and the next [```], stripped. *)
Lemma search_from_fenced content acc :
  option_map group1 (search_from fenced_json acc content) = fenced_contents content.
Proof.
  revert acc. induction content as [|c t IH]; intros acc.
  - reflexivity.
  - destruct (starts_with fence_open (c :: t)) eqn:E.
    + pose proof (starts_with_split _ _ E) as Hs.
      unfold fenced_contents. rewrite str_find_here by exact E.
      change (skipn (0 + 7) (c :: t)) with (skipn (length fence_open) (c :: t)).
      set (after := skipn (length fence_open) (c :: t)) in *.
      destruct (str_find fence_close after) as [j|] eqn:F.
      * pose proof (match_here_fenced acc after _ (before_close_strip _ _ F)) as M.
        rewrite <- Hs in M. cbn [search_from].
        destruct (match_here fenced_json acc (c :: t)); [exact M|discriminate].
      * destruct (search_from fenced_json acc (c :: t)) as [st|] eqn:S; [|reflexivity].
        exfalso. apply search_fenced_close in S as (a & mid & b & S).
        pose proof (later_occurrence fence_open fence_close a mid b 0) as L.
        rewrite <- S in L. rewrite str_find_here in L by exact E.
        apply L; [reflexivity|]. exact F.
    + cbn [search_from].
      destruct (match_here fenced_json acc (c :: t)) eqn:M.
      * apply match_here_fenced_open in M. congruence.
      * rewrite IH. unfold fenced_contents. rewrite str_find_cons by exact E.
        destruct (str_find fence_open t); reflexivity.
Qed.

Lemma fenced_json_search content :
  option_map group1 (re_search fenced_json content) = fenced_contents content.
Proof. apply search_from_fenced. Qed.

Lemma denote_braces w :
  denote braces w -> exists mid, w = txt "{" ++ mid ++ txt "}".
Proof.
  unfold braces. cbn [seqs denote].
  intros (u1 & v1 & -> & H1 & u2 & u3 & -> & _ & H3).
  apply denote_ch in H1. apply denote_ch in H3. subst. exists u2. reflexivity.
Qed.

Lemma braces_absent content :
  has_braces content = false -> re_search braces content = None.
Proof.
  intros H. destruct (re_search braces content) as [st|] eqn:S; [|reflexivity].
  exfalso. apply search_from_sound in S as (a & w & D & E & _).
  apply denote_braces in D as (mid & ->).
  assert (E' : content = a ++ txt "{" ++ mid ++ txt "}" ++ m_rest st)
    by (rewrite E; repeat rewrite <- app_assoc; reflexivity).
  unfold has_braces, str_contains in H.
  destruct (str_find (txt "{") content) as [i|] eqn:F.
  - pose proof (later_occurrence (txt "{") (txt "}") a mid (m_rest st) i) as L.
    rewrite <- E' in L. specialize (L F). change (length (txt "{")) with 1 in L.
    destruct (str_find (txt "}") (skipn (i + 1) content)); [discriminate|congruence].
  - rewrite E' in F. apply str_find_app_some in F. exact F.
Qed.

Lemma json_candidate_fenced content body :
  fenced_contents content = Some body -> json_candidate content = Some body.
Proof.
  intros H. unfold json_candidate. rewrite <- fenced_json_search in H.
  destruct (re_search fenced_json content); [|discriminate].
  exact H.
Qed.

Lemma json_candidate_none content :
  fenced_contents content = None -> has_braces content = false ->
  json_candidate content = None.
Proof.
  intros H1 H2. unfold json_candidate. rewrite <- fenced_json_search in H1.
  destruct (re_search fenced_json content); [discriminate|].
  rewrite braces_absent by exact H2. reflexivity.
Qed.

(** ** Fit scorer *)

(** C4 (as amended).  When the first [```json] fence of the reply is
    closed by a later [```] and the text between them (up to the first
    [```]), stripped, is valid JSON, the analysis is exactly its parsed
    value.  When the reply has no such fenced block and no opening brace
    followed by a closing one, the result is the fixed fallback whose
    [match_percentage] is 50.  When the service call raises, the result
    is the fallback whose [match_percentage] is 0. *)
Theorem C4_analyze_job_fit (W : World) (job_details : JobRecord)
        (resume_text : text) (llm : text -> outcome text) :
  (forall content body v,
      llm (fit_prompt job_details resume_text) = Ok content ->
      fenced_contents content = Some body ->
      json_loads W body = Ok v ->
      analyze_job_fit W job_details resume_text llm = v)
  /\ (forall content,
         llm (fit_prompt job_details resume_text) = Ok content ->
         fenced_contents content = None ->
         has_braces content = false ->
         analyze_job_fit W job_details resume_text llm = parse_fallback)
  /\ (llm (fit_prompt job_details resume_text) = Raised ->
      analyze_job_fit W job_details resume_text llm = error_fallback)
  /\ match_percentage parse_fallback = Some (JInt 50)
  /\ match_percentage error_fallback = Some (JInt 0).
Proof.
  unfold analyze_job_fit, analyze_job_fit_try. repeat split.
  - intros content body v -> F J.
    rewrite (json_candidate_fenced _ _ F), J. reflexivity.
  - intros content -> F B. rewrite (json_candidate_none _ F B). reflexivity.
  - intros ->. reflexivity.
Qed.

Lemma C4_analyze_job_fit_witness :
  analyze_job_fit (scorer_world [(good_body, good_analysis)])
                  (placeholder_record (txt "https://example.com/jobs/data-analyst"))
                  (txt "Five years of SQL and Python.")
                  (fun _ => Ok good_reply)
  = good_analysis
  /\ analyze_job_fit (scorer_world [])
                     (placeholder_record (txt "https://example.com/jobs/data-analyst"))
                     (txt "Five years of SQL and Python.")
                     (fun _ => Ok (txt "I cannot help with that."))
     = parse_fallback
  /\ analyze_job_fit (scorer_world [])
                     (placeholder_record (txt "https://example.com/jobs/data-analyst"))
                     (txt "Five years of SQL and Python.")
                     (fun _ => Raised)
     = error_fallback.
Proof.
  split; [|split].
  - apply (proj1 (C4_analyze_job_fit
                    (scorer_world [(good_body, good_analysis)])
                    (placeholder_record (txt "https://example.com/jobs/data-analyst"))
                    (txt "Five years of SQL and Python.")
                    (fun _ => Ok good_reply)) good_reply good_body good_analysis);
      reflexivity.
  - apply (proj1 (proj2 (C4_analyze_job_fit
                    (scorer_world [])
                    (placeholder_record (txt "https://example.com/jobs/data-analyst"))
                    (txt "Five years of SQL and Python.")
                    (fun _ => Ok (txt "I cannot help with that."))))
                 (txt "I cannot help with that."));
      reflexivity.
  - apply (proj1 (proj2 (proj2 (C4_analyze_job_fit
                    (scorer_world [])
                    (placeholder_record (txt "https://example.com/jobs/data-analyst"))
                    (txt "Five years of SQL and Python.")
                    (fun _ => Raised))))).
    reflexivity.
Defined.

(** C4 as stated fails: the reply is one fenced JSON block whose
    contents are valid JSON, with three backquotes inside a string; the
    capture stops at those, [json.loads] raises on the truncated text,
    and the result is the error fallback instead of the parsed value. *)
Lemma C4_fenced_reply_not_parsed :
  let W := scorer_world [(tip_body, tip_analysis)] in
  let job := placeholder_record (txt "https://example.com/jobs/data-analyst") in
  json_loads W tip_body = Ok tip_analysis
  /\ tip_reply = fence_open ++ [nl] ++ tip_body ++ [nl] ++ fence_close
  /\ analyze_job_fit W job (txt "Five years of SQL and Python.")
                     (fun _ => Ok tip_reply)
     = error_fallback
  /\ analyze_job_fit W job (txt "Five years of SQL and Python.")
                     (fun _ => Ok tip_reply)
     <> tip_analysis.
Proof.
  assert (H : analyze_job_fit (scorer_world [(tip_body, tip_analysis)])
                (placeholder_record (txt "https://example.com/jobs/data-analyst"))
                (txt "Five years of SQL and Python.") (fun _ => Ok tip_reply)
              = error_fallback) by (vm_compute; reflexivity).
  cbv zeta. split; [|split; [|split]].
  - vm_compute. reflexivity.
  - reflexivity.
  - exact H.
  - intros E. rewrite H in E. vm_compute in E. discriminate.
Qed.

(** C9 (as amended).  When the scorer parses JSON out of the reply, the
    analysis it returns is the parsed value itself: its
    [match_percentage] is whatever the reply gave, and lies in 0..100
    exactly when the reply's value does. *)
Theorem C9_match_percentage_unchecked (W : World) (job_details : JobRecord)
        (resume_text : text) (llm : text -> outcome text)
        (content candidate : text) (v : json) :
  llm (fit_prompt job_details resume_text) = Ok content ->
  json_candidate content = Some candidate ->
  json_loads W candidate = Ok v ->
  analyze_job_fit W job_details resume_text llm = v
  /\ match_percentage (analyze_job_fit W job_details resume_text llm)
     = match_percentage v
  /\ percentage_in_range (analyze_job_fit W job_details resume_text llm)
     = percentage_in_range v.
Proof.
  intros L C J.
  assert (H : analyze_job_fit W job_details resume_text llm = v).
  { unfold analyze_job_fit, analyze_job_fit_try. rewrite L, C, J. reflexivity. }
  rewrite H. auto.
Qed.

Lemma C9_match_percentage_unchecked_witness :
  analyze_job_fit (scorer_world [(good_body, good_analysis)])
                  (placeholder_record (txt "https://example.com/jobs/data-analyst"))
                  (txt "Five years of SQL and Python.")
                  (fun _ => Ok good_reply)
  = good_analysis.
Proof.
  apply (C9_match_percentage_unchecked
           (scorer_world [(good_body, good_analysis)])
           (placeholder_record (txt "https://example.com/jobs/data-analyst"))
           (txt "Five years of SQL and Python.")
           (fun _ => Ok good_reply) good_reply good_body good_analysis);
    reflexivity.
Defined.

(** C9 as stated fails: the reply is a JSON object that parses, and the
    analysis carries its [match_percentage] of 150. *)
Lemma C9_percentage_out_of_range :
  let W := scorer_world [(eager_body, eager_analysis)] in
  let job := placeholder_record (txt "https://example.com/jobs/data-analyst") in
  json_candidate eager_body = Some eager_body
  /\ json_loads W eager_body = Ok eager_analysis
  /\ match_percentage
       (analyze_job_fit W job (txt "Five years of SQL and Python.")
                        (fun _ => Ok eager_body))
     = Some (JInt 150)
  /\ percentage_in_range
       (analyze_job_fit W job (txt "Five years of SQL and Python.")
                        (fun _ => Ok eager_body))
     = false.
Proof. vm_compute. repeat split. Qed.

(** * Further properties of the code *)

(** ** Fetching the page *)

Lemma fst_bind {A B} (m : M A) (f : A -> M B) :
  fst (bind m f)
  = fst m ++ match snd m with
             | Ok a => fst (f a)
             | Raised => []
             end.
Proof.
  unfold bind. destruct m as [tr [a|]]; cbn [fst snd].
  - destruct (f a). reflexivity.
  - rewrite app_nil_r. reflexivity.
Qed.

Lemma snd_bind {A B} (m : M A) (f : A -> M B) :
  snd (bind m f)
  = match snd m with
    | Ok a => snd (f a)
    | Raised => Raised
    end.
Proof.
  unfold bind. destruct m as [tr [a|]]; cbn [fst snd]; [|reflexivity].
  destruct (f a). reflexivity.
Qed.

(** The rotation tries the identities in order and stops at the first
    status 200. *)
Lemma rotate_agents_spec W url agents current :
  exists n,
    n <= length agents
    /\ fst (rotate_agents W url agents current)
       = map (page_request url) (firstn n agents)
    /\ match snd (rotate_agents W url agents current) with
       | Ok r => (n = 0 -> r = current)
                 /\ (0 < n -> status_code r = 200%Z \/ n = length agents)
       | Raised => 0 < n
       end.
Proof.
  revert current. induction agents as [|agent rest IH]; intros current.
  - exists 0. cbn [rotate_agents ret fst snd firstn map length].
    repeat split; auto; lia.
  - cbn [rotate_agents]. rewrite fst_bind, snd_bind.
    unfold http_get at 1 2 3. cbn [fst snd].
    destruct (requests_get W url (browser_headers agent) 15) as [r|].
    + destruct (status_code r =? 200)%Z eqn:E.
      * exists 1. cbn [ret fst snd firstn map length app].
        apply Z.eqb_eq in E. split; [lia|]. split; [reflexivity|].
        split; [discriminate|]. intros _. left. exact E.
      * destruct (IH r) as (n & Hn & Ht & Hr). exists (S n).
        cbn [firstn map length app]. rewrite Ht.
        split; [lia|]. split; [reflexivity|].
        destruct (snd (rotate_agents W url rest r)) as [r'|].
        -- destruct Hr as [H0 H1]. split; [discriminate|]. intros _.
           destruct n.
           ++ rewrite (H0 eq_refl). destruct rest; [right; reflexivity|].
              (* no identity left was tried: the list is empty *)
              exfalso. cbn [rotate_agents] in Ht. rewrite fst_bind in Ht.
              unfold http_get in Ht. cbn [fst firstn map app] in Ht. discriminate.
           ++ destruct (H1 ltac:(lia)) as [H|H]; [left; exact H|right; lia].
        -- lia.
    + exists 1. cbn [fst snd firstn map length app]. split; [lia|].
      split; [reflexivity|lia].
Qed.

Lemma user_agents_cons :
  user_agents = hd ""%string user_agents :: tl user_agents.
Proof. reflexivity. Qed.

Lemma fetch_page_spec (W : World) (url : text) :
  exists n,
    1 <= n <= 4
    /\ fst (fetch_page W url) = map (page_request url) (firstn n user_agents)
    /\ match snd (fetch_page W url) with
       | Ok r => (status_code r = 200%Z \/ n = 4)
                 /\ error_status (status_code r) = false
       | Raised => True
       end.
Proof.
  unfold fetch_page.
  set (agent0 := hd ""%string user_agents). set (rest := tl user_agents).
  assert (Hrest : length rest = 3) by reflexivity.
  assert (Hua : forall n, firstn (S n) user_agents = agent0 :: firstn n rest)
    by reflexivity.
  rewrite fst_bind, snd_bind. unfold http_get at 1 2 3. cbn [fst snd].
  destruct (requests_get W url (browser_headers agent0) 15) as [first|].
  2:{ exists 1. rewrite Hua. cbn [firstn map app]. repeat split; auto; lia. }
  rewrite fst_bind, snd_bind.
  destruct (status_code first =? 200)%Z eqn:E.
  - exists 1. rewrite Hua. cbn [ret fst snd firstn map app].
    rewrite fst_bind, snd_bind. unfold raise_for_status.
    fold (error_status (status_code first)).
    apply Z.eqb_eq in E. split; [lia|]. split.
    + destruct (error_status (status_code first)); reflexivity.
    + destruct (error_status (status_code first)) eqn:S; cbn [lift ret snd]; auto.
  - destruct (rotate_agents_spec W url rest first) as (n & Hn & Ht & Hr).
    exists (S n). split; [lia|]. rewrite Hua. cbn [map app]. rewrite Ht.
    destruct (snd (rotate_agents W url rest first)) as [r|].
    + rewrite fst_bind, snd_bind. unfold raise_for_status.
      fold (error_status (status_code r)).
      split.
      * destruct (error_status (status_code r)); cbn [lift ret fst snd];
          rewrite ?app_nil_r; reflexivity.
      * destruct (error_status (status_code r)) eqn:S; cbn [lift ret snd]; auto.
        split; [|exact S]. destruct Hr as [H0 H1]. destruct n.
        -- rewrite (H0 eq_refl) in *. assert (rest = []).
           { destruct rest as [|a rest']; [reflexivity|]. simpl in Hrest.
             cbn [rotate_agents] in Ht. rewrite fst_bind in Ht.
             unfold http_get in Ht. cbn [fst firstn map app] in Ht. discriminate. }
           subst rest. discriminate.
        -- destruct (H1 ltac:(lia)) as [H|H]; [left; exact H|right; lia].
    + rewrite app_nil_r. auto.
Qed.

(** The page fetch makes between one and four requests, all for the
    given URL with a 15-second timeout, under the browser identities in
    their listed order; the response it returns has status 200, or is
    the answer to the fourth identity, and never has a 4xx or 5xx
    status. *)
Theorem fetch_page_rotation (W : World) (url : text) :
  exists n,
    1 <= n <= 4
    /\ fst (fetch_page W url) = map (page_request url) (firstn n user_agents)
    /\ match snd (fetch_page W url) with
       | Ok r => (status_code r = 200%Z \/ n = 4)
                 /\ error_status (status_code r) = false
       | Raised => True
       end.
Proof. exact (fetch_page_spec W url). Qed.

Lemma get_job_details_fetch_raised W url :
  snd (fetch_page W url) = Raised ->
  get_job_details W url = (fst (fetch_page W url), placeholder_record url).
Proof.
  unfold get_job_details, get_job_details_try, bind.
  destruct (fetch_page W url) as [tr [r|]]; cbn [fst snd]; [discriminate|].
  reflexivity.
Qed.

(** A network exception on the first request is not retried:
    [get_job_details] makes that one request and returns the placeholder
    record. *)
Theorem first_exception_not_retried (W : World) (url : text) :
  requests_get W url (browser_headers (hd ""%string user_agents)) 15 = Raised ->
  get_job_details W url
  = ([page_request url (hd ""%string user_agents)], placeholder_record url).
Proof.
  intros H.
  assert (F : fetch_page W url
              = ([page_request url (hd ""%string user_agents)], Raised)).
  { unfold fetch_page, http_get, bind. rewrite H. reflexivity. }
  rewrite get_job_details_fetch_raised; rewrite F; reflexivity.
Qed.

Lemma first_exception_not_retried_witness :
  get_job_details sample_world (txt "https://example.com/jobs/data-analyst")
  = ([page_request (txt "https://example.com/jobs/data-analyst")
                   (hd ""%string user_agents)],
     placeholder_record (txt "https://example.com/jobs/data-analyst")).
Proof.
  apply (first_exception_not_retried sample_world
           (txt "https://example.com/jobs/data-analyst")).
  reflexivity.
Defined.

Lemma rotate_agents_all_errors W url agents current :
  (forall agent, In agent agents ->
     exists r, requests_get W url (browser_headers agent) 15 = Ok r
               /\ error_status (status_code r) = true) ->
  error_status (status_code current) = true ->
  exists r, rotate_agents W url agents current
            = (map (page_request url) agents, Ok r)
            /\ error_status (status_code r) = true.
Proof.
  revert current. induction agents as [|agent rest IH]; intros current H Hc.
  - exists current. split; [reflexivity|exact Hc].
  - destruct (H agent (or_introl eq_refl)) as (r & Hr & Hs).
    destruct (IH r (fun a Ha => H a (or_intror Ha)) Hs) as (r' & Hr' & Hs').
    exists r'. split; [|exact Hs'].
    cbn [rotate_agents]. unfold http_get, bind. rewrite Hr.
    assert (E : (status_code r =? 200)%Z = false).
    { unfold error_status in Hs. apply andb_true_iff in Hs as [Hs _].
      apply Z.leb_le in Hs. apply Z.eqb_neq. lia. }
    rewrite E, Hr'. reflexivity.
Qed.

(** When every browser identity is answered with a 4xx or 5xx status,
    [get_job_details] has tried all four of them, in order, and returns
    the placeholder record. *)
Theorem error_statuses_exhaust_identities (W : World) (url : text) :
  (forall agent, In agent user_agents ->
     exists r, requests_get W url (browser_headers agent) 15 = Ok r
               /\ error_status (status_code r) = true) ->
  get_job_details W url
  = (map (page_request url) user_agents, placeholder_record url).
Proof.
  intros H.
  assert (F : fetch_page W url = (map (page_request url) user_agents, Raised)).
  { unfold fetch_page.
    destruct (H (hd ""%string user_agents) (or_introl eq_refl)) as (r & Hr & Hs).
    destruct (rotate_agents_all_errors W url (tl user_agents) r
                (fun a Ha => H a (or_intror Ha)) Hs) as (r' & Hr' & Hs').
    unfold http_get at 1. unfold bind at 1. rewrite Hr.
    assert (E : (status_code r =? 200)%Z = false).
    { unfold error_status in Hs. apply andb_true_iff in Hs as [Hs _].
      apply Z.leb_le in Hs. apply Z.eqb_neq. lia. }
    rewrite E, Hr'. unfold bind, raise_for_status.
    fold (error_status (status_code r')). rewrite Hs'. cbn [lift].
    rewrite app_nil_r. reflexivity. }
  rewrite get_job_details_fetch_raised; rewrite F; reflexivity.
Qed.

Lemma error_statuses_exhaust_identities_witness :
  get_job_details forbidden_site (txt "https://example.com/jobs/data-analyst")
  = (map (page_request (txt "https://example.com/jobs/data-analyst")) user_agents,
     placeholder_record (txt "https://example.com/jobs/data-analyst")).
Proof.
  apply (error_statuses_exhaust_identities forbidden_site
           (txt "https://example.com/jobs/data-analyst")).
  intros agent _. exists (Response 403 (txt "Forbidden")). split; reflexivity.
Defined.

(** ** The cost and the bounds of one job-details view *)

Lemma searches_app tr1 tr2 : searches (tr1 ++ tr2) = searches tr1 + searches tr2.
Proof. unfold searches. rewrite filter_app, length_app. reflexivity. Qed.

Lemma not_searched tr : searched tr = false -> searches tr = 0.
Proof.
  induction tr as [|e tr IH]; [reflexivity|].
  unfold searched, searches in *. cbn [existsb filter].
  destruct e; cbn [orb length]; [exact IH|discriminate].
Qed.

Lemma page_requests_count url agents :
  requests (map (page_request url) agents) = length agents
  /\ searches (map (page_request url) agents) = 0.
Proof.
  induction agents as [|a rest [IH1 IH2]]; [split; reflexivity|].
  cbn [map]. unfold page_request at 1 3.
  rewrite requests_cons_requested, IH1. split; [reflexivity|exact IH2].
Qed.

Lemma get_job_details_trace W url :
  fst (get_job_details W url) = fst (get_job_details_try W url).
Proof.
  unfold get_job_details. destruct (get_job_details_try W url) as [tr [r|]];
    reflexivity.
Qed.

Lemma secondary_recovery_cost W s d q :
  provider_respects_limit W ->
  searches (fst (secondary_recovery W s d q)) <= 1
  /\ requests (fst (secondary_recovery W s d q)) <= 3.
Proof.
  intros HP. rewrite secondary_recovery_trace.
  destruct ((negb (truthy d) || negb (truthy q))
            && truthy (fst (page_title_parts s))); [|split; cbv; lia].
  destruct (ddgs_text W (recovery_query s) 3) as [alt_results|] eqn:E.
  - destruct (alternate_sources_trace W alt_results d q) as [NS R].
    pose proof (HP _ 3%Z _ ltac:(lia) E) as L.
    split.
    + change (searches (Searched (recovery_query s) 3
                        :: fst (alternate_sources W alt_results d q)))
        with (S (searches (fst (alternate_sources W alt_results d q)))).
      rewrite (not_searched _ NS). lia.
    + change (requests (Searched (recovery_query s) 3
                        :: fst (alternate_sources W alt_results d q)))
        with (requests (fst (alternate_sources W alt_results d q))).
      lia.
  - split; cbv; lia.
Qed.

(** With a provider that keeps to its limit, one call of
    [get_job_details] issues at most one search and at most seven page
    requests: four for the page, three for the alternate sources. *)
Theorem get_job_details_cost (W : World) (url : text) :
  provider_respects_limit W ->
  searches (fst (get_job_details W url)) <= 1
  /\ requests (fst (get_job_details W url)) <= 7.
Proof.
  intros HP. rewrite get_job_details_trace. unfold get_job_details_try.
  rewrite fst_bind.
  destruct (fetch_page_spec W url) as (n & Hn & Ht & _).
  rewrite searches_app, requests_app, Ht.
  destruct (page_requests_count url (firstn n user_agents)) as [R0 S0].
  rewrite R0, S0, length_firstn. change (length user_agents) with 4.
  destruct (snd (fetch_page W url)) as [r|];
    [|change (searches []) with 0; change (requests []) with 0; lia].
  rewrite fst_bind. unfold extract_and_recover at 1 3. rewrite fst_bind.
  cbn [lift fst snd app].
  destruct (extract_job_description _ _) as [d|].
  - destruct (secondary_recovery_cost W (BeautifulSoup W (response_text r)) d
                (extract_job_requirements (h2t_handle W (response_text r))) HP)
      as [S1 R1].
    rewrite searches_app, requests_app.
    match goal with
    | |- context [snd ?m] => destruct (snd m)
    end; cbn [ret fst]; change (searches []) with 0; change (requests []) with 0;
      lia.
  - cbn [app].
    match goal with
    | |- context [snd ?m] => destruct (snd m)
    end; cbn [ret fst]; change (searches []) with 0; change (requests []) with 0;
      lia.
Qed.

Lemma get_job_details_cost_witness :
  searches (fst (get_job_details titled_site
                   (txt "https://example.com/jobs/data-engineer"))) <= 1
  /\ requests (fst (get_job_details titled_site
                      (txt "https://example.com/jobs/data-engineer"))) <= 7.
Proof.
  apply (get_job_details_cost titled_site
           (txt "https://example.com/jobs/data-engineer")).
  intros query limit results Hlimit H. inversion H. simpl. exact Hlimit.
Defined.

Lemma try_alternate_requirements W result d q tr d' q' b :
  try_alternate W result d q = (tr, Ok (d', q', b)) ->
  length q <= 10 -> length q' <= 10.
Proof.
  unfold try_alternate, http_get, bind.
  destruct (requests_get W _ _ _) as [resp|]; [|discriminate].
  destruct (status_code resp =? 200)%Z.
  - destruct (if truthy d then ret d else lift (extract_job_description _ _))
      as [tr1 [d1|]]; [|discriminate].
    cbn [ret]. intros H Hq. inversion H; subst.
    destruct (truthy q); [exact Hq|]. apply extractors_deduplicate.
  - cbn [ret]. intros H Hq. inversion H; subst. exact Hq.
Qed.

Lemma alternate_sources_requirements W results d q tr d' q' :
  alternate_sources W results d q = (tr, Ok (d', q')) ->
  length q <= 10 -> length q' <= 10.
Proof.
  revert d q tr. induction results as [|result rest IH]; intros d q tr;
    cbn [alternate_sources].
  - intros H Hq. inversion H; subst. exact Hq.
  - destruct (try_alternate W result d q) as [tr1 [[[d1 q1] b]|]] eqn:E.
    + intros H Hq. pose proof (try_alternate_requirements _ _ _ _ _ _ _ _ E Hq) as Hq1.
      destruct b.
      * inversion H; subst. exact Hq1.
      * destruct (alternate_sources W rest d1 q1) as [tr2 r] eqn:E2.
        inversion H; subst. eapply IH; eassumption.
    + intros H Hq. destruct (alternate_sources W rest d q) as [tr2 r] eqn:E2.
      inversion H; subst. eapply IH; eassumption.
Qed.

Lemma secondary_recovery_requirements W s d q tr d' q' :
  secondary_recovery W s d q = (tr, Ok (d', q')) ->
  length q <= 10 -> length q' <= 10.
Proof.
  unfold secondary_recovery.
  destruct (negb (truthy d) || negb (truthy q)).
  2:{ intros H Hq. inversion H; subst. exact Hq. }
  destruct (page_title_parts s) as [title company].
  destruct (truthy title).
  2:{ intros H Hq. inversion H; subst. exact Hq. }
  unfold catch, bind, search.
  destruct (ddgs_text W _ 3) as [alt_results|].
  - destruct (alternate_sources W alt_results d q) as [tr2 [[d2 q2]|]] eqn:E.
    + intros H Hq. inversion H; subst.
      eapply alternate_sources_requirements; eassumption.
    + cbn [ret]. intros H Hq. inversion H; subst. exact Hq.
  - cbn [ret]. intros H Hq. inversion H; subst. exact Hq.
Qed.

(** On every path of [get_job_details], the failure path included, the
    record lists at most 10 requirements and at most 8 benefits, and no
    benefit twice. *)
Theorem get_job_details_list_bounds (W : World) (url : text) :
  length (requirements (snd (get_job_details W url))) <= 10
  /\ length (benefits (snd (get_job_details W url))) <= 8
  /\ NoDup (benefits (snd (get_job_details W url))).
Proof.
  unfold get_job_details.
  destruct (get_job_details_try W url) as [tr [r|]] eqn:E; cbn [snd].
  - apply get_job_details_try_ok in E as (tr1 & resp & tr2 & dr & _ & H & _ & ->).
    cbn [requirements benefits].
    split; [|split; apply extractors_deduplicate].
    destruct (truthy (snd dr)); [|apply fallback_requirements_length].
    unfold extract_and_recover in H.
    apply bind_ok in H as (t1 & d & t2 & _ & H & _).
    destruct dr as [d' q']. cbn [snd].
    eapply secondary_recovery_requirements; [exact H|].
    apply extractors_deduplicate.
  - cbn [placeholder_record requirements benefits length].
    repeat split; try lia.
    constructor; [intros []|constructor].
Qed.

(** ** Application link *)

Lemma first_apply_link_usable s selectors :
  first_apply_link s selectors
  = match selectors with
    | [] => None
    | selector :: rest =>
        match usable_href (select_one s (txt selector)) with
        | Some href => Some href
        | None => first_apply_link s rest
        end
    end.
Proof.
  destruct selectors as [|selector rest]; [reflexivity|].
  cbn [first_apply_link]. unfold usable_href.
  destruct (select_one s (txt selector)) as [[apply_button|]|]; try reflexivity.
  destruct (tag_href apply_button) as [[|c h]|]; reflexivity.
Qed.

Lemma first_apply_link_none s selectors :
  (forall selector, In selector selectors ->
     usable_href (select_one s (txt selector)) = None) ->
  first_apply_link s selectors = None.
Proof.
  induction selectors as [|selector rest IH]; intros H; [reflexivity|].
  rewrite first_apply_link_usable, (H selector (or_introl eq_refl)).
  apply IH. intros x Hx. apply H. right. exact Hx.
Qed.

Lemma first_apply_link_first s before selector after href :
  (forall x, In x before -> usable_href (select_one s (txt x)) = None) ->
  usable_href (select_one s (txt selector)) = Some href ->
  first_apply_link s (before ++ selector :: after) = Some href.
Proof.
  induction before as [|x before IH]; intros Hb Hs.
  - cbn [app]. rewrite first_apply_link_usable, Hs. reflexivity.
  - cbn [app]. rewrite first_apply_link_usable, (Hb x (or_introl eq_refl)).
    apply IH; [|exact Hs]. intros y Hy. apply Hb. right. exact Hy.
Qed.

(** [extract_application_link] returns the [href] of the first apply
    selector, in the listed order, that selects a tag with a non-empty
    [href]; a selector on which the markup library raises is skipped
    like one that selects nothing; when no selector offers a link the
    listing URL is returned unchanged. *)
Theorem application_link_first_usable (s : soup) (default_url : text) :
  ((forall selector, In selector apply_selectors ->
      usable_href (select_one s (txt selector)) = None) ->
   extract_application_link s default_url = default_url)
  /\ (forall before selector after href,
         apply_selectors = before ++ selector :: after ->
         (forall x, In x before -> usable_href (select_one s (txt x)) = None) ->
         usable_href (select_one s (txt selector)) = Some href ->
         extract_application_link s default_url = href /\ href <> []).
Proof.
  unfold extract_application_link. split.
  - intros H. rewrite first_apply_link_none by exact H. reflexivity.
  - intros before selector after href E Hb Hs. rewrite E.
    rewrite (first_apply_link_first s before selector after href Hb Hs).
    split; [reflexivity|].
    unfold usable_href in Hs.
    destruct (select_one s (txt selector)) as [[apply_button|]|]; try discriminate.
    destruct (tag_href apply_button) as [[|c h]|]; try discriminate.
    inversion Hs. discriminate.
Qed.

Lemma application_link_first_usable_witness :
  extract_application_link no_soup (txt "https://example.com/jobs/1")
  = txt "https://example.com/jobs/1"
  /\ extract_application_link apply_soup (txt "https://example.com/jobs/1")
     = txt "https://example.com/apply/42".
Proof.
  split.
  - apply (proj1 (application_link_first_usable no_soup
                    (txt "https://example.com/jobs/1"))).
    intros selector _. reflexivity.
  - apply (proj2 (application_link_first_usable apply_soup
                    (txt "https://example.com/jobs/1"))
                 ["a.apply-button"%string] "a.job-apply"%string
                 ["a[data-automation='job-detail-apply']"%string;
                  "a:contains('Apply')"%string; "a.btn-apply"%string;
                  ".jobsearch-IndeedApplyButton"%string]).
    + reflexivity.
    + intros x [<-|[]]. reflexivity.
    + reflexivity.
Defined.

(** ** Location *)

Lemma or_else_nonempty a b : b <> [] -> or_else a b <> [].
Proof. destruct a as [[|c t]|]; simpl; auto; discriminate. Qed.

Lemma first_location_none snippet :
  mentions location_words snippet = false ->
  first_location location_patterns snippet = None.
Proof.
  intros H. unfold location_patterns. cbn [first_location].
  assert (H1 : re_search (seqs [lit_ci "location"; opt (ch ":"); spaces;
                                Group (plus (none_of (txt ".;")))]) snippet = None).
  { match goal with |- ?x = None => destruct x as [st|] eqn:S end; [|reflexivity].
    exfalso.
    apply search_from_sound in S as (a & w & D & -> & _).
    cbn [seqs denote] in D. destruct D as (u & v & -> & D & _).
    rewrite <- app_assoc in H.
    apply (denote_lit_ci "location" u (v ++ m_rest st)) in D.
    pose proof (contains_ci_app (txt "location") a _ D) as C.
    pose proof (mentions_false _ "location" _ H ltac:(simpl; auto)) as C'.
    congruence. }
  assert (Hw : forall w a b, denote work_mode w ->
                 mentions location_words (a ++ w ++ b) = true).
  { intros w a b D. unfold location_words. rewrite mentions_cons.
    rewrite (denote_words ["remote"; "hybrid"; "on-site"]%string w a b D).
    apply orb_true_r. }
  assert (H2 : re_search (seqs [lit_ci "in"; plus space;
                 Group (Seq (plus (Chr (fun c => is_alpha c || is_space c
                                                  || Ascii.eqb c ","%char)))
                            work_mode)]) snippet = None).
  { match goal with |- ?x = None => destruct x as [st|] eqn:S end; [|reflexivity].
    exfalso.
    apply search_from_sound in S as (a & w & D & -> & _).
    cbn [seqs denote] in D.
    destruct D as (u1 & v1 & -> & _ & u2 & v2 & -> & _ & u3 & u4 & -> & _ & D).
    replace (a ++ (u1 ++ u2 ++ u3 ++ u4) ++ m_rest st)
      with ((a ++ u1 ++ u2 ++ u3) ++ u4 ++ m_rest st) in H
      by (repeat rewrite <- app_assoc; reflexivity).
    rewrite Hw in H by exact D. discriminate. }
  assert (H3 : re_search work_mode snippet = None).
  { match goal with |- ?x = None => destruct x as [st|] eqn:S end; [|reflexivity].
    exfalso.
    apply search_from_sound in S as (a & w & D & -> & _).
    rewrite Hw in H by exact D. discriminate. }
  rewrite H1, H2, H3. reflexivity.
Qed.

Lemma extract_location_nonempty title snippet default_location :
  extract_location title snippet default_location <> [].
Proof. unfold extract_location. repeat apply or_else_nonempty. discriminate. Qed.

(** The location of a listing is never empty; when the title has no
    [" - "] or no [" in "] and the snippet names neither a location nor
    a work mode, it is the caller's default, or ["Not specified"] when
    the default is empty. *)
Theorem extract_location_default (title snippet default_location : text) :
  extract_location title snippet default_location <> []
  /\ (str_contains (txt " - ") title && str_contains (txt " in ") title = false ->
      mentions location_words snippet = false ->
      extract_location title snippet default_location
      = if truthy default_location then default_location
        else txt "Not specified").
Proof.
  split.
  - apply extract_location_nonempty.
  - intros Ht Hs. unfold extract_location.
    rewrite Ht, (first_location_none _ Hs).
    destruct default_location; reflexivity.
Qed.

Lemma extract_location_default_witness :
  extract_location (txt "Data Scientist") (txt "Acme Corp is hiring now")
                   (txt "Berlin")
  = txt "Berlin".
Proof.
  apply (proj2 (extract_location_default (txt "Data Scientist")
                  (txt "Acme Corp is hiring now") (txt "Berlin")));
    reflexivity.
Defined.

(** ** What a capture group holds *)

Lemma rmatch_final_group r b st x :
  final_group r = Some b ->
  rmatch r st Some = Some x ->
  exists u w, denote b w /\ m_rest st = u ++ w ++ m_rest x /\ group1 x = w.
Proof.
  revert st. induction r as [|p|a IHa r' IHr|a IHa r' IHr|g a IHa|a IHa| | |];
    intros st F H; cbn [final_group] in F; try discriminate.
  - destruct (nogroup a) eqn:Na; [|discriminate].
    cbn [rmatch] in H.
    apply rmatch_sound in H as (u & st1 & _ & (M1 & _ & _) & _ & H).
    destruct (IHr st1 F H) as (u' & w & D & E & G).
    exists (u ++ u'), w. split; [exact D|]. split; [|exact G].
    rewrite M1, E, <- app_assoc. reflexivity.
  - destruct (nogroup a) eqn:Na; [|discriminate].
    inversion F; subst b. cbn [rmatch] in H.
    apply rmatch_sound in H as (w & st1 & D & (M1 & _ & _) & K & H).
    inversion H; subst x. rewrite Na in K. destruct (K eq_refl) as [_ K2].
    exists [], w. split; [exact D|]. split; [exact M1|].
    unfold group1. cbn [close_group m_g1 open_group m_open] in *.
    rewrite K2, app_nil_r. apply rev_involutive.
Qed.

Lemma search_from_match_here r pre rest st :
  search_from r pre rest = Some st ->
  exists a pre' rest', rest = a ++ rest' /\ match_here r pre' rest' = Some st.
Proof.
  revert pre. induction rest as [|c t IH]; intros pre H; cbn [search_from] in H.
  - destruct (match_here r pre []) eqn:E; [|discriminate].
    inversion H; subst. exists [], pre, []. auto.
  - destruct (match_here r pre (c :: t)) eqn:E.
    + inversion H; subst. exists [], pre, (c :: t). auto.
    + apply IH in H as (a & pre' & rest' & -> & H).
      exists (c :: a), pre', rest'. auto.
Qed.

Lemma search_final_group r b pre rest st :
  final_group r = Some b ->
  search_from r pre rest = Some st ->
  denote b (group1 st) /\ exists a, rest = a ++ group1 st ++ m_rest st.
Proof.
  intros F H. apply search_from_match_here in H as (a & pre' & rest' & -> & H).
  unfold match_here in H.
  destruct (rmatch_final_group r b _ _ F H) as (u & w & D & E & G).
  subst w. split; [exact D|]. exists (a ++ u).
  cbn [start_state m_rest] in E. rewrite E, <- app_assoc. reflexivity.
Qed.

Lemma finditer_from_in fuel r pre rest st :
  In st (finditer_from fuel r pre rest) ->
  exists pre' rest', search_from r pre' rest' = Some st.
Proof.
  revert pre rest. induction fuel as [|f IH]; intros pre rest; cbn [finditer_from].
  - intros [].
  - destruct (search_from r pre rest) as [m|] eqn:E; [|intros []].
    intros [<-|H]; [exists pre, rest; exact E|].
    destruct (m_g0 m); [destruct (m_rest m)|]; try (apply IH in H; exact H).
    destruct H.
Qed.

Lemma finditer_group0 r s st :
  In st (re_finditer r s) -> denote r (group0 st).
Proof.
  intros H. apply finditer_from_in in H as (pre & rest & H).
  apply search_from_sound in H as (a & w & D & _ & ->). exact D.
Qed.

Lemma finditer_group1 r b s st :
  final_group r = Some b -> In st (re_finditer r s) -> denote b (group1 st).
Proof.
  intros F H. apply finditer_from_in in H as (pre & rest & H).
  eapply search_final_group in H; [|exact F]. apply H.
Qed.

Lemma re_findall_head r s st :
  re_search r s = Some st -> hd_error (re_findall r s) = Some (group1 st).
Proof.
  unfold re_findall, re_finditer, re_search. intros H.
  cbn [finditer_from]. rewrite H. reflexivity.
Qed.

Lemma re_findall_none r s : re_search r s = None -> re_findall r s = [].
Proof.
  unfold re_findall, re_finditer, re_search. intros H.
  cbn [finditer_from]. rewrite H. reflexivity.
Qed.

(** ** Salary and source *)

(** The salary is the sentinel or a piece of the text itself. *)
Theorem extract_salary_is_quoted (text_content : text) :
  extract_salary text_content = txt "Salary not specified"
  \/ exists before after,
       text_content = before ++ extract_salary text_content ++ after.
Proof.
  unfold extract_salary.
  destruct (first_search salary_patterns text_content) as [m|] eqn:E; [|left; reflexivity].
  right. apply first_search_some in E as (p & Hp & E).
  assert (F : exists b, final_group p = Some b).
  { destruct Hp as [<-|[<-|[<-|[]]]]; eexists; reflexivity. }
  destruct F as (b & F).
  destruct (search_final_group p b [] text_content m F E) as (_ & a & Ha).
  exists a, (m_rest m). exact Ha.
Qed.

Lemma rmatch_star_chr p st k :
  rmatch (Star true (Chr p)) st k = greedy_from p k (m_rest st) st.
Proof. cbn [rmatch]. apply star_loop_greedy_chr. lia. Qed.

(** A greedy run before a continuation that always accepts goes to its
    end. *)
Lemma greedy_from_total p (f : mstate -> mstate) rest st :
  m_rest st = rest ->
  greedy_from p (fun st' => Some (f st')) rest st
  = Some (f (consume (leading p rest) st)).
Proof.
  revert st. induction rest as [|c t IH]; intros st E; cbn [greedy_from leading];
    [reflexivity|].
  destruct (p c); [|reflexivity].
  rewrite (IH (advance c t st)) by reflexivity.
  cbn [consume]. rewrite E. reflexivity.
Qed.

Lemma leading_all p host rest :
  forallb p host = true ->
  match rest with c :: _ => p c = false | [] => True end ->
  leading p (host ++ rest) = host.
Proof.
  intros H R. induction host as [|c h IH]; cbn [app leading].
  - destruct rest as [|x t]; [reflexivity|]. cbn [leading]. rewrite R. reflexivity.
  - cbn [forallb] in H. apply andb_true_iff in H as [H1 H2].
    rewrite H1, IH by exact H2. reflexivity.
Qed.

Lemma rmatch_plus_group p st c host rest :
  m_rest st = (c :: host) ++ rest ->
  forallb p (c :: host) = true ->
  match rest with x :: _ => p x = false | [] => True end ->
  exists x, rmatch (Group (plus (Chr p))) st Some = Some x
            /\ group1 x = c :: host.
Proof.
  intros E H R. cbn [forallb] in H. apply andb_true_iff in H as [Hc Hh].
  unfold plus, star. cbn [rmatch open_group m_rest]. rewrite E. cbn [app].
  rewrite Hc.
  fold (rmatch (Star true (Chr p))
               (advance c (host ++ rest) (open_group st))
               (fun st' => Some (close_group st'))).
  rewrite rmatch_star_chr. cbn [advance m_rest].
  rewrite (greedy_from_total p close_group) by reflexivity.
  eexists. split; [reflexivity|].
  unfold group1. cbn [close_group m_g1].
  rewrite consume_g1. cbn [advance m_open open_group m_g1].
  rewrite (leading_all p host rest Hh R).
  rewrite rev_app_distr, rev_involutive. reflexivity.
Qed.

Lemma search_from_here r pre rest st :
  match_here r pre rest = Some st -> search_from r pre rest = Some st.
Proof. intros H. destruct rest; cbn [search_from]; rewrite H; reflexivity. Qed.

Lemma rmatch_opt r st k :
  rmatch (opt r) st k
  = match rmatch r st k with
    | Some x => Some x
    | None => k st
    end.
Proof. reflexivity. Qed.

Lemma rmatch_lit_app s t st k :
  m_rest st = txt s ++ t -> rmatch (lit s) st k = k (consume (txt s) st).
Proof. intros E. rewrite rmatch_lit, E, starts_with_app. reflexivity. Qed.

Lemma rmatch_domain st k :
  rmatch domain_pattern st k
  = rmatch (lit "http") st (fun s1 =>
      rmatch (opt (lit "s")) s1 (fun s2 =>
        rmatch (lit "://") s2 (fun s3 =>
          rmatch (opt (lit "www.")) s3 (fun s4 =>
            rmatch (Group (plus (none_of (txt "/")))) s4 k)))).
Proof. reflexivity. Qed.

Lemma none_of_slash host :
  forallb not_slash host = true ->
  forallb (fun c => negb (existsb (Ascii.eqb c) (txt "/"))) host = true.
Proof.
  induction host as [|c h IH]; cbn [forallb]; [reflexivity|].
  intros H. apply andb_true_iff in H as [H1 H2]. rewrite (IH H2).
  unfold not_slash in H1. cbn [txt list_ascii_of_string existsb].
  rewrite orb_false_r, H1. reflexivity.
Qed.

(** A text without ["/"] that is followed by ["/"] or by nothing starts
    with a slash-free prefix only if it holds all of it. *)
Lemma starts_with_host p host rest :
  forallb not_slash p = true ->
  match rest with x :: _ => x = "/"%char | [] => True end ->
  starts_with p (host ++ rest) = true -> starts_with p host = true.
Proof.
  intros Hp R. revert host. induction p as [|x p IH]; intros host H; [reflexivity|].
  cbn [forallb] in Hp. apply andb_true_iff in Hp as [Hx Hp].
  destruct host as [|y h].
  - cbn [app] in H. destruct rest as [|z t]; [discriminate|]. subst z.
    cbn [starts_with] in H. apply andb_true_iff in H as [H _].
    apply Ascii.eqb_eq in H. subst x. discriminate.
  - cbn [app starts_with] in *. apply andb_true_iff in H as [H1 H2].
    rewrite H1, (IH Hp h H2). reflexivity.
Qed.

Lemma match_here_domain pre secure www host rest :
  host <> [] ->
  forallb not_slash host = true ->
  match rest with x :: _ => x = "/"%char | [] => True end ->
  (www = false -> starts_with (txt "www.") host = false) ->
  exists x, match_here domain_pattern pre (url_of secure www host rest) = Some x
            /\ group1 x = host.
Proof.
  intros Hne Hh R Hw.
  destruct host as [|c h]; [congruence|].
  assert (R' : match rest with
               | x :: _ => negb (existsb (Ascii.eqb x) (txt "/")) = false
               | [] => True
               end).
  { destruct rest as [|x t]; [exact I|]. subst x. reflexivity. }
  assert (A : forall s4, m_rest s4 = (c :: h) ++ rest ->
                exists x, rmatch (Group (plus (none_of (txt "/")))) s4 Some = Some x
                          /\ group1 x = c :: h).
  { intros s4 E. unfold none_of.
    apply (rmatch_plus_group _ s4 c h rest E (none_of_slash _ Hh) R'). }
  assert (B : forall s3,
                m_rest s3 = (if www then txt "www." else []) ++ (c :: h) ++ rest ->
                exists x, rmatch (opt (lit "www.")) s3
                            (fun s4 => rmatch (Group (plus (none_of (txt "/")))) s4 Some)
                          = Some x /\ group1 x = c :: h).
  { intros s3 E. rewrite rmatch_opt. destruct www.
    - rewrite (rmatch_lit_app "www." _ s3 _ E).
      destruct (A (consume (txt "www.") s3)) as (x & Hx & G).
      { apply consume_rest. exact E. }
      exists x. rewrite Hx. auto.
    - change ([] ++ (c :: h) ++ rest) with ((c :: h) ++ rest) in E.
      rewrite rmatch_lit, E.
      destruct (starts_with (txt "www.") ((c :: h) ++ rest)) eqn:S.
      + apply starts_with_host in S; [|reflexivity|exact R].
        rewrite (Hw eq_refl) in S. discriminate.
      + apply A. exact E. }
  assert (C : forall s2,
                m_rest s2 = txt "://" ++ (if www then txt "www." else [])
                            ++ (c :: h) ++ rest ->
                exists x, rmatch (lit "://") s2 (fun s3 =>
                            rmatch (opt (lit "www.")) s3 (fun s4 =>
                              rmatch (Group (plus (none_of (txt "/")))) s4 Some))
                          = Some x /\ group1 x = c :: h).
  { intros s2 E. rewrite (rmatch_lit_app "://" _ s2 _ E).
    apply B. apply consume_rest. exact E. }
  unfold match_here. rewrite rmatch_domain.
  rewrite (rmatch_lit_app "http"
             ((if secure then txt "s" else []) ++ txt "://"
              ++ (if www then txt "www." else []) ++ (c :: h) ++ rest))
    by reflexivity.
  set (s1 := consume (txt "http") (start_state pre (url_of secure www (c :: h) rest))).
  assert (E1 : m_rest s1 = (if secure then txt "s" else []) ++ txt "://"
                           ++ (if www then txt "www." else []) ++ (c :: h) ++ rest)
    by (apply consume_rest; reflexivity).
  rewrite rmatch_opt. destruct secure.
  - rewrite (rmatch_lit_app "s" _ s1 _ E1).
    destruct (C (consume (txt "s") s1)) as (x & Hx & G).
    { apply consume_rest. exact E1. }
    exists x. rewrite Hx. auto.
  - change ([] ++ txt "://" ++ (if www then txt "www." else []) ++ (c :: h) ++ rest)
      with (txt "://" ++ (if www then txt "www." else []) ++ (c :: h) ++ rest) in E1.
    rewrite rmatch_lit, E1.
    replace (starts_with (txt "s") (txt "://" ++ (if www then txt "www." else [])
                                    ++ (c :: h) ++ rest)) with false by reflexivity.
    apply C. exact E1.
Qed.

Lemma domain_needs_scheme url st :
  re_search domain_pattern url = Some st -> str_contains (txt "://") url = true.
Proof.
  intros H. apply search_from_sound in H as (a & w & D & -> & _).
  unfold domain_pattern in D. cbn [seqs denote] in D.
  destruct D as (u1 & v1 & -> & _ & u2 & v2 & -> & _ & u3 & v3 & -> & D & _).
  apply denote_lit in D. subst u3. unfold str_contains.
  replace (a ++ (u1 ++ u2 ++ txt "://" ++ v3) ++ m_rest st)
    with ((a ++ u1 ++ u2) ++ txt "://" ++ (v3 ++ m_rest st))
    by (repeat rewrite <- app_assoc; reflexivity).
  pose proof (str_find_app_some (txt "://") (a ++ u1 ++ u2) (v3 ++ m_rest st)) as F.
  destruct (str_find (txt "://") _); [reflexivity|congruence].
Qed.

(** The source of a listing is the host of its URL: for
    [http(s)://(www.)host] followed by nothing or by a path, the host
    without the scheme and without the leading [www.]; a URL without
    ["://"] (the empty one included) gives ["Unknown Source"]. *)
Theorem extract_domain_host :
  (forall secure www host rest,
      host <> [] ->
      forallb not_slash host = true ->
      match rest with x :: _ => x = "/"%char | [] => True end ->
      (www = false -> starts_with (txt "www.") host = false) ->
      extract_domain (url_of secure www host rest) = host)
  /\ (forall url, str_contains (txt "://") url = false ->
                  extract_domain url = txt "Unknown Source").
Proof.
  split.
  - intros secure www host rest Hne Hh R Hw.
    destruct (match_here_domain [] secure www host rest Hne Hh R Hw) as (x & Hx & G).
    apply search_from_here in Hx.
    pose proof (re_findall_head domain_pattern _ x Hx) as F.
    unfold extract_domain.
    replace (truthy (url_of secure www host rest)) with true by reflexivity.
    destruct (re_findall domain_pattern (url_of secure www host rest));
      [discriminate|].
    cbn [hd_error] in F. inversion F. exact G.
  - intros url H. unfold extract_domain.
    destruct (re_search domain_pattern url) as [st|] eqn:S.
    + apply domain_needs_scheme in S. congruence.
    + rewrite (re_findall_none _ _ S). destruct (truthy url); reflexivity.
Qed.

Lemma extract_domain_host_witness :
  extract_domain (url_of true true (txt "linkedin.com") (txt "/jobs/view/1"))
  = txt "linkedin.com"
  /\ extract_domain (txt "example.com/jobs") = txt "Unknown Source".
Proof.
  split.
  - apply (proj1 extract_domain_host true true (txt "linkedin.com")
                 (txt "/jobs/view/1")); try reflexivity; discriminate.
  - apply (proj2 extract_domain_host (txt "example.com/jobs")). reflexivity.
Defined.

(** ** Listings *)

Lemma str_find_decompose sub s j :
  str_find sub s = Some j ->
  s = firstn j s ++ sub ++ skipn (j + length sub) s /\ length (firstn j s) = j.
Proof.
  revert j. induction s as [|c t IH]; intros j H.
  - unfold str_find in H. cbn [str_find_from] in H.
    destruct (starts_with sub []) eqn:E; [|discriminate]. inversion H; subst.
    destruct sub; [auto|discriminate].
  - destruct (starts_with sub (c :: t)) eqn:E.
    + rewrite str_find_here in H by exact E. inversion H; subst.
      split; [|reflexivity]. cbn [firstn app Nat.add]. apply starts_with_split. exact E.
    + rewrite str_find_cons in H by exact E.
      destruct (str_find sub t) as [j'|] eqn:F; [|discriminate].
      inversion H; subst. destruct (IH j' eq_refl) as [H1 H2].
      cbn [firstn skipn app Nat.add length]. split; [|rewrite H2; reflexivity].
      rewrite <- H1. reflexivity.
Qed.

Lemma absent_inside sub a x b :
  str_find sub (a ++ x ++ b) = None -> str_find sub x = None.
Proof.
  intros H. destruct (str_find sub x) as [j|] eqn:F; [|reflexivity].
  exfalso. apply str_find_decompose in F as [F _].
  rewrite F in H.
  replace (a ++ (firstn j x ++ sub ++ skipn (j + length sub) x) ++ b)
    with ((a ++ firstn j x) ++ sub ++ (skipn (j + length sub) x ++ b)) in H
    by (repeat rewrite <- app_assoc; reflexivity).
  apply str_find_app_some in H. exact H.
Qed.

Lemma absent_before_first sub s i :
  sub <> [] -> str_find sub s = Some i -> str_find sub (firstn i s) = None.
Proof.
  intros Hsub H. destruct (str_find sub (firstn i s)) as [j|] eqn:F; [|reflexivity].
  exfalso. apply str_find_decompose in F as [F Fl].
  pose proof (str_find_decompose _ _ _ H) as [Hs Hl].
  rewrite F in Hs. rewrite <- app_assoc in Hs. rewrite Hs in H.
  rewrite <- app_assoc in H.
  apply str_find_app_le in H.
  assert (L : length (firstn i s) = length (firstn j (firstn i s)) + length sub
              + length (skipn (j + length sub) (firstn i s))).
  { rewrite F at 1. rewrite !length_app. lia. }
  destruct sub; [congruence|]. simpl in *. lia.
Qed.

Lemma str_strip_inside x : exists a b, x = a ++ str_strip x ++ b.
Proof.
  unfold str_strip, rstrip.
  exists (leading_space x), (rev (leading_space (rev (lstrip x)))).
  rewrite <- rev_app_distr, <- leading_space_lstrip, rev_involutive.
  apply leading_space_lstrip.
Qed.

Lemma listing_title_no_separator title :
  str_find title_sep (str_strip (hd [] (str_split title_sep title))) = None.
Proof.
  destruct (str_strip_inside (hd [] (str_split title_sep title))) as (a & b & E).
  apply (absent_inside title_sep a _ b). rewrite <- E.
  unfold str_split. rewrite str_split_go_find by discriminate.
  destruct (str_find title_sep title) as [i|] eqn:F; cbn [hd rev app].
  - apply absent_before_first; [discriminate|exact F].
  - exact F.
Qed.

Lemma extract_domain_nonempty url : extract_domain url <> [].
Proof.
  unfold extract_domain. destruct (truthy url); [|discriminate].
  destruct (re_findall domain_pattern url) as [|m rest] eqn:E; [discriminate|].
  assert (Hin : In m (re_findall domain_pattern url)) by (rewrite E; left; reflexivity).
  unfold re_findall in Hin. apply in_map_iff in Hin as (st & <- & Hin).
  eapply finditer_group1 in Hin; [|reflexivity].
  unfold plus in Hin. cbn [denote] in Hin.
  destruct Hin as (u & v & -> & (c & -> & _) & _). discriminate.
Qed.

(** Every listing of [search_jobs] has a title without [" - "], a
    location and a source that are not empty, the provider's link as its
    URL, and no details yet. *)
Theorem search_jobs_listings (W : World) (query location : text) (limit : Z)
        (listing : ListingStub) :
  In listing (search_jobs W query location limit) ->
  str_contains title_sep (ls_title listing) = false
  /\ ls_location listing <> []
  /\ ls_source listing <> []
  /\ ls_source listing = extract_domain (ls_url listing)
  /\ ls_full_details listing = None.
Proof.
  unfold search_jobs.
  destruct (ddgs_text W (jobs_query query location) limit) as [results|]; [|intros []].
  intros H. apply in_map_iff in H as (result & <- & _).
  unfold listing_of. cbn [ls_title ls_location ls_source ls_url ls_full_details].
  split; [|split; [|split; [|split]]].
  - unfold str_contains. fold title_sep. rewrite listing_title_no_separator.
    reflexivity.
  - apply extract_location_nonempty.
  - apply extract_domain_nonempty.
  - reflexivity.
  - reflexivity.
Qed.

Lemma search_jobs_listings_witness :
  str_contains title_sep (txt "Data Scientist") = false
  /\ txt "Berlin" <> []
  /\ txt "linkedin.com" <> []
  /\ txt "linkedin.com" = extract_domain (txt "https://www.linkedin.com/jobs/view/1")
  /\ @None JobRecord = None.
Proof.
  apply (search_jobs_listings sample_world (txt "Data Scientist") (txt "Berlin") 5
           (MkListing (txt "Data Scientist") (txt "Acme Corp")
                      (txt "https://www.linkedin.com/jobs/view/1")
                      (txt "Acme Corp is hiring. Location: Berlin. Apply now")
                      (txt "linkedin.com") (txt "Berlin") None)).
  vm_compute. left. reflexivity.
Defined.

(** A search result without any of the keys [title], [href] and [body]
    still gives a listing: empty title, URL and snippet, the sentinels
    for company and source, and the searched location (or
    ["Not specified"]). *)
Theorem listing_of_empty_result (location : text) :
  listing_of location (Hit None None None)
  = MkListing [] (txt "Unknown Company") [] [] (txt "Unknown Source")
              (if truthy location then location else txt "Not specified") None.
Proof. destruct location; reflexivity. Qed.

(** ** Sections of the page text *)

Lemma section_header_found header stops s m :
  re_search (section header stops) s = Some m ->
  exists a u b, s = a ++ u ++ b /\ denote header u.
Proof.
  intros H. apply search_from_sound in H as (a & w & D & -> & _).
  unfold section in D. cbn [seqs denote] in D.
  destruct D as (u & v & -> & D & _).
  exists a, u, (v ++ m_rest m). rewrite <- app_assoc. auto.
Qed.

Lemma section_absent (header : string) stops s :
  contains_ci (txt header) s = false ->
  re_search (section (lit_ci header) stops) s = None.
Proof.
  intros H. destruct (re_search _ s) as [m|] eqn:E; [|reflexivity].
  apply section_header_found in E as (a & u & b & -> & D).
  rewrite (contains_ci_app _ a _ (denote_lit_ci header u b D)) in H. discriminate.
Qed.

Lemma benefit_sections_absent s :
  mentions benefit_headers s = false -> section_text benefit_patterns s = None.
Proof.
  intros H. unfold section_text, benefit_patterns. cbn [first_search].
  rewrite (section_absent "Benefits"), (section_absent "Perks"),
    (section_absent "What we offer");
    [reflexivity| | |]; apply (mentions_false benefit_headers); auto; simpl; auto.
Qed.

Lemma keyword_benefits_in s b :
  In b (keyword_benefits s) ->
  exists k, In k benefit_keywords /\ b = str_title (txt k)
            /\ contains_ci (txt k) s = true.
Proof.
  unfold keyword_benefits. intros H.
  apply in_map_iff in H as (k & <- & H). apply filter_In in H as [Hk H].
  exists k. split; [exact Hk|]. split; [reflexivity|].
  destruct (re_search (whole_word k) s) eqn:E; [|discriminate].
  eapply whole_word_mentioned. exact E.
Qed.

Lemma keyword_benefits_none s :
  mentions benefit_keywords s = false -> keyword_benefits s = [].
Proof.
  intros H. destruct (keyword_benefits s) as [|b rest] eqn:E; [reflexivity|].
  assert (Hin : In b (keyword_benefits s)) by (rewrite E; left; reflexivity).
  apply keyword_benefits_in in Hin as (k & Hk & _ & C).
  rewrite (mentions_false _ _ _ H Hk) in C. discriminate.
Qed.

Lemma dedup_go_in seen l x : In x (dedup_go seen l) -> In x l.
Proof.
  revert seen. induction l as [|y rest IH]; intros seen; cbn [dedup_go]; [auto|].
  destruct (existsb (text_eqb y) seen).
  - intros H. right. eapply IH. exact H.
  - intros [<-|H]; [left; reflexivity|right; eapply IH; exact H].
Qed.

Lemma dedup_in l x : In x (dedup l) -> In x l.
Proof. apply dedup_go_in. Qed.

(** On a text without a benefits header ("Benefits", "Perks", "What we
    offer", in any case) every benefit is one of the eleven keywords,
    title-cased, that the text mentions; when the text mentions none of
    them either, the list of benefits is empty. *)
Theorem extract_benefits_keywords (text_content : text) :
  mentions benefit_headers text_content = false ->
  (forall b, In b (extract_benefits text_content) ->
     exists k, In k benefit_keywords /\ b = str_title (txt k)
               /\ contains_ci (txt k) text_content = true)
  /\ (mentions benefit_keywords text_content = false ->
      extract_benefits text_content = []).
Proof.
  intros H. unfold extract_benefits.
  rewrite (benefit_sections_absent _ H). cbn [truthy]. split.
  - intros b Hb. apply firstn_in, dedup_in in Hb.
    apply keyword_benefits_in. exact Hb.
  - intros K. rewrite (keyword_benefits_none _ K). reflexivity.
Qed.

Lemma extract_benefits_keywords_witness :
  extract_benefits (txt "We are hiring.") = [].
Proof.
  apply (proj2 (extract_benefits_keywords (txt "We are hiring.") eq_refl)).
  reflexivity.
Defined.

Lemma description_sections_absent s :
  mentions description_headers s = false ->
  section_text description_patterns s = None.
Proof.
  intros H. unfold section_text, description_patterns. cbn [first_search].
  assert (H1 : re_search (section (Seq (Alt (lit_ci "Job") (lit_ci "Position"))
                                       (lit_ci " Description"))
                                  (description_stops ++ ["About"%string])) s = None).
  { destruct (re_search _ s) as [m|] eqn:E; [|reflexivity]. exfalso.
    apply section_header_found in E as (a & u & b & -> & D).
    cbn [denote] in D. destruct D as (u1 & u2 & -> & _ & D).
    apply (denote_lit_ci " Description" u2 b) in D.
    pose proof (contains_ci_app (txt " Description") (a ++ u1) _ D) as C.
    rewrite <- !app_assoc in C. rewrite <- app_assoc in H.
    rewrite (mentions_false _ " Description"%string _ H) in C;
      [discriminate|simpl; auto]. }
  rewrite H1, (section_absent "About the job"), (section_absent "Overview");
    [reflexivity| |]; apply (mentions_false description_headers); auto; simpl; auto.
Qed.

Lemma first_selected_none s selectors :
  (forall selector, In selector selectors -> select_one s (txt selector) = Ok None) ->
  first_selected s selectors = Ok None.
Proof.
  induction selectors as [|x rest IH]; intros H; [reflexivity|].
  cbn [first_selected]. rewrite (H x (or_introl eq_refl)).
  apply IH. intros y Hy. apply H. right. exact Hy.
Qed.

(** When no description selector selects anything and the page text has
    no description header, the description is the first 500 characters
    of the text followed by ["..."], hence at most 503 characters long;
    when the first selector selects a tag with text, that text is the
    description whatever the page text says. *)
Theorem extract_job_description_cascade (s : soup) (text_content : text) :
  ((forall selector, In selector description_selectors ->
      select_one s (txt selector) = Ok None) ->
   mentions description_headers text_content = false ->
   extract_job_description s text_content
   = Ok (firstn 500 text_content ++ txt "...")
   /\ length (firstn 500 text_content ++ txt "...") <= 503)
  /\ (forall tag,
         select_one s (txt "div.job-description") = Ok (Some tag) ->
         get_text_strip tag <> [] ->
         extract_job_description s text_content = Ok (get_text_strip tag)).
Proof.
  split.
  - intros Hs Ht. unfold extract_job_description.
    rewrite (first_selected_none _ _ Hs), (description_sections_absent _ Ht).
    cbn [dict_get truthy]. split; [reflexivity|].
    rewrite length_app. pose proof (firstn_le_length 500 text_content).
    change (length (txt "...")) with 3. lia.
  - intros tag Hs Hne. unfold extract_job_description, description_selectors.
    cbn [first_selected]. rewrite Hs. cbn [dict_get].
    destruct (get_text_strip tag) as [|c t]; [congruence|reflexivity].
Qed.

Lemma extract_job_description_cascade_witness :
  extract_job_description no_soup (txt "We are hiring.")
  = Ok (firstn 500 (txt "We are hiring.") ++ txt "...").
Proof.
  apply (proj1 (extract_job_description_cascade no_soup (txt "We are hiring."))).
  - intros selector _. reflexivity.
  - reflexivity.
Defined.

(** ** No blank entries *)

Lemma in_range_spec lo hi c :
  in_range lo hi c = true <-> lo <= code c <= hi.
Proof.
  unfold in_range. rewrite andb_true_iff, !Nat.leb_le. tauto.
Qed.

Lemma in_range_false lo hi c :
  in_range lo hi c = false <-> ~ (lo <= code c <= hi).
Proof.
  rewrite <- in_range_spec. destruct (in_range lo hi c); split; congruence.
Qed.

Lemma lower_not_space k y :
  is_lower k = true -> eq_ci k y = true -> is_space y = false.
Proof.
  unfold is_lower, eq_ci, to_lower, is_upper, is_space.
  intros Hk H. apply in_range_spec in Hk.
  destruct (in_range 65 90 k) eqn:Uk; [apply in_range_spec in Uk; lia|].
  apply Ascii.eqb_eq in H.
  destruct (in_range 9 13 y || in_range 28 32 y) eqn:S; [|reflexivity].
  exfalso. apply orb_true_iff in S.
  destruct (in_range 65 90 y) eqn:Uy.
  - apply in_range_spec in Uy.
    destruct S as [S|S]; apply in_range_spec in S; lia.
  - subst y. destruct S as [S|S]; apply in_range_spec in S; lia.
Qed.

Lemma strip_nonempty c t : is_space c = false -> str_strip (c :: t) <> [].
Proof.
  intros H. unfold str_strip. cbn [lstrip]. rewrite H, rstrip_cons, H.
  cbn [andb]. discriminate.
Qed.

Lemma lit_ci_starts_unspaced k k0 krest u :
  txt k = k0 :: krest -> is_lower k0 = true ->
  denote (lit_ci k) u -> exists y t, u = y :: t /\ is_space y = false.
Proof.
  intros Hk Hl D. apply (denote_seq_of_ci _ _ []) in D as [D _].
  rewrite Hk, app_nil_r in D. destruct u as [|y t]; [discriminate|].
  cbn [starts_with_ci] in D. apply andb_true_iff in D as [D _].
  exists y, t. split; [reflexivity|]. eapply lower_not_space; eassumption.
Qed.

Lemma keyword_sentences_nonempty s x : In x (keyword_sentences s) -> x <> [].
Proof.
  unfold keyword_sentences. intros H.
  apply in_flat_map in H as (k & Hk & H).
  apply in_map_iff in H as (m & <- & H).
  apply finditer_group0 in H. unfold sentence_from in H.
  cbn [seqs denote] in H. destruct H as (u & v & -> & D & _).
  assert (U : exists y t, u = y :: t /\ is_space y = false).
  { destruct Hk as [<-|[<-|[<-|[<-|[<-|[<-|[<-|[<-|[]]]]]]]]];
      eapply lit_ci_starts_unspaced; try exact D; reflexivity. }
  destruct U as (y & t & -> & Hy). apply strip_nonempty. exact Hy.
Qed.

Lemma section_items_nonempty n sec x : In x (section_items n sec) -> x <> [].
Proof.
  unfold section_items.
  destruct (re_findall bullet_pattern sec) as [|p ps].
  - intros H. apply filter_In in H as [_ H]. apply Nat.ltb_lt in H.
    destruct x; [simpl in H; lia|discriminate].
  - intros H. apply in_map_iff in H as (point & <- & H).
    apply filter_In in H as [_ H]. apply truthy_true. exact H.
Qed.

Lemma extract_job_requirements_nonempty s x :
  In x (extract_job_requirements s) -> x <> [].
Proof.
  unfold extract_job_requirements. intros H. apply firstn_in, dedup_in in H.
  match type of H with
  | In x (if truthy ?l then _ else _) => destruct (truthy l) eqn:T
  end.
  - destruct (section_text req_patterns s) as [[|c t]|]; try (destruct H).
    eapply section_items_nonempty. exact H.
  - eapply keyword_sentences_nonempty. exact H.
Qed.

Lemma extract_benefits_nonempty s x : In x (extract_benefits s) -> x <> [].
Proof.
  unfold extract_benefits. intros H. apply firstn_in, dedup_in in H.
  match type of H with
  | In x (if truthy ?l then _ else _) => destruct (truthy l) eqn:T
  end.
  - destruct (section_text benefit_patterns s) as [[|c t]|]; try (destruct H).
    eapply section_items_nonempty. exact H.
  - apply keyword_benefits_in in H as (k & Hk & -> & _).
    destruct Hk as [<-|[<-|[<-|[<-|[<-|[<-|[<-|[<-|[<-|[<-|[<-|[]]]]]]]]]]]];
      discriminate.
Qed.

Lemma potential_requirements_long s x :
  In x (potential_requirements s) -> 10 < length x.
Proof.
  unfold potential_requirements. intros H.
  apply in_flat_map in H as (k & _ & H).
  apply filter_In in H as [_ H]. apply Nat.ltb_lt. exact H.
Qed.

Lemma fallback_requirements_nonblank url s x :
  In x (fallback_requirements url s) -> x <> [].
Proof.
  unfold fallback_requirements.
  destruct (potential_requirements s) as [|p ps] eqn:E.
  - unfold generic_requirements.
    intros [<-|[<-|[<-|[<-|[]]]]]; discriminate.
  - intros H. apply firstn_in in H. rewrite <- E in H.
    apply potential_requirements_long in H. destruct x; [simpl in H; lia|discriminate].
Qed.

(** What holds of the primary requirements and of the requirements of
    every alternate page holds of the requirements after the secondary
    recovery. *)
Lemma secondary_recovery_invariant (P : list text -> Prop) W s d q tr d' q' :
  (forall t, P (extract_job_requirements t)) ->
  P q ->
  secondary_recovery W s d q = (tr, Ok (d', q')) ->
  P q'.
Proof.
  intros HP Hq.
  assert (T : forall result d q tr d' q' b,
             P q -> try_alternate W result d q = (tr, Ok (d', q', b)) -> P q').
  { clear d q tr d' q' Hq. intros result d q tr d' q' b Hq.
    unfold try_alternate, http_get, bind.
    destruct (requests_get W _ _ _) as [resp|]; [|discriminate].
    destruct (status_code resp =? 200)%Z.
    - destruct (if truthy d then ret d else lift (extract_job_description _ _))
        as [tr1 [d1|]]; [|discriminate].
      cbn [ret]. intros H. inversion H; subst.
      destruct (truthy q); [exact Hq|apply HP].
    - cbn [ret]. intros H. inversion H; subst. exact Hq. }
  assert (A : forall results d q tr d' q',
             P q -> alternate_sources W results d q = (tr, Ok (d', q')) -> P q').
  { clear d q tr d' q' Hq. induction results as [|result rest IH];
      intros d q tr d' q' Hq; cbn [alternate_sources].
    - intros H. inversion H; subst. exact Hq.
    - destruct (try_alternate W result d q) as [tr1 [[[d1 q1] b]|]] eqn:E.
      + pose proof (T _ _ _ _ _ _ _ Hq E) as Hq1. destruct b.
        * intros H. inversion H; subst. exact Hq1.
        * destruct (alternate_sources W rest d1 q1) as [tr2 r] eqn:E2.
          intros H. inversion H; subst. eapply IH; eassumption.
      + destruct (alternate_sources W rest d q) as [tr2 r] eqn:E2.
        intros H. inversion H; subst. eapply IH; eassumption. }
  unfold secondary_recovery.
  destruct (negb (truthy d) || negb (truthy q)).
  2:{ intros H. inversion H; subst. exact Hq. }
  destruct (page_title_parts s) as [title company].
  destruct (truthy title).
  2:{ intros H. inversion H; subst. exact Hq. }
  unfold catch, bind, search.
  destruct (ddgs_text W _ 3) as [alt_results|].
  - destruct (alternate_sources W alt_results d q) as [tr2 [[d2 q2]|]] eqn:E.
    + intros H. inversion H; subst. eapply A; eassumption.
    + cbn [ret]. intros H. inversion H; subst. exact Hq.
  - cbn [ret]. intros H. inversion H; subst. exact Hq.
Qed.

(** No requirement and no benefit of the record of [get_job_details] is
    an empty string, on any path. *)
Theorem get_job_details_no_blank_entry (W : World) (url : text) (x : text) :
  In x (requirements (snd (get_job_details W url)))
  \/ In x (benefits (snd (get_job_details W url))) ->
  x <> [].
Proof.
  unfold get_job_details.
  destruct (get_job_details_try W url) as [tr [r|]] eqn:E; cbn [snd].
  - apply get_job_details_try_ok in E as (tr1 & resp & tr2 & dr & _ & H & _ & ->).
    cbn [requirements benefits]. intros [Hx|Hx].
    + destruct (truthy (snd dr)); [|eapply fallback_requirements_nonblank; exact Hx].
      unfold extract_and_recover in H.
      apply bind_ok in H as (t1 & d & t2 & _ & H & _).
      destruct dr as [d' q']. cbn [snd] in Hx.
      apply (secondary_recovery_invariant
               (fun q => forall y, In y q -> y <> []) W _ _ _ _ _ _
               (fun t y => extract_job_requirements_nonempty t y)
               (fun y => extract_job_requirements_nonempty _ y) H x Hx).
    + eapply extract_benefits_nonempty. exact Hx.
  - cbn [placeholder_record requirements benefits].
    intros [[<-|[<-|[<-|[<-|[]]]]]|[<-|[]]]; discriminate.
Qed.

Lemma get_job_details_no_blank_entry_witness :
  txt "required for this role." <> [].
Proof.
  apply (get_job_details_no_blank_entry repeated_requirement_site
           (txt "https://example.com/jobs/python-developer")).
  left. vm_compute. left. reflexivity.
Defined.

(** ** Course suggestions *)

Lemma json_array_absent content :
  str_contains (txt "[") content = false -> re_search json_array content = None.
Proof.
  intros H. destruct (re_search json_array content) as [st|] eqn:S; [|reflexivity].
  exfalso. apply search_from_sound in S as (a & w & D & -> & _).
  unfold json_array in D. cbn [seqs denote] in D.
  destruct D as (u & v & -> & D & _). apply denote_ch in D. subst u.
  unfold str_contains in H.
  rewrite <- app_assoc in H.
  pose proof (str_find_app_some (txt "[") a (v ++ m_rest st)) as F.
  change ([("["%char)]) with (txt "[") in H.
  destruct (str_find (txt "[") (a ++ txt "[" ++ v ++ m_rest st));
    [discriminate|congruence].
Qed.

(** [suggest_courses_for_skills] always returns a value.  A fenced JSON
    block that parses gives the parsed value.  A reply without a fenced
    block and without ["["] gives the one-entry placeholder whose skill
    is the first requested skill, or ["Professional Skills"] when no
    skill was requested.  A failing service call, and a candidate text
    that [json.loads] rejects, give the one-entry error list. *)
Theorem suggest_courses_cascade (W : World) (skills_to_develop : list text)
        (llm : text -> outcome text) :
  (forall content body v,
      llm (course_prompt skills_to_develop) = Ok content ->
      fenced_contents content = Some body ->
      json_loads W body = Ok v ->
      suggest_courses_for_skills W skills_to_develop llm = v)
  /\ (forall content,
         llm (course_prompt skills_to_develop) = Ok content ->
         fenced_contents content = None ->
         str_contains (txt "[") content = false ->
         suggest_courses_for_skills W skills_to_develop llm
         = suggestion (hd (txt "Professional Skills") skills_to_develop)
                      "Error retrieving course suggestions"
                      "Multiple platforms available"
                      "Please try again or search for courses related to these skills online")
  /\ (forall content candidate,
         llm (course_prompt skills_to_develop) = Ok content ->
         course_candidate content = Some candidate ->
         json_loads W candidate = Raised ->
         suggest_courses_for_skills W skills_to_develop llm = course_error_fallback)
  /\ (llm (course_prompt skills_to_develop) = Raised ->
      suggest_courses_for_skills W skills_to_develop llm = course_error_fallback).
Proof.
  unfold suggest_courses_for_skills, course_candidate. repeat split.
  - intros content body v -> F J. rewrite <- fenced_json_search in F.
    destruct (re_search fenced_json content) as [m|]; [|discriminate].
    cbn [option_map] in F. inversion F as [F']. rewrite F', J. reflexivity.
  - intros content -> F B. rewrite <- fenced_json_search in F.
    destruct (re_search fenced_json content) as [m|]; [discriminate|].
    rewrite (json_array_absent _ B). destruct skills_to_develop; reflexivity.
  - intros content candidate -> C J. rewrite C, J. reflexivity.
  - intros ->. reflexivity.
Qed.

Lemma suggest_courses_cascade_witness :
  suggest_courses_for_skills (scorer_world []) []
                             (fun _ => Ok (txt "I cannot help with that."))
  = suggestion (txt "Professional Skills") "Error retrieving course suggestions"
               "Multiple platforms available"
               "Please try again or search for courses related to these skills online"
  /\ suggest_courses_for_skills (scorer_world [(good_body, good_analysis)])
                                [txt "SQL"] (fun _ => Ok good_reply)
     = good_analysis.
Proof.
  split.
  - apply (proj1 (proj2 (suggest_courses_cascade (scorer_world []) []
                           (fun _ => Ok (txt "I cannot help with that."))))
                 (txt "I cannot help with that.")); reflexivity.
  - apply (proj1 (suggest_courses_cascade (scorer_world [(good_body, good_analysis)])
                    [txt "SQL"] (fun _ => Ok good_reply))
                 good_reply good_body good_analysis); reflexivity.
Defined.

(** ** The last fallbacks of the requirements *)

Lemma re_finditer_none r s : re_search r s = None -> re_finditer r s = [].
Proof.
  unfold re_finditer, re_search. intros H. cbn [finditer_from]. rewrite H.
  reflexivity.
Qed.

Lemma requirement_pattern_absent k s :
  contains_ci (txt k) s = false -> re_search (requirement_pattern k) s = None.
Proof.
  intros H. destruct (re_search (requirement_pattern k) s) as [m|] eqn:E;
    [|reflexivity].
  exfalso. apply search_from_sound in E as (a & w & D & -> & _).
  unfold requirement_pattern in D. cbn [seqs denote] in D.
  destruct D as (u & v & -> & _ & u2 & v2 & -> & D & _).
  apply (denote_lit_ci k u2 (v2 ++ m_rest m)) in D.
  pose proof (contains_ci_app (txt k) (a ++ u) _ D) as C.
  replace (a ++ (u ++ u2 ++ v2) ++ m_rest m)
    with ((a ++ u) ++ u2 ++ v2 ++ m_rest m) in H
    by (repeat rewrite <- app_assoc; reflexivity).
  congruence.
Qed.

Lemma potential_requirements_none s :
  mentions requirement_keywords s = false -> potential_requirements s = [].
Proof.
  intros H. unfold potential_requirements.
  assert (G : forall ks, (forall k, In k ks -> In k requirement_keywords) ->
                flat_map (fun keyword =>
                  filter (fun req => 10 <? length req)
                    (map (fun m => str_strip (group1 m))
                       (re_finditer (requirement_pattern keyword) s))) ks = []).
  { induction ks as [|k ks IH]; intros Hk; [reflexivity|].
    cbn [flat_map].
    rewrite re_finditer_none.
    - cbn [map filter app]. apply IH. intros k' Hk'. apply Hk. right. exact Hk'.
    - apply requirement_pattern_absent.
      apply (mentions_false requirement_keywords); [exact H|].
      apply Hk. left. reflexivity. }
  apply G. auto.
Qed.

(** The requirements used when none were extracted: sentences of more
    than 10 characters, at most 10 of them, or, when the page text
    mentions none of the ten requirement keywords, the four generic
    requirements built from the URL. *)
Theorem fallback_requirements_cases (url text_content : text) :
  (forall x, In x (potential_requirements text_content) -> 10 < length x)
  /\ length (fallback_requirements url text_content) <= 10
  /\ (mentions requirement_keywords text_content = false ->
      fallback_requirements url text_content = generic_requirements url
      /\ length (fallback_requirements url text_content) = 4).
Proof.
  split; [intros x; apply potential_requirements_long|].
  split; [apply fallback_requirements_length|].
  intros H. unfold fallback_requirements.
  rewrite (potential_requirements_none _ H). split; reflexivity.
Qed.

Lemma fallback_requirements_cases_witness :
  fallback_requirements (txt "https://example.com/jobs/data-analyst")
                        (txt "We are hiring.")
  = generic_requirements (txt "https://example.com/jobs/data-analyst").
Proof.
  apply (proj2 (proj2 (fallback_requirements_cases
                         (txt "https://example.com/jobs/data-analyst")
                         (txt "We are hiring.")))).
  reflexivity.
Defined.

(** ** The pseudo-title of a URL *)

Lemma str_split_go_never_empty sep skip acc s : str_split_go sep skip acc s <> [].
Proof.
  revert skip acc. induction s as [|c t IH]; intros skip acc; cbn [str_split_go].
  - discriminate.
  - destruct skip; [|apply IH].
    destruct (starts_with sep (c :: t)); [discriminate|apply IH].
Qed.

Lemma last_cons {A} (x : A) l d : l <> [] -> last (x :: l) d = last l d.
Proof. destruct l; [congruence|reflexivity]. Qed.

Lemma split_trailing_slash acc s :
  last (str_split_go (txt "/") 0 acc (s ++ txt "/")) [] = [].
Proof.
  revert acc. induction s as [|c t IH]; intros acc.
  - reflexivity.
  - cbn [app str_split_go].
    destruct (starts_with (txt "/") (c :: t ++ txt "/")).
    + rewrite last_cons by apply str_split_go_never_empty. apply IH.
    + apply IH.
Qed.

(** A URL that ends with ["/"] has an empty last path segment: the
    pseudo-title is empty, and the placeholder record speaks of "a
    position" without a name. *)
Theorem title_of_url_trailing_slash (url : text) :
  title_of_url (url ++ txt "/") = []
  /\ description (placeholder_record (url ++ txt "/"))
     = txt "This is a job listing for a  position. The original job posting contains more detailed information."
  /\ hd [] (requirements (placeholder_record (url ++ txt "/")))
     = txt "Experience with  or similar roles".
Proof.
  assert (H : title_of_url (url ++ txt "/") = []).
  { unfold title_of_url, str_split. rewrite split_trailing_slash. reflexivity. }
  unfold placeholder_record. cbn [description requirements hd].
  rewrite H. repeat split.
Qed.

(** ** A reply with bare JSON *)

Lemma consume_g0 w st : m_g0 (consume w st) = rev w ++ m_g0 st.
Proof.
  revert st. induction w as [|c w IH]; intros st; cbn [consume rev app];
    [reflexivity|].
  rewrite IH. cbn [advance m_g0]. rewrite <- app_assoc. reflexivity.
Qed.

Lemma rmatch_braces st k :
  rmatch braces st k
  = rmatch (lit "{") st (fun s1 =>
      rmatch (Star true (Chr (fun _ => true))) s1 (fun s2 =>
        rmatch (lit "}") s2 k)).
Proof. reflexivity. Qed.

(** The greedy run over anything falls back to the last closing
    brace. *)
Lemma greedy_any_last rest st :
  m_rest st = rest ->
  greedy_from (fun _ => true) (fun s2 => rmatch (lit "}") s2 Some) rest st
  = option_map (fun u => consume u st) (upto_last "}"%char rest).
Proof.
  revert st. induction rest as [|x t IH]; intros st E; cbn [greedy_from upto_last].
  - rewrite rmatch_lit, E. reflexivity.
  - rewrite (IH (advance x t st)) by reflexivity.
    destruct (upto_last "}"%char t) as [u|]; cbn [option_map].
    + cbn [consume]. rewrite E. reflexivity.
    + rewrite rmatch_lit, E.
      change (starts_with (txt "}") (x :: t)) with (Ascii.eqb "}"%char x && true).
      rewrite andb_true_r, Ascii.eqb_sym.
      destruct (Ascii.eqb_spec x "}"%char) as [->|]; [|reflexivity].
      cbn [option_map consume txt list_ascii_of_string]. rewrite E. reflexivity.
Qed.

Lemma match_here_braces pre after :
  option_map group0 (match_here braces pre ("{"%char :: after))
  = option_map (cons "{"%char) (upto_last "}"%char after).
Proof.
  unfold match_here. rewrite rmatch_braces.
  rewrite (rmatch_lit_app "{" after) by reflexivity.
  rewrite rmatch_star_chr.
  set (s1 := consume (txt "{") (start_state pre ("{"%char :: after))).
  assert (E1 : m_rest s1 = after) by (apply consume_rest; reflexivity).
  rewrite E1, (greedy_any_last after s1 E1).
  destruct (upto_last "}"%char after) as [u|]; [|reflexivity].
  cbn [option_map]. unfold group0. rewrite consume_g0. unfold s1.
  rewrite consume_g0. cbn [start_state m_g0 txt list_ascii_of_string rev app].
  rewrite ?app_nil_r, rev_app_distr, rev_involutive. reflexivity.
Qed.

Lemma upto_last_some c a b : upto_last c (a ++ c :: b) <> None.
Proof.
  induction a as [|x a IH]; cbn [app upto_last].
  - destruct (upto_last c b); [discriminate|].
    rewrite Ascii.eqb_refl. discriminate.
  - destruct (upto_last c (a ++ c :: b)); [discriminate|congruence].
Qed.

Lemma search_from_braces content acc :
  option_map group0 (search_from braces acc content) = brace_span content.
Proof.
  revert acc. induction content as [|c t IH]; intros acc; [reflexivity|].
  destruct (Ascii.eqb_spec "{"%char c) as [<-|Hc].
  - unfold brace_span. rewrite str_find_here by reflexivity.
    cbn [Nat.add skipn]. rewrite <- (match_here_braces acc t).
    cbn [search_from].
    destruct (match_here braces acc ("{"%char :: t)) as [st|] eqn:M; [reflexivity|].
    pose proof (match_here_braces acc t) as B. rewrite M in B. cbn [option_map] in B.
    destruct (search_from braces ("{"%char :: acc) t) as [st|] eqn:S; [|reflexivity].
    exfalso. apply search_from_sound in S as (a & w & D & E & _).
    apply denote_braces in D as (mid & ->).
    destruct (upto_last "}"%char t) eqn:U; [discriminate|].
    rewrite E in U.
    replace (a ++ (txt "{" ++ mid ++ txt "}") ++ m_rest st)
      with ((a ++ txt "{" ++ mid) ++ "}"%char :: m_rest st) in U
      by (repeat rewrite <- app_assoc; reflexivity).
    apply upto_last_some in U. exact U.
  - assert (S : starts_with (txt "{") (c :: t) = false).
    { change (starts_with (txt "{") (c :: t)) with (Ascii.eqb "{"%char c && true).
      rewrite andb_true_r. apply Ascii.eqb_neq. exact Hc. }
    cbn [search_from].
    assert (M : match_here braces acc (c :: t) = None).
    { unfold match_here. rewrite rmatch_braces, rmatch_lit.
      cbn [start_state m_rest]. rewrite S. reflexivity. }
    rewrite M, IH. unfold brace_span. rewrite str_find_cons by exact S.
    destruct (str_find (txt "{") t); reflexivity.
Qed.

(** Without a fenced block, the text that [analyze_job_fit] hands to
    [json.loads] is the span of the reply from its first ["{"] to its
    last ["}"], and there is none when no ["}"] follows the first
    ["{"]. *)
Theorem json_candidate_brace_span (content : text) :
  fenced_contents content = None ->
  json_candidate content = brace_span content.
Proof.
  intros F. unfold json_candidate. rewrite <- fenced_json_search in F.
  destruct (re_search fenced_json content); [discriminate|].
  rewrite <- (search_from_braces content []). unfold re_search.
  destruct (search_from braces [] content); reflexivity.
Qed.

Lemma json_candidate_brace_span_witness :
  json_candidate (txt "Result: {a: {b}} and {c} done")
  = Some (txt "{a: {b}} and {c}").
Proof.
  rewrite (json_candidate_brace_span (txt "Result: {a: {b}} and {c} done") eq_refl).
  reflexivity.
Defined.

(** ** Requirements read from sentences *)

(** Every match of [re.finditer] is a word of the pattern and a piece of
    the subject. *)
Lemma finditer_from_inside fuel r pre rest st :
  In st (finditer_from fuel r pre rest) ->
  denote r (group0 st) /\ exists a b, rest = a ++ group0 st ++ b.
Proof.
  revert pre rest. induction fuel as [|f IH]; intros pre rest; cbn [finditer_from].
  - intros [].
  - destruct (search_from r pre rest) as [m|] eqn:E; [|intros []].
    apply search_from_sound in E as (a & w & D & E & G).
    intros [<-|H].
    + rewrite G. split; [exact D|]. exists a, (m_rest m). exact E.
    + assert (T : denote r (group0 st)
                  /\ exists a' b', m_rest m = a' ++ group0 st ++ b').
      { destruct (m_g0 m).
        - destruct (m_rest m) as [|c t]; [destruct H|].
          apply IH in H as (D' & a' & b' & E'). split; [exact D'|].
          exists (c :: a'), b'. rewrite E'. reflexivity.
        - apply IH in H. exact H. }
      destruct T as (D' & a' & b' & E'). split; [exact D'|].
      exists (a ++ w ++ a'), b'. rewrite E, E'.
      repeat rewrite <- app_assoc. reflexivity.
Qed.

Lemma star_chr_forallb p w : star_lang (denote (Chr p)) w -> forallb p w = true.
Proof.
  induction 1 as [|u v (c & -> & Hc) _ IH]; [reflexivity|].
  cbn [app forallb]. rewrite Hc, IH. reflexivity.
Qed.

Lemma forallb_pointwise {A} (f g : A -> bool) l :
  (forall x, f x = g x) -> forallb f l = forallb g l.
Proof.
  intros H. induction l as [|x l IH]; [reflexivity|].
  cbn [forallb]. rewrite H, IH. reflexivity.
Qed.

Lemma str_strip_unspaced y m z :
  is_space y = false -> is_space z = false ->
  str_strip (y :: m ++ [z]) = y :: m ++ [z].
Proof.
  intros Hy Hz. unfold str_strip. cbn [lstrip]. rewrite Hy. unfold rstrip.
  replace (rev (y :: m ++ [z])) with (z :: rev (y :: m))
    by (change (y :: m ++ [z]) with ((y :: m) ++ [z]); rewrite rev_app_distr;
        reflexivity).
  cbn [lstrip]. rewrite Hz.
  change (rev (z :: rev (y :: m))) with (rev (rev (y :: m)) ++ [z]).
  rewrite rev_involutive. reflexivity.
Qed.

Lemma requirement_sections_absent s :
  mentions requirement_headers s = false -> section_text req_patterns s = None.
Proof.
  intros H. unfold section_text, req_patterns. cbn [first_search].
  assert (P : forall (h : string) (tail : re),
             In h requirement_headers ->
             re_search (section (Seq (lit_ci h) tail) section_stops) s = None).
  { intros h tail Hh. destruct (re_search _ s) as [m|] eqn:E; [|reflexivity].
    exfalso. apply section_header_found in E as (a & u & b & -> & D).
    cbn [denote] in D. destruct D as (u1 & u2 & -> & D & _).
    apply (denote_lit_ci h u1 (u2 ++ b)) in D.
    pose proof (contains_ci_app (txt h) a _ D) as C.
    rewrite <- app_assoc in H.
    rewrite (mentions_false _ h _ H Hh) in C. discriminate. }
  rewrite (P "Requirement"%string), (P "Qualification"%string) by (simpl; auto).
  rewrite (section_absent "Skills"); [reflexivity|].
  apply (mentions_false requirement_headers); [exact H|simpl; auto].
Qed.

Lemma keyword_sentences_in s x :
  In x (keyword_sentences s) ->
  exists k a b, In k skill_keywords /\ keyword_sentence k x /\ s = a ++ x ++ b.
Proof.
  unfold keyword_sentences. intros H.
  apply in_flat_map in H as (k & Hk & H).
  apply in_map_iff in H as (m & <- & H).
  unfold re_finditer in H. apply finditer_from_inside in H as (D & a & b & E).
  unfold sentence_from in D. cbn [seqs denote] in D.
  destruct D as (u & v & W & D & body & dot & -> & B & Dot).
  apply denote_ch in Dot. subst dot.
  assert (U : exists y t, u = y :: t /\ is_space y = false).
  { destruct Hk as [<-|[<-|[<-|[<-|[<-|[<-|[<-|[<-|[]]]]]]]]];
      eapply lit_ci_starts_unspaced; try exact D; reflexivity. }
  apply (denote_seq_of_ci _ _ []) in D as [D L]. rewrite app_nil_r in D.
  unfold plus in B. cbn [denote] in B.
  destruct B as (c1 & more & -> & (c & -> & Hc) & B).
  apply star_chr_forallb in B.
  assert (S : str_strip (group0 m) = group0 m).
  { rewrite W. destruct U as (y & t & -> & Hy).
    replace ((y :: t) ++ ([c] ++ more) ++ ["."%char])
      with (y :: (t ++ [c] ++ more) ++ ["."%char])
      by (cbn [app]; rewrite <- app_assoc; reflexivity).
    apply str_strip_unspaced; [exact Hy|reflexivity]. }
  rewrite S. exists k, a, b. split; [exact Hk|]. split; [|exact E].
  exists u, ([c] ++ more). split; [exact W|]. split; [exact L|].
  split; [exact D|]. split; [discriminate|].
  assert (N : forall x, negb (existsb (Ascii.eqb x) (txt "."))
                        = negb (Ascii.eqb x "."%char)).
  { intros x.
    change (existsb (Ascii.eqb x) (txt ".")) with (Ascii.eqb x "."%char || false).
    rewrite orb_false_r. reflexivity. }
  cbv beta in Hc. rewrite N in Hc.
  rewrite (forallb_pointwise (fun x => negb (existsb (Ascii.eqb x) (txt ".")))
                             (fun x => negb (Ascii.eqb x "."%char)) _ N) in B.
  cbn [app forallb]. rewrite Hc, B. reflexivity.
Qed.

Lemma sentence_absent k s :
  contains_ci (txt k) s = false -> re_search (sentence_from k) s = None.
Proof.
  intros H. destruct (re_search (sentence_from k) s) as [m|] eqn:E;
    [|reflexivity].
  exfalso. apply search_from_sound in E as (a & w & D & -> & _).
  unfold sentence_from in D. cbn [seqs denote] in D.
  destruct D as (u & v & -> & D & _).
  apply (denote_lit_ci k u (v ++ m_rest m)) in D.
  pose proof (contains_ci_app (txt k) a _ D) as C.
  rewrite <- app_assoc in H. congruence.
Qed.

Lemma keyword_sentences_none s :
  mentions skill_keywords s = false -> keyword_sentences s = [].
Proof.
  intros H. unfold keyword_sentences.
  assert (G : forall ks, (forall k, In k ks -> In k skill_keywords) ->
                flat_map (fun keyword =>
                  map (fun m => str_strip (group0 m))
                      (re_finditer (sentence_from keyword) s)) ks = []).
  { induction ks as [|k ks IH]; intros Hk; [reflexivity|].
    cbn [flat_map]. rewrite re_finditer_none.
    - cbn [map app]. apply IH. intros k' Hk'. apply Hk. right. exact Hk'.
    - apply sentence_absent. apply (mentions_false skill_keywords); [exact H|].
      apply Hk. left. reflexivity. }
  apply G. auto.
Qed.

(** On a text without a requirements header ("Requirement",
    "Qualification", "Skills", in any case) every requirement is a piece
    of the text itself: a sentence that opens with one of the eight
    skill keywords and runs to the next full stop.  When the text
    mentions none of the keywords either, no requirement is
    extracted. *)
Theorem requirements_are_keyword_sentences (text_content : text) :
  mentions requirement_headers text_content = false ->
  (forall x, In x (extract_job_requirements text_content) ->
     exists k a b, In k skill_keywords /\ keyword_sentence k x
                   /\ text_content = a ++ x ++ b)
  /\ (mentions skill_keywords text_content = false ->
      extract_job_requirements text_content = []).
Proof.
  intros H. unfold extract_job_requirements.
  rewrite (requirement_sections_absent _ H). cbn [truthy]. split.
  - intros x Hx. apply firstn_in, dedup_in in Hx.
    apply keyword_sentences_in. exact Hx.
  - intros K. rewrite (keyword_sentences_none _ K). reflexivity.
Qed.

Lemma requirements_are_keyword_sentences_witness :
  exists k a b,
    In k skill_keywords
    /\ keyword_sentence k (txt "experience with SQL.")
    /\ txt "We need experience with SQL. Apply now."
       = a ++ txt "experience with SQL." ++ b.
Proof.
  apply (proj1 (requirements_are_keyword_sentences
                  (txt "We need experience with SQL. Apply now.") eq_refl)).
  vm_compute. left. reflexivity.
Defined.

(** ** The order of the external calls *)

Lemma alternate_sources_requests W results d q :
  exists m, fst (alternate_sources W results d q)
            = map alternate_request (firstn m results).
Proof.
  revert d q. induction results as [|result rest IH]; intros d q;
    cbn [alternate_sources].
  - exists 0. reflexivity.
  - pose proof (try_alternate_trace W result d q) as T.
    destruct (try_alternate W result d q) as [tr [[[d1 q1] b]|]];
      cbn [fst] in T; subst tr.
    + destruct b.
      * exists 1. reflexivity.
      * destruct (IH d1 q1) as (m & Hm).
        destruct (alternate_sources W rest d1 q1) as [tr' r].
        cbn [fst] in *. exists (S m). cbn [firstn map app]. rewrite Hm.
        reflexivity.
    + destruct (IH d q) as (m & Hm).
      destruct (alternate_sources W rest d q) as [tr' r].
      cbn [fst] in *. exists (S m). cbn [firstn map app]. rewrite Hm.
      reflexivity.
Qed.

Lemma secondary_recovery_calls W s d q :
  recovery_calls W (fst (secondary_recovery W s d q)).
Proof.
  rewrite secondary_recovery_trace.
  destruct ((negb (truthy d) || negb (truthy q))
            && truthy (fst (page_title_parts s))); [|constructor].
  destruct (ddgs_text W (recovery_query s) 3) as [alt_results|] eqn:E.
  - destruct (alternate_sources_requests W alt_results d q) as (m & ->).
    apply alternates. exact E.
  - apply failed_search. exact E.
Qed.

(** The external calls of [get_job_details] come in a fixed order: first
    the one to four requests for the page, then at most one search,
    limited to three results, then requests for a leading part of the
    results of that search, in the provider's order, each under the
    third browser identity alone and with a 10-second timeout. *)
Theorem get_job_details_call_order (W : World) (url : text) :
  exists n tail,
    1 <= n <= 4
    /\ fst (get_job_details W url)
       = map (page_request url) (firstn n user_agents) ++ tail
    /\ recovery_calls W tail.
Proof.
  rewrite get_job_details_trace. unfold get_job_details_try.
  rewrite fst_bind.
  destruct (fetch_page_spec W url) as (n & Hn & Ht & _). exists n.
  rewrite Ht.
  destruct (snd (fetch_page W url)) as [r|].
  2:{ exists []. split; [exact Hn|]. split; [reflexivity|constructor]. }
  rewrite fst_bind. unfold extract_and_recover. rewrite fst_bind, snd_bind.
  cbn [lift fst snd app].
  destruct (extract_job_description _ _) as [d|].
  - exists (fst (secondary_recovery W (BeautifulSoup W (response_text r)) d
                   (extract_job_requirements (h2t_handle W (response_text r))))).
    split; [exact Hn|]. split; [|apply secondary_recovery_calls].
    destruct (snd (secondary_recovery _ _ _ _)); cbn [ret fst];
      rewrite app_nil_r; reflexivity.
  - exists []. split; [exact Hn|]. split; [reflexivity|constructor].
Qed.

(** ** Bullet points *)

Lemma plus_chr_forallb p w : denote (plus (Chr p)) w -> forallb p w = true.
Proof.
  unfold plus. cbn [denote]. intros (u & v & -> & (c & -> & Hc) & H).
  apply star_chr_forallb in H. cbn [app forallb]. rewrite Hc, H. reflexivity.
Qed.

Lemma bullet_point_free sec point :
  In point (re_findall bullet_pattern sec) -> free_of bullet_stops point = true.
Proof.
  unfold re_findall. intros H. apply in_map_iff in H as (m & <- & H).
  eapply finditer_group1 in H; [|reflexivity].
  apply plus_chr_forallb in H. exact H.
Qed.

(** In a section that has bullet points, the items are the bullet
    points, and a bullet point ends at the next newline, ["*"], ["-"]
    or bullet character: no item is empty and none holds one of these
    characters, a hyphen included. *)
Theorem bullet_items_stop_at_markers (min_len : nat) (sec x : text) :
  re_findall bullet_pattern sec <> [] ->
  In x (section_items min_len sec) ->
  x <> [] /\ free_of bullet_stops x = true
  /\ exists point, In point (re_findall bullet_pattern sec) /\ x = str_strip point.
Proof.
  intros Hb Hx. split; [eapply section_items_nonempty; exact Hx|].
  unfold section_items in Hx.
  destruct (re_findall bullet_pattern sec) as [|p ps] eqn:E; [congruence|].
  apply in_map_iff in Hx as (point & <- & Hx). apply filter_In in Hx as [Hx _].
  split; [|exists point; split; [exact Hx|reflexivity]].
  assert (F : free_of bullet_stops point = true)
    by (apply (bullet_point_free sec); rewrite E; exact Hx).
  destruct (str_strip_inside point) as (a & b & S).
  rewrite S in F. unfold free_of in *.
  rewrite !forallb_app in F.
  apply andb_true_iff in F as [_ F]. apply andb_true_iff in F as [F _].
  exact F.
Qed.

Lemma bullet_items_stop_at_markers_witness :
  section_items 15 (txt "- Full-time role") = [txt "Full"; txt "time role"]
  /\ free_of bullet_stops (txt "time role") = true.
Proof.
  split; [reflexivity|].
  apply (bullet_items_stop_at_markers 15 (txt "- Full-time role") (txt "time role")).
  - vm_compute. discriminate.
  - vm_compute. right. left. reflexivity.
Defined.
